(** * Threading examples: counters, producer/consumer queue, worker pool

    A shallow embedding of the Python sources

    - [thread_synchronization.py]: [Counter], [UnsafeCounter],
      [increment_worker], [run_synchronization_example];
    - [producer_consumer.py]: [producer], [consumer],
      [run_producer_consumer_example];
    - [thread_pool.py]: [task], [run_thread_pool_example], [map_example];
    - [basic_threading.py]: [worker], [run_basic_example];
    - [main.py]: [main];
    - [test_multithreading.py]: the calls of [test_producer],
      [test_consumer] and [test_concurrent_tasks].

    Threads are modelled by interleaving: every thread has a program
    counter, every atomic action of the source is one transition of the
    thread that performs it, and a run of the program is a sequence of
    such transitions chosen by an arbitrary scheduler.  [time.sleep] is a
    point where other threads may run and changes nothing else. *)

From stdpp Require Import base tactics option list list_numbers relations
  strings pretty sorting.
From Stdlib Require Import ZArith Lia Ascii.

(** ** thread_synchronization.py *)

Module Sync.

(** [class Counter]: an integer [value] and a [threading.Lock], a mutual
    exclusion lock that is either free ([false]) or held ([true]). *)
Record Counter := mkCounter { value : Z; lock : bool }.

(** [class UnsafeCounter]: the integer alone. *)
Record UnsafeCounter := mkUnsafe { uvalue : Z }.

(** [Counter.__init__] and [UnsafeCounter.__init__] *)
Definition Counter_init : Counter := {| value := 0; lock := false |}.
Definition UnsafeCounter_init : UnsafeCounter := {| uvalue := 0 |}.

(** [with self.lock:] entry and exit.  Acquiring a held lock blocks:
    the action is not enabled, [None]. *)
Definition acquire (c : Counter) : option Counter :=
  if lock c then None else Some {| value := value c; lock := true |}.

Definition release (c : Counter) : Counter :=
  {| value := value c; lock := false |}.

Definition set_value (v : Z) (c : Counter) : Counter :=
  {| value := v; lock := lock c |}.

(** *** One thread at a time

    The methods run without interference: each is the composition of
    its atomic actions. *)

Definition increment (c : Counter) : option Counter :=
  c1 ← acquire c;
  let current := value c1 in
  let c2 := set_value (current + 1) c1 in
  Some (release c2).

Definition get_value (c : Counter) : option (Z * Counter) :=
  c1 ← acquire c;
  let r := value c1 in
  Some (r, release c1).

Definition unsafe_increment (c : UnsafeCounter) : UnsafeCounter :=
  let current := uvalue c in
  {| uvalue := current + 1 |}.

Definition unsafe_get_value (c : UnsafeCounter) : Z := uvalue c.

(** [increment_worker(counter, iterations)], run alone *)
Fixpoint increment_worker (c : Counter) (iterations : nat) : option Counter :=
  match iterations with
  | 0 => Some c
  | S k => c' ← increment c; increment_worker c' k
  end.

Fixpoint unsafe_increment_worker (c : UnsafeCounter) (iterations : nat)
    : UnsafeCounter :=
  match iterations with
  | 0 => c
  | S k => unsafe_increment_worker (unsafe_increment c) k
  end.

(** *** Several threads

    Program counter of a thread that runs [increment_worker]; [k] is
    the number of iterations of the [for] loop that remain after the
    current one. *)
Inductive pc :=
  | Loop (k : nat)        (* at [for _ in range(iterations)], [k] left *)
  | Locked (k : nat)      (* lock acquired, before [current = self.value] *)
  | Sleeping (current : Z) (k : nat)  (* in [time.sleep], before the write *)
  | Written (k : nat)     (* [self.value] written, before the release *)
  | Finished.

#[global] Instance pc_eq_dec : EqDecision pc.
Proof. solve_decision. Defined.

Definition in_critical_section (p : pc) : bool :=
  match p with
  | Locked _ | Sleeping _ _ | Written _ => true
  | Loop _ | Finished => false
  end.

(** Increments a thread has still to write. *)
Definition todo (p : pc) : nat :=
  match p with
  | Loop k => k
  | Locked k | Sleeping _ k => S k
  | Written k => k
  | Finished => 0
  end.

Record state := mkState { counter : Counter; threads : list pc }.

(** One atomic action of a thread against the locked [Counter]. *)
Definition increment_worker_step (c : Counter) (p : pc)
    : option (Counter * pc) :=
  match p with
  | Loop 0 => Some (c, Finished)
  | Loop (S k) => c' ← acquire c; Some (c', Locked k)
  | Locked k => Some (c, Sleeping (value c) k)
  | Sleeping current k => Some (set_value (current + 1) c, Written k)
  | Written k => Some (release c, Loop k)
  | Finished => None
  end.

Definition step_thread (t : nat) (s : state) : option state :=
  p ← threads s !! t;
  '(c', p') ← increment_worker_step (counter s) p;
  Some {| counter := c'; threads := <[t:=p']> (threads s) |}.

Definition step (s s' : state) : Prop := ∃ t, step_thread t s = Some s'.

(** [n] threads started on a fresh counter, [m] iterations each. *)
Definition init (n m : nat) : state :=
  {| counter := Counter_init; threads := replicate n (Loop m) |}.

Definition all_finished (s : state) : Prop :=
  Forall (λ p, p = Finished) (threads s).

(** Run a schedule (the thread chosen at each step); a choice that is
    not enabled is skipped. *)
Fixpoint run (sched : list nat) (s : state) : state :=
  match sched with
  | [] => s
  | t :: sched' => run sched' (default s (step_thread t s))
  end.

(** The same against [UnsafeCounter]: no lock is taken. *)
Definition unsafe_increment_worker_step (c : UnsafeCounter) (p : pc)
    : option (UnsafeCounter * pc) :=
  match p with
  | Loop 0 => Some (c, Finished)
  | Loop (S k) => Some (c, Sleeping (uvalue c) k)
  | Sleeping current k => Some ({| uvalue := current + 1 |}, Loop k)
  | Locked _ | Written _ | Finished => None
  end.

Record ustate := mkUState { ucounter : UnsafeCounter; uthreads : list pc }.

Definition unsafe_step_thread (t : nat) (s : ustate) : option ustate :=
  p ← uthreads s !! t;
  '(c', p') ← unsafe_increment_worker_step (ucounter s) p;
  Some {| ucounter := c'; uthreads := <[t:=p']> (uthreads s) |}.

Definition unsafe_init (n m : nat) : ustate :=
  {| ucounter := UnsafeCounter_init; uthreads := replicate n (Loop m) |}.

Fixpoint unsafe_run (sched : list nat) (s : ustate) : ustate :=
  match sched with
  | [] => s
  | t :: sched' => unsafe_run sched' (default s (unsafe_step_thread t s))
  end.

End Sync.

(** ** producer_consumer.py *)

(** *** [queue.Queue] *)

Module Queue.
Section queue.
Context {T : Type}.

(** Modelled from the spec: Python's [queue.Queue] is not part of the
    sources; this is the BoundedQueue of the specification with the
    method names the sources call.  [items] is the FIFO content, oldest
    first; [maxsize] is the capacity, [0] meaning unbounded;
    [unfinished_tasks] counts the items put and not yet marked done
    (the items held plus the pending ones). *)
Record t := mk { items : list T; maxsize : nat; unfinished_tasks : nat }.

(** [queue.Queue(maxsize)] *)
Definition create (maxsize : nat) : t :=
  {| items := []; maxsize := maxsize; unfinished_tasks := 0 |}.

Definition qsize (q : t) : nat := length (items q).

Definition empty (q : t) : bool := bool_decide (qsize q = 0).

Definition full (q : t) : bool :=
  bool_decide (0 < maxsize q) && bool_decide (maxsize q ≤ qsize q).

(** [put(item)]: blocks while the queue is full (not enabled: [None]);
    otherwise appends the item. *)
Definition put (x : T) (q : t) : option t :=
  if full q then None
  else Some {| items := items q ++ [x]; maxsize := maxsize q;
               unfinished_tasks := S (unfinished_tasks q) |}.

(** [get(timeout)]: the oldest item, or the exception [queue.Empty] when
    the wait times out on an empty queue. *)
Inductive get_result := Got (x : T) | Empty.

Definition get (q : t) : get_result * t :=
  match items q with
  | [] => (Empty, q)
  | x :: rest =>
      (Got x, {| items := rest; maxsize := maxsize q;
                 unfinished_tasks := unfinished_tasks q |})
  end.

(** [task_done()]: one pending item less; a call in excess raises
    [ValueError] ([None]). *)
Definition task_done (q : t) : option t :=
  match unfinished_tasks q with
  | 0 => None
  | S n => Some {| items := items q; maxsize := maxsize q;
                   unfinished_tasks := n |}
  end.

(** [join()] returns once every item put has been marked done. *)
Definition join (q : t) : option t :=
  if bool_decide (unfinished_tasks q = 0) then Some q else None.

(** The specification's [count], [pending] and [isDrained]. *)
Definition count (q : t) : nat := qsize q.
Definition pending (q : t) : nat := unfinished_tasks q - qsize q.
Definition isDrained (q : t) : bool :=
  bool_decide (count q = 0) && bool_decide (pending q = 0).

(** The capacity is respected. *)
Definition valid (q : t) : Prop :=
  (maxsize q = 0 ∨ qsize q ≤ maxsize q) ∧ qsize q ≤ unfinished_tasks q.

End queue.
Global Arguments t : clear implicits.
Global Arguments get_result : clear implicits.
End Queue.

Module ProdCons.

(** [f"Item-{producer_id}-{i}"] *)
Definition item (producer_id i : nat) : string :=
  "Item-" +:+ pretty producer_id +:+ "-" +:+ pretty i.

(** What the threads share: the queue and the [threading.Event], a
    boolean that [set()] raises and that the program never clears (the
    ShutdownSignal of the specification); and, as history, the items put
    and the items returned by [get], each in the order the calls took
    effect. *)
Record shared := mkShared {
  work_queue : Queue.t string;
  stop_event : bool;
  put_log : list string;
  get_log : list string;
}.

Definition set_queue (q : Queue.t string) (sh : shared) : shared :=
  {| work_queue := q; stop_event := stop_event sh;
     put_log := put_log sh; get_log := get_log sh |}.

(** [producer(queue_obj, producer_id, num_items)]: program counter, and
    one atomic action.  [put] blocks while the queue is full; printing
    and sleeping change nothing the threads share. *)
Inductive ppc :=
  | P_new                 (* thread not started *)
  | P_for (i : nat)       (* at [for i in range(num_items)], next index [i] *)
  | P_finished.

Definition producer (sh : shared) (producer_id num_items : nat) (p : ppc)
    : option (shared * ppc) :=
  match p with
  | P_new | P_finished => None
  | P_for i =>
      if bool_decide (i < num_items) then
        let it := item producer_id i in
        q ← Queue.put it (work_queue sh);
        Some ({| work_queue := q; stop_event := stop_event sh;
                 put_log := put_log sh ++ [it]; get_log := get_log sh |},
              P_for (S i))
      else Some (sh, P_finished)
  end.

(** [consumer(queue_obj, consumer_id, stop_event)]: program counter, and
    one atomic action.  The identifier is only printed. *)
Inductive cpc :=
  | C_new                 (* thread not started *)
  | C_while               (* loop condition, at [stop_event.is_set()] *)
  | C_empty               (* loop condition, at [queue_obj.empty()] *)
  | C_get                 (* in [try], at [queue_obj.get(timeout=0.5)] *)
  | C_work (it : string)  (* item printed, sleeping, before [task_done()] *)
  | C_finished.

Definition consumer (sh : shared) (c : cpc) : option (shared * cpc) :=
  match c with
  | C_new | C_finished => None
  | C_while =>
      (* [not stop_event.is_set() or ...]: the right operand is
         evaluated only when the event is set *)
      Some (sh, if stop_event sh then C_empty else C_get)
  | C_empty =>
      Some (sh, if Queue.empty (work_queue sh) then C_finished else C_get)
  | C_get =>
      match Queue.get (work_queue sh) with
      | (Queue.Got it, q) =>
          Some ({| work_queue := q; stop_event := stop_event sh;
                   put_log := put_log sh; get_log := get_log sh ++ [it] |},
                C_work it)
      | (Queue.Empty, q) =>
          (* [except queue.Empty: continue] *)
          Some (set_queue q sh, C_while)
      end
  | C_work _ =>
      q ← Queue.task_done (work_queue sh);
      Some (set_queue q sh, C_while)
  end.

(** [run_producer_consumer_example()], for any values of its four
    constants. *)
Record config := mkConfig {
  maxsize : nat;
  num_producers : nat;
  num_items_per_producer : nat;
  num_consumers : nat;
}.

(** The constants of the source. *)
Definition example_config : config :=
  {| maxsize := 10; num_producers := 2; num_items_per_producer := 5;
     num_consumers := 3 |}.

(** Program counter of the main thread. *)
Inductive mpc :=
  | M_start_producers (i : nat)   (* first loop, about to start producer [i] *)
  | M_start_consumers (i : nat)   (* second loop, about to start consumer [i] *)
  | M_join_producers (i : nat)    (* about to join producer [i] *)
  | M_queue_join                  (* at [work_queue.join()] *)
  | M_stop_set                    (* at [stop_event.set()] *)
  | M_join_consumers (i : nat)    (* about to join consumer [i] *)
  | M_finished.

Record state := mkState {
  sh : shared;
  producers : list ppc;
  consumers : list cpc;
  main : mpc;
}.

Definition init (cfg : config) : state :=
  {| sh := {| work_queue := Queue.create (maxsize cfg); stop_event := false;
              put_log := []; get_log := [] |};
     producers := replicate (num_producers cfg) P_new;
     consumers := replicate (num_consumers cfg) C_new;
     main := M_start_producers 0 |}.

Definition set_main (m : mpc) (s : state) : state :=
  {| sh := sh s; producers := producers s; consumers := consumers s;
     main := m |}.

(** One atomic action of the main thread; joining a thread blocks until
    the thread has finished. *)
Definition run_producer_consumer_example (cfg : config) (s : state)
    : option state :=
  match main s with
  | M_start_producers i =>
      if bool_decide (i < num_producers cfg) then
        Some {| sh := sh s; producers := <[i:=P_for 0]> (producers s);
                consumers := consumers s; main := M_start_producers (S i) |}
      else Some (set_main (M_start_consumers 0) s)
  | M_start_consumers i =>
      if bool_decide (i < num_consumers cfg) then
        Some {| sh := sh s; producers := producers s;
                consumers := <[i:=C_while]> (consumers s);
                main := M_start_consumers (S i) |}
      else Some (set_main (M_join_producers 0) s)
  | M_join_producers i =>
      if bool_decide (i < num_producers cfg) then
        match producers s !! i with
        | Some P_finished => Some (set_main (M_join_producers (S i)) s)
        | _ => None
        end
      else Some (set_main M_queue_join s)
  | M_queue_join =>
      q ← Queue.join (work_queue (sh s));
      Some {| sh := set_queue q (sh s); producers := producers s;
              consumers := consumers s; main := M_stop_set |}
  | M_stop_set =>
      Some {| sh := {| work_queue := work_queue (sh s); stop_event := true;
                       put_log := put_log (sh s); get_log := get_log (sh s) |};
              producers := producers s; consumers := consumers s;
              main := M_join_consumers 0 |}
  | M_join_consumers i =>
      if bool_decide (i < num_consumers cfg) then
        match consumers s !! i with
        | Some C_finished => Some (set_main (M_join_consumers (S i)) s)
        | _ => None
        end
      else Some (set_main M_finished s)
  | M_finished => None
  end.

(** Threads of the program. *)
Inductive tid := Main | Producer (i : nat) | Consumer (i : nat).

Definition step_thread (cfg : config) (t : tid) (s : state) : option state :=
  match t with
  | Main => run_producer_consumer_example cfg s
  | Producer i =>
      p ← producers s !! i;
      '(sh', p') ← producer (sh s) i (num_items_per_producer cfg) p;
      Some {| sh := sh'; producers := <[i:=p']> (producers s);
              consumers := consumers s; main := main s |}
  | Consumer i =>
      c ← consumers s !! i;
      '(sh', c') ← consumer (sh s) c;
      Some {| sh := sh'; producers := producers s;
              consumers := <[i:=c']> (consumers s); main := main s |}
  end.

Definition step (cfg : config) (s s' : state) : Prop :=
  ∃ t, step_thread cfg t s = Some s'.

Definition reachable (cfg : config) (s : state) : Prop :=
  rtc (step cfg) (init cfg) s.

(** Run a schedule; a choice that is not enabled is skipped. *)
Fixpoint run (cfg : config) (sched : list tid) (s : state) : state :=
  match sched with
  | [] => s
  | t :: sched' => run cfg sched' (default s (step_thread cfg t s))
  end.

End ProdCons.

(** ** thread_pool.py *)

(** *** [concurrent.futures.ThreadPoolExecutor] *)

Module Executor.
Section executor.
Context {W A R : Type}.

(** A worker thread is idle (waiting on the work queue, or not yet
    spawned) or runs the call behind a handle. *)
Inductive wpc := Idle | Running (h : nat).

(** Modelled from the spec: [ThreadPoolExecutor] is not part of the
    sources; this is the WorkerPool of the specification.  A handle is
    the index of its submission.  [args] holds the argument of every
    submitted call, [work_queue] the handles no worker has taken yet
    (oldest first), [workers] the [max_workers] worker threads, [futures]
    the result slot of every handle, [world] the state the task bodies
    act upon. *)
Record t := mk {
  args : list A;
  work_queue : list nat;
  workers : list wpc;
  futures : list (option R);
  world : W;
}.

(** [ThreadPoolExecutor(max_workers)] *)
Definition create (max_workers : nat) (w : W) : t :=
  {| args := []; work_queue := []; workers := replicate max_workers Idle;
     futures := []; world := w |}.

(** [executor.submit(fn, a)]: never blocks, returns the new handle. *)
Definition submit (a : A) (e : t) : nat * t :=
  let h := length (futures e) in
  (h, {| args := args e ++ [a]; work_queue := work_queue e ++ [h];
         workers := workers e; futures := futures e ++ [None];
         world := world e |}).

(** One action of worker [w] for the task body [fn]: an idle worker takes
    the oldest waiting handle; a running one completes its call and
    stores the result in the handle's slot. *)
Definition worker_step (fn : A → W → R * W) (w : nat) (e : t) : option t :=
  p ← workers e !! w;
  match p with
  | Idle =>
      match work_queue e with
      | [] => None
      | h :: rest =>
          Some {| args := args e; work_queue := rest;
                  workers := <[w:=Running h]> (workers e);
                  futures := futures e; world := world e |}
      end
  | Running h =>
      a ← args e !! h;
      let '(r, wd) := fn a (world e) in
      Some {| args := args e; work_queue := work_queue e;
              workers := <[w:=Idle]> (workers e);
              futures := <[h:=Some r]> (futures e); world := wd |}
  end.

(** [future.result()]: blocks ([None]) until the call has completed. *)
Definition result (h : nat) (e : t) : option R := mjoin (futures e !! h).

Definition done (h : nat) (e : t) : bool := bool_decide (is_Some (result h e)).

(** [shutdown(wait=True)], at the end of the [with] block: returns once
    no call is waiting or running. *)
Definition idle (p : wpc) : bool :=
  match p with Idle => true | Running _ => false end.

Definition shutdown (e : t) : option t :=
  match work_queue e with
  | [] => if forallb idle (workers e) then Some e else None
  | _ :: _ => None
  end.

End executor.
Global Arguments t : clear implicits.
End Executor.

Module ThreadPool.
Section world.
(** The floats [random.uniform] draws are not interpreted. *)
Context {duration : Type}.

(** The lines the programs print. *)
Inductive event :=
  | Starting (task_id : Z) (d : duration)
  | Completed (task_id : Z)
  | Retrieved (task_id result : Z).

(** What the task bodies act upon: the random generator, as the
    sequence of its future draws and the number of draws made, and the
    lines printed. *)
Record world := mkWorld {
  uniform : nat → duration;
  draws : nat;
  stdout : list event;
}.

(** [random.uniform(0.5, 2.0)]: the next draw. *)
Definition random_uniform (w : world) : duration * world :=
  (uniform w (draws w),
   {| uniform := uniform w; draws := S (draws w); stdout := stdout w |}).

Definition print (e : event) (w : world) : world :=
  {| uniform := uniform w; draws := draws w; stdout := stdout w ++ [e] |}.

(** [task(task_id)] *)
Definition task (task_id : Z) (w : world) : (Z * Z * duration) * world :=
  let '(duration, w) := random_uniform w in
  let w := print (Starting task_id duration) w in
  (* [time.sleep(duration)] *)
  let result := (task_id * task_id)%Z in
  let w := print (Completed task_id) w in
  ((task_id, result, duration), w).

(** [square(n)] of [map_example] *)
Definition square (n : Z) (w : world) : Z * world := ((n * n)%Z, w).

(** Threads: the workers of the pool and the main thread; when the main
    thread is in [as_completed], [choice] is the handle that is yielded
    next. *)
Inductive tid := Worker (w : nat) | Main (choice : nat).

(** [run_thread_pool_example()] *)
Inductive dpc :=
  | D_submit (i : nat)    (* building [futures], next [i] *)
  | D_as_completed        (* in the [for] over [as_completed(futures)] *)
  | D_exit                (* leaving the [with] block *)
  | D_finished.

Record dstate := mkDState {
  dexecutor : Executor.t world Z (Z * Z * duration);
  dmain : dpc;
  dfutures : list nat;          (* the list [futures] of handles *)
  yielded : list nat;           (* handles [as_completed] has yielded *)
  results : list (Z * Z);
}.

Definition drain_init (max_workers : nat) (w : world) : dstate :=
  {| dexecutor := Executor.create max_workers w; dmain := D_submit 0;
     dfutures := []; yielded := []; results := [] |}.

Definition run_thread_pool_example (num_tasks : nat) (choice : nat) (s : dstate)
    : option dstate :=
  match dmain s with
  | D_submit i =>
      if bool_decide (i < num_tasks) then
        let '(h, e) := Executor.submit (Z.of_nat i) (dexecutor s) in
        Some {| dexecutor := e; dmain := D_submit (S i);
                dfutures := dfutures s ++ [h]; yielded := yielded s;
                results := results s |}
      else
        Some {| dexecutor := dexecutor s; dmain := D_as_completed;
                dfutures := dfutures s; yielded := yielded s;
                results := results s |}
  | D_as_completed =>
      if bool_decide (dfutures s ⊆ yielded s) then
        Some {| dexecutor := dexecutor s; dmain := D_exit;
                dfutures := dfutures s; yielded := yielded s;
                results := results s |}
      else if bool_decide (choice ∈ dfutures s ∧ choice ∉ yielded s) then
        '(task_id, result, _) ← Executor.result choice (dexecutor s);
        Some {| dexecutor :=
                  {| Executor.args := Executor.args (dexecutor s);
                     Executor.work_queue := Executor.work_queue (dexecutor s);
                     Executor.workers := Executor.workers (dexecutor s);
                     Executor.futures := Executor.futures (dexecutor s);
                     Executor.world :=
                       print (Retrieved task_id result)
                             (Executor.world (dexecutor s)) |};
                dmain := D_as_completed; dfutures := dfutures s;
                yielded := yielded s ++ [choice];
                results := results s ++ [(task_id, result)] |}
      else None
  | D_exit =>
      e ← Executor.shutdown (dexecutor s);
      Some {| dexecutor := e; dmain := D_finished; dfutures := dfutures s;
              yielded := yielded s; results := results s |}
  | D_finished => None
  end.

Definition drain_step_thread (num_tasks : nat) (t : tid) (s : dstate)
    : option dstate :=
  match t with
  | Worker w =>
      e ← Executor.worker_step task w (dexecutor s);
      Some {| dexecutor := e; dmain := dmain s; dfutures := dfutures s;
              yielded := yielded s; results := results s |}
  | Main choice => run_thread_pool_example num_tasks choice s
  end.

Definition drain_step (num_tasks : nat) (s s' : dstate) : Prop :=
  ∃ t, drain_step_thread num_tasks t s = Some s'.

Fixpoint drain_run (num_tasks : nat) (sched : list tid) (s : dstate) : dstate :=
  match sched with
  | [] => s
  | t :: sched' =>
      drain_run num_tasks sched' (default s (drain_step_thread num_tasks t s))
  end.

(** [map_example()], for any function and list in place of [square] and
    [numbers]: [list(executor.map(fn, numbers))] submits one call per
    element, then takes the results of the handles in submission
    order. *)
Section map.
Context {A R : Type}.

Inductive xpc :=
  | X_submit (i : nat)    (* [executor.map] submitting, next element [i] *)
  | X_result (i : nat)    (* [list(...)] waiting for the result of handle [i] *)
  | X_exit                (* leaving the [with] block *)
  | X_finished.

Record xstate := mkXState {
  xexecutor : Executor.t world A R;
  xmain : xpc;
  fs : list nat;                (* the handles, in submission order *)
  xresults : list R;
}.

Definition map_init (max_workers : nat) (w : world) : xstate :=
  {| xexecutor := Executor.create max_workers w; xmain := X_submit 0;
     fs := []; xresults := [] |}.

Definition map_example (numbers : list A) (s : xstate) : option xstate :=
  match xmain s with
  | X_submit i =>
      match numbers !! i with
      | Some a =>
          let '(h, e) := Executor.submit a (xexecutor s) in
          Some {| xexecutor := e; xmain := X_submit (S i);
                  fs := fs s ++ [h]; xresults := xresults s |}
      | None =>
          Some {| xexecutor := xexecutor s; xmain := X_result 0;
                  fs := fs s; xresults := xresults s |}
      end
  | X_result i =>
      match fs s !! i with
      | Some h =>
          r ← Executor.result h (xexecutor s);
          Some {| xexecutor := xexecutor s; xmain := X_result (S i);
                  fs := fs s; xresults := xresults s ++ [r] |}
      | None =>
          Some {| xexecutor := xexecutor s; xmain := X_exit;
                  fs := fs s; xresults := xresults s |}
      end
  | X_exit =>
      e ← Executor.shutdown (xexecutor s);
      Some {| xexecutor := e; xmain := X_finished; fs := fs s;
              xresults := xresults s |}
  | X_finished => None
  end.

Definition map_step_thread (fn : A → world → R * world) (numbers : list A)
    (t : tid) (s : xstate) : option xstate :=
  match t with
  | Worker w =>
      e ← Executor.worker_step fn w (xexecutor s);
      Some {| xexecutor := e; xmain := xmain s; fs := fs s;
              xresults := xresults s |}
  | Main _ => map_example numbers s
  end.

Definition map_step (fn : A → world → R * world) (numbers : list A)
    (s s' : xstate) : Prop :=
  ∃ t, map_step_thread fn numbers t s = Some s'.

Fixpoint map_run (fn : A → world → R * world) (numbers : list A)
    (sched : list tid) (s : xstate) : xstate :=
  match sched with
  | [] => s
  | t :: sched' =>
      map_run fn numbers sched' (default s (map_step_thread fn numbers t s))
  end.

End map.
End world.
Global Arguments world : clear implicits.
Global Arguments event : clear implicits.
Global Arguments dstate : clear implicits.
Global Arguments xstate : clear implicits.
End ThreadPool.

(** ** [run_synchronization_example] *)

Module SyncExample.
Import Sync.

(** The lines [run_synchronization_example] prints. *)
Inductive event :=
  | Title
  | UnsafeTitle
  | SafeTitle
  | ExpectedGot (expected got : Z)
  | Blank.

(** Program counter of the main thread. *)
Inductive mpc :=
  | E_title
  | E_unsafe_title
  | E_unsafe_start (i : nat)   (* first loop, about to start thread [i] *)
  | E_unsafe_join (i : nat)    (* about to join thread [i] *)
  | E_unsafe_print
  | E_safe_title
  | E_safe_start (i : nat)
  | E_safe_join (i : nat)
  | E_safe_print
  | E_blank
  | E_finished.

(** [run_synchronization_example()], for any number of threads in place
    of 10 and any number of iterations in place of 100.  The two counters
    are in the state from the start, each unused until the main thread
    creates it and starts its threads. *)
Record state := mkState {
  unsafe_counter : UnsafeCounter;
  unsafe_threads : list pc;
  safe_counter : Counter;
  safe_threads : list pc;
  main : mpc;
  stdout : list event;
}.

Definition init (num_threads iterations : nat) : state :=
  {| unsafe_counter := UnsafeCounter_init;
     unsafe_threads := replicate num_threads (Loop iterations);
     safe_counter := Counter_init;
     safe_threads := replicate num_threads (Loop iterations);
     main := E_title; stdout := [] |}.

(** Threads on the unsafe counter the main thread has started. *)
Definition unsafe_started (num_threads : nat) (m : mpc) : nat :=
  match m with
  | E_title | E_unsafe_title => 0
  | E_unsafe_start i => i
  | _ => num_threads
  end.

(** Threads on the safe counter the main thread has started. *)
Definition safe_started (num_threads : nat) (m : mpc) : nat :=
  match m with
  | E_safe_start i => i
  | E_safe_join _ | E_safe_print | E_blank | E_finished => num_threads
  | _ => 0
  end.

Definition set_main (m : mpc) (s : state) : state :=
  {| unsafe_counter := unsafe_counter s; unsafe_threads := unsafe_threads s;
     safe_counter := safe_counter s; safe_threads := safe_threads s;
     main := m; stdout := stdout s |}.

Definition print (e : event) (m : mpc) (s : state) : state :=
  {| unsafe_counter := unsafe_counter s; unsafe_threads := unsafe_threads s;
     safe_counter := safe_counter s; safe_threads := safe_threads s;
     main := m; stdout := stdout s ++ [e] |}.

(** One atomic action of the main thread. *)
Definition run_synchronization_example (num_threads iterations : nat)
    (s : state) : option state :=
  let expected := (Z.of_nat num_threads * Z.of_nat iterations)%Z in
  match main s with
  | E_title => Some (print Title E_unsafe_title s)
  | E_unsafe_title => Some (print UnsafeTitle (E_unsafe_start 0) s)
  | E_unsafe_start i =>
      Some (set_main (if bool_decide (i < num_threads)
                      then E_unsafe_start (S i) else E_unsafe_join 0) s)
  | E_unsafe_join i =>
      if bool_decide (i < num_threads) then
        match unsafe_threads s !! i with
        | Some Finished => Some (set_main (E_unsafe_join (S i)) s)
        | _ => None
        end
      else Some (set_main E_unsafe_print s)
  | E_unsafe_print =>
      Some (print (ExpectedGot expected (unsafe_get_value (unsafe_counter s)))
              E_safe_title s)
  | E_safe_title => Some (print SafeTitle (E_safe_start 0) s)
  | E_safe_start i =>
      Some (set_main (if bool_decide (i < num_threads)
                      then E_safe_start (S i) else E_safe_join 0) s)
  | E_safe_join i =>
      if bool_decide (i < num_threads) then
        match safe_threads s !! i with
        | Some Finished => Some (set_main (E_safe_join (S i)) s)
        | _ => None
        end
      else Some (set_main E_safe_print s)
  | E_safe_print =>
      '(got, c) ← get_value (safe_counter s);
      Some {| unsafe_counter := unsafe_counter s;
              unsafe_threads := unsafe_threads s;
              safe_counter := c; safe_threads := safe_threads s;
              main := E_blank;
              stdout := stdout s ++ [ExpectedGot expected got] |}
  | E_blank => Some (print Blank E_finished s)
  | E_finished => None
  end.

Inductive tid := Main | UnsafeThread (t : nat) | SafeThread (t : nat).

Definition step_thread (num_threads iterations : nat) (t : tid) (s : state)
    : option state :=
  match t with
  | Main => run_synchronization_example num_threads iterations s
  | UnsafeThread t =>
      if bool_decide (t < unsafe_started num_threads (main s)) then
        u ← unsafe_step_thread t
               {| ucounter := unsafe_counter s;
                  uthreads := unsafe_threads s |};
        Some {| unsafe_counter := ucounter u; unsafe_threads := uthreads u;
                safe_counter := safe_counter s;
                safe_threads := safe_threads s;
                main := main s; stdout := stdout s |}
      else None
  | SafeThread t =>
      if bool_decide (t < safe_started num_threads (main s)) then
        u ← Sync.step_thread t
               {| counter := safe_counter s; threads := safe_threads s |};
        Some {| unsafe_counter := unsafe_counter s;
                unsafe_threads := unsafe_threads s;
                safe_counter := counter u; safe_threads := threads u;
                main := main s; stdout := stdout s |}
      else None
  end.

Definition step (num_threads iterations : nat) (s s' : state) : Prop :=
  ∃ t, step_thread num_threads iterations t s = Some s'.

Fixpoint run (num_threads iterations : nat) (sched : list tid) (s : state)
    : state :=
  match sched with
  | [] => s
  | t :: sched' =>
      run num_threads iterations sched'
        (default s (step_thread num_threads iterations t s))
  end.

End SyncExample.

(** ** Calls in a single thread *)

Module Calls.
Import ProdCons.

(** [producer(queue_obj, producer_id, num_items)] called in the calling
    thread, no other thread running: its actions one after the other.
    The call has returned when the program counter is [P_finished]; it
    blocks for ever when no action is enabled before that. *)
Fixpoint call_producer (fuel : nat) (sh : shared) (producer_id num_items : nat)
    (p : ppc) : shared * ppc :=
  match fuel with
  | 0 => (sh, p)
  | S fuel =>
      match producer sh producer_id num_items p with
      | Some (sh', p') => call_producer fuel sh' producer_id num_items p'
      | None => (sh, p)
      end
  end.

(** [consumer(queue_obj, consumer_id, stop_event)] run with no other
    thread running: its actions one after the other, as long as there is
    fuel and the call has not ended. *)
Fixpoint call_consumer (fuel : nat) (sh : shared) (c : cpc) : shared * cpc :=
  match fuel with
  | 0 => (sh, c)
  | S fuel =>
      match consumer sh c with
      | Some (sh', c') => call_consumer fuel sh' c'
      | None => (sh, c)
      end
  end.

(** How a call of [consumer] stands: it is in its loop; it has returned;
    or it has ended with the [ValueError] that [task_done()] raises when
    no task is unfinished, which [except queue.Empty] does not catch. *)
Inductive standing := Not_started | In_loop | Has_returned | Has_raised.

Definition consumer_standing (sh : shared) (c : cpc) : standing :=
  match c with
  | C_new => Not_started
  | C_while | C_empty | C_get => In_loop
  | C_work _ =>
      if bool_decide (Queue.unfinished_tasks (work_queue sh) = 0)
      then Has_raised else In_loop
  | C_finished => Has_returned
  end.

(** [for i in range(k): item = test_queue.get()]: the items, or [None]
    when a [get()] finds the queue empty and, without a timeout, blocks. *)
Fixpoint gets {T} (k : nat) (q : Queue.t T) : option (list T * Queue.t T) :=
  match k with
  | 0 => Some ([], q)
  | S k =>
      match Queue.get q with
      | (Queue.Got x, q') => '(l, q'') ← gets k q'; Some (x :: l, q'')
      | (Queue.Empty, _) => None
      end
  end.

(** What the tests share with the function they call: a new
    [queue.Queue(maxsize)] and a new [threading.Event]. *)
Definition new_shared (maxsize : nat) : shared :=
  {| work_queue := Queue.create maxsize; stop_event := false;
     put_log := []; get_log := [] |}.

(** [stop_event.set()] *)
Definition set_stop (sh : shared) : shared :=
  {| work_queue := work_queue sh; stop_event := true;
     put_log := put_log sh; get_log := get_log sh |}.

End Calls.

(** ** The end of [run_thread_pool_example] *)

Module PoolOutput.
Import ThreadPool.

(** Python compares tuples lexicographically. *)
Definition tuple_le (x y : Z * Z) : Prop :=
  (x.1 < y.1)%Z ∨ (x.1 = y.1 ∧ (x.2 ≤ y.2)%Z).

#[global] Instance tuple_le_dec x y : Decision (tuple_le x y).
Proof. unfold tuple_le. apply _. Defined.

(** [sorted(results)] on a list of pairs of integers: the list in
    ascending order, here by a merge sort. *)
Definition sorted (l : list (Z * Z)) : list (Z * Z) := merge_sort tuple_le l.

(** The list printed after [Results:] by the last line of
    [run_thread_pool_example]. *)
Definition results_line {duration} (s : dstate duration) : list (Z * Z) :=
  sorted (results s).

(** The task identifier of a line [Task i starting], [Task i completed],
    and the pair of a line [Retrieved result: Task i = r]. *)
Definition starting_id {duration} (e : event duration) : option Z :=
  match e with Starting i _ => Some i | _ => None end.

Definition completed_id {duration} (e : event duration) : option Z :=
  match e with Completed i => Some i | _ => None end.

Definition retrieved_entry {duration} (e : event duration) : option (Z * Z) :=
  match e with Retrieved i r => Some (i, r) | _ => None end.

End PoolOutput.

(** ** The body of [task], action by action

    In [ThreadPool] a worker completes a call in one step, which is
    enough for the results.  Here a worker goes through the body of
    [task] one atomic action at a time, so that the bodies of the calls
    that run at the same time interleave, as do their draws and their
    lines. *)

Module PoolSteps.
Import ThreadPool.
Section steps.
Context {duration : Type}.

(** Where a worker is inside [task(task_id)]. *)
Inductive kpc :=
  | K_draw                      (* at [random.uniform(0.5, 2.0)] *)
  | K_starting (d : duration)   (* before the first [print] *)
  | K_sleep (d : duration)      (* first line printed, in [time.sleep] *)
  | K_return (d : duration).    (* second line printed, at [return] *)

(** One atomic action of [task(task_id)]: the next position, or the
    value returned. *)
Definition task_step (task_id : Z) (k : kpc) (w : world duration)
    : (kpc + Z * Z * duration) * world duration :=
  match k with
  | K_draw =>
      let '(duration, w) := random_uniform w in
      (inl (K_starting duration), w)
  | K_starting duration =>
      (inl (K_sleep duration), print (Starting task_id duration) w)
  | K_sleep duration =>
      (inl (K_return duration), print (Completed task_id) w)
  | K_return duration =>
      let result := (task_id * task_id)%Z in
      (inr (task_id, result, duration), w)
  end.

(** [task(task_id)] from its first action to its return. *)
Fixpoint call_task (fuel : nat) (task_id : Z) (k : kpc) (w : world duration)
    : option ((Z * Z * duration) * world duration) :=
  match fuel with
  | 0 => None
  | S fuel =>
      match task_step task_id k w with
      | (inl k', w') => call_task fuel task_id k' w'
      | (inr r, w') => Some (r, w')
      end
  end.

Definition set_world (wd : world duration)
    (e : Executor.t (world duration) Z (Z * Z * duration))
    : Executor.t (world duration) Z (Z * Z * duration) :=
  {| Executor.args := Executor.args e;
     Executor.work_queue := Executor.work_queue e;
     Executor.workers := Executor.workers e;
     Executor.futures := Executor.futures e;
     Executor.world := wd |}.

(** One action of worker [w], [bodies] holding the position of every
    worker inside the body of the call it runs: an idle worker takes
    the oldest waiting handle and enters the body; a running one takes
    the next action of the body, the last being the return, by which
    the result is stored in the handle's slot and the worker is idle
    again. *)
Definition worker_step (w : nat)
    (e : Executor.t (world duration) Z (Z * Z * duration))
    (bodies : list kpc)
    : option (Executor.t (world duration) Z (Z * Z * duration) * list kpc) :=
  p ← Executor.workers e !! w;
  match p with
  | Executor.Idle =>
      e' ← Executor.worker_step task w e;
      Some (e', <[w:=K_draw]> bodies)
  | Executor.Running h =>
      a ← Executor.args e !! h;
      k ← bodies !! w;
      match task_step a k (Executor.world e) with
      | (inl k', wd) => Some (set_world wd e, <[w:=k']> bodies)
      | (inr r, wd) =>
          e' ← Executor.worker_step (λ _ wd, (r, wd)) w (set_world wd e);
          Some (e', bodies)
      end
  end.

(** [run_thread_pool_example()] with these workers. *)
Record pstate := mkPState {
  pool : dstate duration;
  bodies : list kpc;
}.

Definition pool_init (max_workers : nat) (w : world duration) : pstate :=
  {| pool := drain_init max_workers w;
     bodies := replicate max_workers K_draw |}.

Definition pool_step_thread (num_tasks : nat) (t : tid) (s : pstate)
    : option pstate :=
  match t with
  | Worker w =>
      '(e, b) ← worker_step w (dexecutor (pool s)) (bodies s);
      Some {| pool := {| dexecutor := e; dmain := dmain (pool s);
                         dfutures := dfutures (pool s);
                         yielded := yielded (pool s);
                         results := results (pool s) |};
              bodies := b |}
  | Main choice =>
      d ← run_thread_pool_example num_tasks choice (pool s);
      Some {| pool := d; bodies := bodies s |}
  end.

Definition pool_step (num_tasks : nat) (s s' : pstate) : Prop :=
  ∃ t, pool_step_thread num_tasks t s = Some s'.

Fixpoint pool_run (num_tasks : nat) (sched : list tid) (s : pstate) : pstate :=
  match sched with
  | [] => s
  | t :: sched' =>
      pool_run num_tasks sched' (default s (pool_step_thread num_tasks t s))
  end.

(** [test_concurrent_tasks], for any number of tasks in place of 3:
    [futures = [executor.submit(task, i) for i in range(n)]] and
    [results = [f.result() for f in futures]] are the two loops of
    [ThreadPool.map_example] on [range(n)]. *)
Definition task_numbers (n : nat) : list Z := Z.of_nat <$> seq 0 n.

Record tstate := mkTState {
  test : xstate duration Z (Z * Z * duration);
  tbodies : list kpc;
}.

Definition test_init (max_workers : nat) (w : world duration) : tstate :=
  {| test := map_init max_workers w;
     tbodies := replicate max_workers K_draw |}.

Definition test_concurrent_tasks (n : nat)
    (s : xstate duration Z (Z * Z * duration))
    : option (xstate duration Z (Z * Z * duration)) :=
  map_example (task_numbers n) s.

Definition test_step_thread (n : nat) (t : tid) (s : tstate)
    : option tstate :=
  match t with
  | Worker w =>
      '(e, b) ← worker_step w (xexecutor (test s)) (tbodies s);
      Some {| test := {| xexecutor := e; xmain := xmain (test s);
                         fs := fs (test s);
                         xresults := xresults (test s) |};
              tbodies := b |}
  | Main _ =>
      x ← test_concurrent_tasks n (test s);
      Some {| test := x; tbodies := tbodies s |}
  end.

Definition test_step (n : nat) (s s' : tstate) : Prop :=
  ∃ t, test_step_thread n t s = Some s'.

Fixpoint test_run (n : nat) (sched : list tid) (s : tstate) : tstate :=
  match sched with
  | [] => s
  | t :: sched' => test_run n sched' (default s (test_step_thread n t s))
  end.

End steps.
Global Arguments kpc : clear implicits.
Global Arguments pstate : clear implicits.
Global Arguments tstate : clear implicits.
End PoolSteps.

(** ** basic_threading.py *)

Module Basic.
Section basic.
(** The floats are not interpreted: [times_half i] stands for
    [i * 0.5]. *)
Context {float : Type} (times_half : nat → float).

(** The lines the program prints. *)
Inductive event :=
  | Title                                          (* the banner *)
  | WorkerStarting (worker_id : nat)
  | WorkerFinished (worker_id : nat) (duration : float)
  | AllCompleted.

(** [worker(worker_id, duration)]: program counter, and one atomic
    action; [time.sleep] is the point between the two lines. *)
Inductive wpc :=
  | W_start               (* before the first line *)
  | W_sleep               (* first line printed, in [time.sleep] *)
  | W_finished.

#[global] Instance wpc_eq_dec : EqDecision wpc.
Proof. solve_decision. Defined.

Definition worker (worker_id : nat) (duration : float) (p : wpc)
    (stdout : list event) : option (wpc * list event) :=
  match p with
  | W_start => Some (W_sleep, stdout ++ [WorkerStarting worker_id])
  | W_sleep =>
      Some (W_finished, stdout ++ [WorkerFinished worker_id duration])
  | W_finished => None
  end.

(** [run_basic_example()], for any number of threads in place of 5. *)
Inductive mpc :=
  | B_title
  | B_start (i : nat)     (* first loop, about to start thread [i] *)
  | B_join (i : nat)      (* second loop, about to join thread [i] *)
  | B_completed           (* before the last line *)
  | B_finished.

Record state := mkState {
  threads : list wpc;
  main : mpc;
  stdout : list event;
}.

Definition init (num_threads : nat) : state :=
  {| threads := replicate num_threads W_start; main := B_title;
     stdout := [] |}.

(** Threads the main thread has started. *)
Definition started (num_threads : nat) (m : mpc) : nat :=
  match m with
  | B_title => 0
  | B_start i => i
  | _ => num_threads
  end.

Definition run_basic_example (num_threads : nat) (s : state) : option state :=
  match main s with
  | B_title =>
      Some {| threads := threads s; main := B_start 0;
              stdout := stdout s ++ [Title] |}
  | B_start i =>
      Some {| threads := threads s;
              main := if bool_decide (i < num_threads)
                      then B_start (S i) else B_join 0;
              stdout := stdout s |}
  | B_join i =>
      if bool_decide (i < num_threads) then
        match threads s !! i with
        | Some W_finished =>
            Some {| threads := threads s; main := B_join (S i);
                    stdout := stdout s |}
        | _ => None
        end
      else Some {| threads := threads s; main := B_completed;
                   stdout := stdout s |}
  | B_completed =>
      Some {| threads := threads s; main := B_finished;
              stdout := stdout s ++ [AllCompleted] |}
  | B_finished => None
  end.

Inductive tid := Main | Thread (i : nat).

Definition step_thread (num_threads : nat) (t : tid) (s : state)
    : option state :=
  match t with
  | Main => run_basic_example num_threads s
  | Thread i =>
      if bool_decide (i < started num_threads (main s)) then
        p ← threads s !! i;
        '(p', out) ← worker i (times_half i) p (stdout s);
        Some {| threads := <[i:=p']> (threads s); main := main s;
                stdout := out |}
      else None
  end.

Definition step (num_threads : nat) (s s' : state) : Prop :=
  ∃ t, step_thread num_threads t s = Some s'.

Fixpoint run (num_threads : nat) (sched : list tid) (s : state) : state :=
  match sched with
  | [] => s
  | t :: sched' =>
      run num_threads sched' (default s (step_thread num_threads t s))
  end.

End basic.
Global Arguments event : clear implicits.
Global Arguments state : clear implicits.
End Basic.

(** ** main.py *)

Module Main.
Section main.
(** What the examples act upon. *)
Context {W : Type}.

(** A call of an example returns or raises; [except Exception] catches
    what derives from [Exception] ([catchable]), not the other
    exceptions, such as [KeyboardInterrupt].  [message] is [str(e)]. *)
Inductive outcome :=
  | Returns
  | Raises (catchable : bool) (message : string).

(** How [main()] ends: it returns, [sys.exit(1)] raises [SystemExit],
    or an exception it does not catch leaves it. *)
Inductive exit :=
  | Return
  | SystemExit (code : Z)
  | Uncaught (message : string).

(** What [main()] does, in order: the lines it prints and the examples
    it calls. *)
Inductive event :=
  | Printed (line : string)
  | Called (name : string).

(** [s * n] on strings *)
Fixpoint times (s : string) (n : nat) : string :=
  match n with
  | 0 => ""
  | S n => s +:+ times s n
  end.

Definition header : list event :=
  [Printed (times "=" 60); Printed "MULTITHREADING EXAMPLES";
   Printed (times "=" 60); Printed ""].

Definition footer : list event :=
  [Printed (times "=" 60); Printed "ALL EXAMPLES COMPLETED SUCCESSFULLY";
   Printed (times "=" 60)].

(** [f"Error running {name}: {e}"] *)
Definition error_line (name e : string) : string :=
  "Error running " +:+ name +:+ ": " +:+ e.

(** [for name, func in examples: try: func() except Exception as e:
    ...]; [None] when the loop has ended. *)
Fixpoint for_examples (examples : list (string * (W → outcome * W))) (w : W)
    (log : list event) : option exit * W * list event :=
  match examples with
  | [] => (None, w, log)
  | (name, func) :: examples =>
      match func w with
      | (Returns, w) => for_examples examples w (log ++ [Called name])
      | (Raises true e, w) =>
          (Some (SystemExit 1), w,
           log ++ [Called name; Printed (error_line name e)])
      | (Raises false e, w) => (Some (Uncaught e), w, log ++ [Called name])
      end
  end.

(** [main()], for any list of examples. *)
Definition main (examples : list (string * (W → outcome * W))) (w : W)
    : exit * W * list event :=
  match for_examples examples w header with
  | (None, w, log) => (Return, w, log ++ footer)
  | (Some x, w, log) => (x, w, log)
  end.

End main.
Global Arguments outcome : clear implicits.
End Main.

(** * Invariants, measures and schedules *)

(** ** The locked counter *)

Section sync_model.
Import Sync.

(** 1 for a thread inside the [with] block, 0 otherwise. *)
Definition cs_weight (p : pc) : nat := if in_critical_section p then 1 else 0.

(** Steps a thread has still to take. *)
Definition steps_left (p : pc) : nat :=
  match p with
  | Loop k => 4 * k + 1
  | Locked k => 4 * k + 4
  | Sleeping _ k => 4 * k + 3
  | Written k => 4 * k + 2
  | Finished => 0
  end.

(** The invariant of the runs of [n] threads of [m] iterations: the
    value and the increments still to write add up to [n * m]; the lock
    is held exactly when one thread is inside the [with] block, and no
    two are; a thread that has read the value and not yet written holds
    the current value. *)
Record sync_inv (n m : nat) (s : state) : Prop := {
  inv_total :
    (value (counter s) + Z.of_nat (sum_list_with todo (threads s))
     = Z.of_nat n * Z.of_nat m)%Z;
  inv_lock :
    sum_list_with cs_weight (threads s) = if lock (counter s) then 1 else 0;
  inv_current : ∀ t current k,
    threads s !! t = Some (Sleeping current k) → current = value (counter s);
}.

(** The threads one after the other, each to its end. *)
Definition sequential_schedule (n m : nat) : list nat :=
  t ← seq 0 n; replicate (4 * m + 1) t.

End sync_model.

(** ** Producers, consumers and the main thread *)

Section prodcons_model.
Import ProdCons.

(** No character of the string is the separator. *)
Fixpoint dashless (s : string) : Prop :=
  match s with
  | EmptyString => True
  | String c s' => c ≠ "-"%char ∧ dashless s'
  end.

(** 1 for a consumer that holds an item it has not yet marked done. *)
Definition working (c : cpc) : nat :=
  match c with C_work _ => 1 | _ => 0 end.

(** Number of items a producer has put. *)
Definition produced (num_items : nat) (p : ppc) : nat :=
  match p with P_new => 0 | P_for i => i | P_finished => num_items end.

(** How far the main thread is.  Producers started so far. *)
Definition started_producers (cfg : config) (m : mpc) : nat :=
  match m with M_start_producers i => i | _ => num_producers cfg end.

(** Consumers started so far. *)
Definition started_consumers (cfg : config) (m : mpc) : nat :=
  match m with
  | M_start_producers _ => 0
  | M_start_consumers i => i
  | _ => num_consumers cfg
  end.

(** Producers joined so far. *)
Definition joined_producers (cfg : config) (m : mpc) : nat :=
  match m with
  | M_start_producers _ | M_start_consumers _ => 0
  | M_join_producers i => i
  | _ => num_producers cfg
  end.

(** Consumers joined so far. *)
Definition joined_consumers (cfg : config) (m : mpc) : nat :=
  match m with
  | M_join_consumers i => i
  | M_finished => num_consumers cfg
  | _ => 0
  end.

(** [work_queue.join()] has returned. *)
Definition join_returned (m : mpc) : bool :=
  match m with
  | M_stop_set | M_join_consumers _ | M_finished => true
  | _ => false
  end.

(** [stop_event.set()] has been called. *)
Definition stop_called (m : mpc) : bool :=
  match m with
  | M_join_consumers _ | M_finished => true
  | _ => false
  end.

(** The invariant of the runs of the program.  The lists of threads have
    their lengths, and a producer is within its range.  The items
    returned followed by the items held are the items put; the
    unfinished tasks are the items held and those the consumers are
    working on; the capacity is respected.  The items put are distinct,
    each the item of a producer at an index it has passed, and as many
    as the producers have put.  The threads not yet started are new,
    those joined have finished.  Once [work_queue.join()] has returned
    no task is unfinished; the event is set exactly when the main thread
    has set it; and a consumer is past the test of the event only if the
    event is set. *)
Record pc_inv (cfg : config) (s : state) : Prop := {
  inv_producers_length : length (producers s) = num_producers cfg;
  inv_consumers_length : length (consumers s) = num_consumers cfg;
  inv_for_bound : ∀ j i,
    producers s !! j = Some (P_for i) → i ≤ num_items_per_producer cfg;
  inv_fifo :
    get_log (sh s) ++ Queue.items (work_queue (sh s)) = put_log (sh s);
  inv_unfinished :
    Queue.unfinished_tasks (work_queue (sh s))
    = length (Queue.items (work_queue (sh s)))
      + sum_list_with working (consumers s);
  inv_maxsize : Queue.maxsize (work_queue (sh s)) = maxsize cfg;
  inv_capacity :
    maxsize cfg = 0
    ∨ length (Queue.items (work_queue (sh s))) ≤ maxsize cfg;
  inv_put_length :
    length (put_log (sh s))
    = sum_list_with (produced (num_items_per_producer cfg)) (producers s);
  inv_put_from : ∀ x, x ∈ put_log (sh s) →
    ∃ j i p, x = item j i ∧ producers s !! j = Some p
             ∧ i < produced (num_items_per_producer cfg) p;
  inv_put_nodup : NoDup (put_log (sh s));
  inv_new_producers : ∀ j,
    started_producers cfg (main s) ≤ j < num_producers cfg →
    producers s !! j = Some P_new;
  inv_new_consumers : ∀ j,
    started_consumers cfg (main s) ≤ j < num_consumers cfg →
    consumers s !! j = Some C_new;
  inv_joined_producers : ∀ j,
    j < joined_producers cfg (main s) → producers s !! j = Some P_finished;
  inv_joined_consumers : ∀ j,
    j < joined_consumers cfg (main s) → consumers s !! j = Some C_finished;
  inv_drained :
    join_returned (main s) = true →
    Queue.unfinished_tasks (work_queue (sh s)) = 0;
  inv_stop : stop_event (sh s) = stop_called (main s);
  inv_exit : ∀ j c,
    consumers s !! j = Some c → c = C_empty ∨ c = C_finished →
    stop_event (sh s) = true;
}.

(** Threads the main thread has started are running or have finished. *)
Definition started_inv (cfg : config) (s : state) : Prop :=
  (∀ j p, j < started_producers cfg (main s) →
          producers s !! j = Some p → p ≠ P_new)
  ∧ (∀ j c, j < started_consumers cfg (main s) →
            consumers s !! j = Some c → c ≠ C_new).

(** Steps the main thread has still to take. *)
Definition main_left (cfg : config) (m : mpc) : nat :=
  match m with
  | M_start_producers i =>
      (num_producers cfg - i) + num_consumers cfg + num_producers cfg
      + num_consumers cfg + 6
  | M_start_consumers i =>
      (num_consumers cfg - i) + num_producers cfg + num_consumers cfg + 5
  | M_join_producers i => (num_producers cfg - i) + num_consumers cfg + 4
  | M_queue_join => num_consumers cfg + 3
  | M_stop_set => num_consumers cfg + 2
  | M_join_consumers i => (num_consumers cfg - i) + 1
  | M_finished => 0
  end.

(** Steps a producer has still to take. *)
Definition producer_left (num_items : nat) (p : ppc) : nat :=
  match p with
  | P_new => num_items + 2
  | P_for k => num_items - k + 1
  | P_finished => 0
  end.

(** Steps a consumer takes before it does something useful: before the
    event is set, before it marks an item done; afterwards, before it
    leaves the loop. *)
Definition consumer_left (stop : bool) (c : cpc) : nat :=
  if stop then
    match c with
    | C_new => 4 | C_get => 3 | C_while => 2 | C_work _ => 2
    | C_empty => 1 | C_finished => 0
    end
  else
    match c with
    | C_new => 4 | C_while => 3 | C_get => 2 | C_work _ => 1
    | C_empty => 0 | C_finished => 0
    end.

(** A bound on the useful steps that remain; setting the event costs the
    consumers at most one step each, marking an item done puts a
    consumer back at the loop condition. *)
Definition potential (cfg : config) (s : state) : nat :=
  S (num_consumers cfg) * main_left cfg (main s)
  + 4 * sum_list_with (producer_left (num_items_per_producer cfg))
          (producers s)
  + 3 * Queue.unfinished_tasks (work_queue (sh s))
  + sum_list_with (consumer_left (stop_event (sh s))) (consumers s).

(** The consumer's next step is useful. *)
Definition productive (sh0 : shared) (c : cpc) : Prop :=
  match c with
  | C_new | C_finished => False
  | C_while | C_work _ => True
  | C_empty => stop_event sh0 = true ∧ Queue.items (work_queue sh0) = []
  | C_get => stop_event sh0 = true ∨ Queue.items (work_queue sh0) ≠ []
  end.

(** A complete run of the program with the constants of the source. *)
Definition example_schedule : list tid :=
  replicate 9 Main
  ++ mjoin (replicate 5
       [Producer 0; Producer 1;
        Consumer 0; Consumer 0; Consumer 0;
        Consumer 1; Consumer 1; Consumer 1; Consumer 2; Consumer 2])
  ++ [Producer 0; Producer 1] ++ replicate 5 Main
  ++ mjoin (replicate 3 [Consumer 0; Consumer 1; Consumer 2])
  ++ replicate 4 Main.

(** The run of [example_schedule] up to the point where the event is set
    and consumer 0 has seen it. *)
Definition example_schedule_stop : list tid :=
  replicate 9 Main
  ++ mjoin (replicate 5
       [Producer 0; Producer 1;
        Consumer 0; Consumer 0; Consumer 0;
        Consumer 1; Consumer 1; Consumer 1; Consumer 2; Consumer 2])
  ++ [Producer 0; Producer 1] ++ replicate 5 Main ++ [Consumer 0].

(** One producer of three items and one consumer on an unbounded queue,
    each item consumed as soon as it is put. *)
Definition single_config : config :=
  {| maxsize := 0; num_producers := 1; num_items_per_producer := 3;
     num_consumers := 1 |}.

(** A complete run of [single_config]. *)
Definition single_schedule : list tid :=
  replicate 5 Main
  ++ mjoin (replicate 3 [Producer 0; Consumer 0; Consumer 0; Consumer 0])
  ++ [Producer 0] ++ replicate 4 Main
  ++ [Consumer 0; Consumer 0; Consumer 0] ++ replicate 2 Main.

End prodcons_model.

(** ** The consumer among arbitrary threads *)

Section consumer_loop_model.
Import ProdCons.

(** What the other threads may do to the shared state between two
    actions of a consumer: anything, except clear the event, which no
    code of the program does. *)
Definition environment (sh sh' : shared) : Prop :=
  stop_event sh = true → stop_event sh' = true.

(** An execution of the consumer loop: the consumer takes an action, or
    the other threads change the shared state. *)
Inductive consumer_loop : shared * cpc → shared * cpc → Prop :=
  | consumer_acts sh c sh' c' :
      consumer sh c = Some (sh', c') → consumer_loop (sh, c) (sh', c')
  | environment_acts sh sh' c :
      environment sh sh' → consumer_loop (sh, c) (sh', c).

(** The shared state in which the consumer of [test_consumer] starts:
    five items in the queue and the event set. *)
Definition queued_stop : shared :=
  {| work_queue := {| Queue.items := item 0 <$> seq 0 5; Queue.maxsize := 0;
                      Queue.unfinished_tasks := 5 |};
     stop_event := true; put_log := item 0 <$> seq 0 5; get_log := [] |}.

End consumer_loop_model.

(** ** The executor *)

Section executor_model.
Import Executor.
Context {W A R : Type} (fn : A → W → R * W).
Implicit Types e : Executor.t W A R.

(** 1 for a worker that runs a call. *)
Definition running (p : wpc) : nat :=
  match p with Running _ => 1 | Idle => 0 end.

(** Steps the workers have still to take for the calls submitted. *)
Definition workers_measure e : nat :=
  2 * length (work_queue e) + sum_list_with running (workers e).

(** Every handle is waiting, running or done, its argument is recorded,
    and a result stored is a result of the task body on that argument. *)
Record exec_inv (max_workers : nat) e : Prop := {
  einv_args : length (args e) = length (futures e);
  einv_workers : length (workers e) = max_workers;
  einv_running : ∀ w h,
    workers e !! w = Some (Running h) → h < length (futures e);
  einv_queue : ∀ h, h ∈ work_queue e → h < length (futures e);
  einv_account : ∀ h,
    h < length (futures e) →
    h ∈ work_queue e ∨ (∃ w, workers e !! w = Some (Running h))
    ∨ is_Some (result h e);
  einv_result : ∀ h r,
    result h e = Some r → ∃ a w, args e !! h = Some a ∧ r = (fn a w).1;
}.

End executor_model.

(** ** [map_example] *)

Section map_model.
Import Executor ThreadPool.
Context {duration A R : Type}.
Context (fn : A → world duration → R * world duration) (f : A → R).
Context (numbers : list A) (max_workers : nat).
Implicit Types s : xstate duration A R.

(** Steps the main thread has still to take, counting three for a
    submission: the submission, and the two steps of the worker. *)
Definition map_main_measure (m : xpc) : nat :=
  match m with
  | X_submit i => 3 * (length numbers - i) + length numbers + 3
  | X_result i => length numbers - i + 2
  | X_exit => 1
  | X_finished => 0
  end.

(** Steps the program has still to take. *)
Definition map_measure s : nat :=
  map_main_measure (xmain s) + workers_measure (xexecutor s).

(** The invariant of the runs of [list(executor.map(fn, numbers))]: the
    handles are the indices of the elements submitted so far, and the
    results collected are [f] of the first elements of [numbers]. *)
Record map_inv s : Prop := {
  minv_exec : exec_inv fn max_workers (xexecutor s);
  minv_fs : fs s = seq 0 (length (futures (xexecutor s)));
  minv_args : args (xexecutor s) = take (length (fs s)) numbers;
  minv_length : length (fs s) ≤ length numbers;
  minv_main :
    match xmain s with
    | X_submit i => i = length (fs s) ∧ xresults s = []
    | X_result i =>
        length (fs s) = length numbers ∧ i ≤ length numbers
        ∧ xresults s = f <$> take i numbers
    | X_exit | X_finished =>
        length (fs s) = length numbers ∧ xresults s = f <$> numbers
    end;
}.

End map_model.

(** ** [run_thread_pool_example] *)

Section drain_model.
Import Executor ThreadPool.
Context {duration : Type}.
Context (num_tasks max_workers : nat).
Implicit Types s : dstate duration.

(** What the loop over [as_completed] appends for handle [h]. *)
Definition task_entry (h : nat) : Z * Z :=
  (Z.of_nat h, (Z.of_nat h * Z.of_nat h)%Z).

(** Steps the main thread has still to take, a submission counting
    three. *)
Definition drain_main_measure (m : dpc) (yielded : list nat) : nat :=
  match m with
  | D_submit i => 3 * (num_tasks - i) + num_tasks + 3
  | D_as_completed => num_tasks - length yielded + 2
  | D_exit => 1
  | D_finished => 0
  end.

(** A bound on the steps the program has still to take. *)
Definition drain_measure s : nat :=
  drain_main_measure (dmain s) (yielded s) + workers_measure (dexecutor s).

(** The invariant of the runs of [run_thread_pool_example]: the handles
    are the indices of the tasks submitted so far, task [i] having
    argument [i]; no handle has been yielded twice, and the results are
    the entries of the handles yielded. *)
Record drain_inv s : Prop := {
  dinv_exec : exec_inv (@task duration) max_workers (dexecutor s);
  dinv_futures : dfutures s = seq 0 (length (futures (dexecutor s)));
  dinv_args :
    args (dexecutor s) = Z.of_nat <$> seq 0 (length (dfutures s));
  dinv_length : length (dfutures s) ≤ num_tasks;
  dinv_nodup : NoDup (yielded s);
  dinv_yielded : yielded s ⊆ dfutures s;
  dinv_results : results s = task_entry <$> yielded s;
  dinv_main :
    match dmain s with
    | D_submit i => i = length (dfutures s) ∧ yielded s = []
    | D_as_completed => length (dfutures s) = num_tasks
    | D_exit | D_finished =>
        length (dfutures s) = num_tasks ∧ dfutures s ⊆ yielded s
    end;
}.

End drain_model.

Section pool_schedules.
Import ThreadPool.

(** A generator whose draws are 500, 637, 774, ... milliseconds, below
    2000. *)
Definition example_world : world Z :=
  {| uniform := λ n, (500 + (137 * Z.of_nat n) `mod` 1500)%Z;
     draws := 0; stdout := [] |}.

(** [map_example] with its constants: the workers take the calls four at
    a time and complete them in the reverse order. *)
Definition map_example_schedule : list tid :=
  replicate 11 (Main 0)
  ++ mjoin (replicate 3
       [Worker 0; Worker 1; Worker 2; Worker 3;
        Worker 3; Worker 2; Worker 1; Worker 0])
  ++ replicate 12 (Main 0).

(** [run_thread_pool_example] with its constants: the workers take the
    calls three at a time and complete them in the reverse order; the
    main thread retrieves each result as soon as it is there. *)
Definition drain_example_schedule : list tid :=
  replicate 11 (Main 0)
  ++ mjoin ((λ i, [Worker 0; Worker 1; Worker 2;
                   Worker 2; Main (3 * i + 2);
                   Worker 1; Main (3 * i + 1);
                   Worker 0; Main (3 * i)]) <$> seq 0 4)
  ++ replicate 2 (Main 0).

End pool_schedules.

(** ** [UnsafeCounter] *)

Section unsafe_model.
Import Sync.

(** A step of the threads on the [UnsafeCounter]. *)
Definition unsafe_step (s s' : ustate) : Prop :=
  ∃ t, unsafe_step_thread t s = Some s'.

Definition unsafe_all_finished (s : ustate) : Prop :=
  Forall (λ p, p = Finished) (uthreads s).

(** Steps a thread has still to take against [UnsafeCounter]. *)
Definition unsafe_steps_left (p : pc) : nat :=
  match p with
  | Loop k => 2 * k + 1
  | Sleeping _ k => 2 * k + 2
  | Locked _ | Written _ | Finished => 0
  end.

(** No thread is at a lock action. *)
Definition lock_free (p : pc) : Prop :=
  match p with Locked _ | Written _ => False | _ => True end.

(** The invariant of the runs of [n] threads of [m] iterations on the
    [UnsafeCounter]: the value, and every value read and not yet written
    back, is at least 0 and at most the number of writes made; once a
    write has been made the value is at least 1. *)
Record unsafe_inv (n m : nat) (s : ustate) : Prop := {
  uinv_lock_free : Forall lock_free (uthreads s);
  uinv_low : (0 ≤ uvalue (ucounter s))%Z;
  uinv_high :
    (uvalue (ucounter s) + Z.of_nat (sum_list_with todo (uthreads s))
     ≤ Z.of_nat n * Z.of_nat m)%Z;
  uinv_written :
    (1 ≤ uvalue (ucounter s))%Z
    ∨ sum_list_with todo (uthreads s) = n * m;
  uinv_current : ∀ t current k,
    uthreads s !! t = Some (Sleeping current k) →
    (0 ≤ current)%Z
    ∧ (current + Z.of_nat (sum_list_with todo (uthreads s))
       ≤ Z.of_nat n * Z.of_nat m)%Z;
}.

(** All threads read, then all threads write, once for each iteration. *)
Definition lockstep_schedule (n m : nat) : list nat :=
  mjoin (replicate m (seq 0 n ++ seq 0 n)) ++ seq 0 n.

End unsafe_model.

(** ** [run_synchronization_example] *)

Section sync_example_model.
Import Sync SyncExample.

Definition unsafe_part (s : SyncExample.state) : ustate :=
  {| ucounter := unsafe_counter s; uthreads := unsafe_threads s |}.

Definition safe_part (s : SyncExample.state) : Sync.state :=
  {| counter := safe_counter s; threads := safe_threads s |}.

(** Threads the main thread has joined. *)
Definition unsafe_joined (num_threads : nat) (m : mpc) : nat :=
  match m with
  | E_title | E_unsafe_title | E_unsafe_start _ => 0
  | E_unsafe_join i => i
  | _ => num_threads
  end.

Definition safe_joined (num_threads : nat) (m : mpc) : nat :=
  match m with
  | E_safe_join i => i
  | E_safe_print | E_blank | E_finished => num_threads
  | _ => 0
  end.

(** What has been printed when the main thread is at [m], the unsafe
    counter having given [got]. *)
Definition printed (expected got : Z) (m : mpc) : list event :=
  match m with
  | E_title => []
  | E_unsafe_title => [Title]
  | E_unsafe_start _ | E_unsafe_join _ | E_unsafe_print =>
      [Title; UnsafeTitle]
  | E_safe_title => [Title; UnsafeTitle; ExpectedGot expected got]
  | E_safe_start _ | E_safe_join _ | E_safe_print =>
      [Title; UnsafeTitle; ExpectedGot expected got; SafeTitle]
  | E_blank =>
      [Title; UnsafeTitle; ExpectedGot expected got; SafeTitle;
       ExpectedGot expected expected]
  | E_finished =>
      [Title; UnsafeTitle; ExpectedGot expected got; SafeTitle;
       ExpectedGot expected expected; Blank]
  end.

(** The unsafe result has been printed. *)
Definition unsafe_printed (m : mpc) : bool :=
  match m with
  | E_title | E_unsafe_title | E_unsafe_start _ | E_unsafe_join _
  | E_unsafe_print => false
  | _ => true
  end.

(** Steps the main thread has still to take. *)
Definition example_main_left (num_threads : nat) (m : mpc) : nat :=
  match m with
  | E_title => 4 * num_threads + 10
  | E_unsafe_title => 4 * num_threads + 9
  | E_unsafe_start i => (num_threads - i) + 3 * num_threads + 8
  | E_unsafe_join i => (num_threads - i) + 2 * num_threads + 7
  | E_unsafe_print => 2 * num_threads + 6
  | E_safe_title => 2 * num_threads + 5
  | E_safe_start i => (num_threads - i) + num_threads + 4
  | E_safe_join i => (num_threads - i) + 3
  | E_safe_print => 2
  | E_blank => 1
  | E_finished => 0
  end.

Definition example_measure (num_threads : nat) (s : SyncExample.state) : nat :=
  example_main_left num_threads (main s)
  + sum_list_with unsafe_steps_left (unsafe_threads s)
  + sum_list_with steps_left (safe_threads s).

Record example_inv (n m : nat) (s : SyncExample.state) : Prop := {
  xinv_unsafe : unsafe_inv n m (unsafe_part s);
  xinv_safe : sync_inv n m (safe_part s);
  xinv_unsafe_length : length (unsafe_threads s) = n;
  xinv_safe_length : length (safe_threads s) = n;
  xinv_unsafe_joined : ∀ j,
    j < unsafe_joined n (main s) → unsafe_threads s !! j = Some Finished;
  xinv_safe_joined : ∀ j,
    j < safe_joined n (main s) → safe_threads s !! j = Some Finished;
  xinv_printed :
    stdout s
    = printed (Z.of_nat n * Z.of_nat m)
        (unsafe_get_value (unsafe_counter s)) (main s);
}.

(** The schedule of the example in which the threads of each counter run
    as [sched_unsafe] and [sched_safe] say, all of them started before
    the first runs. *)
Definition example_run_schedule (n : nat) (sched_unsafe sched_safe : list nat)
    : list tid :=
  replicate (n + 3) Main ++ (UnsafeThread <$> sched_unsafe)
  ++ replicate (2 * n + 5) Main ++ (SafeThread <$> sched_safe)
  ++ replicate (n + 3) Main.

End sync_example_model.

(** ** The value of the counters over time *)

Section monotone_model.
Import Sync.

(** One thread reads; another makes two increments; the first writes. *)
Definition stale_write_schedule : list nat := [0; 1; 1; 1; 1].

End monotone_model.

(** ** Producers and the capacity *)

Section capacity_model.
Import ProdCons.

(** One producer of five items, a queue of capacity 2, no consumer. *)
Definition small_queue_config : config :=
  {| maxsize := 2; num_producers := 1; num_items_per_producer := 5;
     num_consumers := 0 |}.

(** The producer is started and puts until the queue is full. *)
Definition small_queue_schedule : list tid :=
  [Main; Main; Producer 0; Producer 0].

End capacity_model.

(** ** Capacity, order and the program without consumers *)

Section prodcons_more_model.
Import ProdCons.

(** The item is one of producer [j]. *)
Definition from_producer (cfg : config) (j : nat) (x : string) : Prop :=
  x ∈ item j <$> seq 0 (num_items_per_producer cfg).

#[global] Instance from_producer_dec cfg j x : Decision (from_producer cfg j x).
Proof. unfold from_producer. apply _. Defined.

(** No thread of the program can take a step. *)
Definition stuck (cfg : config) (s : state) : Prop :=
  ∀ t, step_thread cfg t s = None.

(** The program without consumers. *)
Definition no_consumer_config : config :=
  {| maxsize := 10; num_producers := 2; num_items_per_producer := 5;
     num_consumers := 0 |}.

(** The main thread starts the producers; they run to their ends; the
    main thread joins them and reaches [work_queue.join()]. *)
Definition no_consumer_schedule : list tid :=
  replicate 4 Main
  ++ mjoin (replicate 6 [Producer 0; Producer 1]) ++ replicate 3 Main.

End prodcons_more_model.

(** ** Calls in a single thread *)

Section calls_model.
Import ProdCons Calls.

(** Room for [n] more items. *)
Definition has_room (q : Queue.t string) (n : nat) : Prop :=
  Queue.maxsize q = 0 ∨ Queue.qsize q + n ≤ Queue.maxsize q.

End calls_model.

(** ** Every call runs once *)

Section executor_once_model.
Import Executor.
Context {W A R : Type}.
Implicit Types e : Executor.t W A R.

(** 1 for the handle [h] waiting in the queue. *)
Definition waits (h x : nat) : nat := if decide (x = h) then 1 else 0.

(** 1 for a worker that runs the call behind [h]. *)
Definition runs (h : nat) (p : wpc) : nat :=
  match p with
  | Running h' => if decide (h' = h) then 1 else 0
  | Idle => 0
  end.

(** 1 for a result slot that is filled. *)
Definition completed (o : option R) : nat :=
  match o with Some _ => 1 | None => 0 end.

(** The places where the handle [h] is: in the queue, at a worker, or
    done. *)
Definition places (h : nat) e : nat :=
  sum_list_with (waits h) (work_queue e)
  + sum_list_with (runs h) (workers e)
  + from_option completed 0 (futures e !! h).

(** Every handle is in exactly one place. *)
Definition exec_once e : Prop :=
  ∀ h, h < length (futures e) → places h e = 1.

End executor_once_model.

(** ** Submitting calls and taking their results in order *)

Section submit_model.
Import Executor ThreadPool.
Context {duration A R : Type}.
Context (fn : A → world duration → R * world duration) (Q : A → R → Prop).
Context (numbers : list A) (max_workers : nat).
Implicit Types s : xstate duration A R.

(** The invariant of [map_inv] for a task body whose result may depend
    on the world: the results taken so far are related by [Q] to the
    first elements of [numbers]; the calls behind them are done, and no
    call is run twice. *)
Record submit_inv s : Prop := {
  sinv_exec : exec_inv fn max_workers (xexecutor s);
  sinv_once : exec_once (xexecutor s);
  sinv_fs : fs s = seq 0 (length (futures (xexecutor s)));
  sinv_args : args (xexecutor s) = take (length (fs s)) numbers;
  sinv_length : length (fs s) ≤ length numbers;
  sinv_results :
    Forall2 Q (take (length (xresults s)) numbers) (xresults s);
  sinv_done : ∀ h,
    h < length (xresults s) → is_Some (result h (xexecutor s));
  sinv_main :
    match xmain s with
    | X_submit i => i = length (fs s) ∧ xresults s = []
    | X_result i =>
        length (fs s) = length numbers ∧ i = length (xresults s)
        ∧ i ≤ length numbers
    | X_exit | X_finished =>
        length (fs s) = length numbers
        ∧ length (xresults s) = length numbers
    end;
}.

End submit_model.

(** ** The body of [task], action by action *)

Section steps_model.
Import Executor ThreadPool PoolOutput PoolSteps.
Context {duration : Type}.
Implicit Types e : Executor.t (world duration) Z (Z * Z * duration).
Implicit Types b : list (kpc duration).
Implicit Types out : list (event duration).

(** Actions a worker has still to take for the call it runs. *)
Definition body_left (p : wpc) (k : kpc duration) : nat :=
  match p, k with
  | Idle, _ => 0
  | Running _, K_draw => 4
  | Running _, K_starting _ => 3
  | Running _, K_sleep _ => 2
  | Running _, K_return _ => 1
  end.

(** Actions the workers have still to take for the calls submitted. *)
Definition steps_measure e b : nat :=
  5 * length (work_queue e) + sum_list (zip_with body_left (workers e) b).

(** 1 for a worker in a call that has made its draw. *)
Definition drawn (p : wpc) (k : kpc duration) : nat :=
  match p, k with
  | Running _, (K_starting _ | K_sleep _ | K_return _) => 1
  | _, _ => 0
  end.

(** The call has printed its first line, its second line. *)
Definition said_starting (k : kpc duration) : bool :=
  match k with K_sleep _ | K_return _ => true | _ => false end.

Definition said_completed (k : kpc duration) : bool :=
  match k with K_return _ => true | _ => false end.

(** A worker runs the call behind [h] and is at a position where [P]
    holds. *)
Definition at_worker (ws : list wpc) b (h : nat) (P : kpc duration → bool)
    : Prop :=
  ∃ w k, ws !! w = Some (Running h) ∧ b !! w = Some k ∧ P k = true.

(** The argument of the call behind a handle is the number of the
    handle. *)
Definition args_are_handles e : Prop :=
  ∀ h a, args e !! h = Some a → a = Z.of_nat h.

(** The invariant of the runs of [task] by the workers, [out] being the
    lines printed since the start: every handle is in one place; as
    many draws have been made as calls have passed the draw; the first
    line of a call has been printed exactly if the call has passed it
    or is done, likewise the second; no line is printed twice, and the
    second line of a call comes after its first. *)
Record task_inv (w0 : world duration) e b out : Prop := {
  tinv_once : exec_once e;
  tinv_bodies : length b = length (workers e);
  tinv_count :
    length (work_queue e) + sum_list_with running (workers e)
    + sum_list_with completed (futures e) = length (futures e);
  tinv_uniform : uniform (Executor.world e) = uniform w0;
  tinv_draws :
    draws (Executor.world e)
    = draws w0 + sum_list (zip_with drawn (workers e) b)
      + sum_list_with completed (futures e);
  tinv_stdout : stdout (Executor.world e) = stdout w0 ++ out;
  tinv_starting : ∀ h,
    h < length (futures e) →
    Z.of_nat h ∈ omap starting_id out
    ↔ at_worker (workers e) b h said_starting ∨ is_Some (result h e);
  tinv_completed : ∀ h,
    h < length (futures e) →
    Z.of_nat h ∈ omap completed_id out
    ↔ at_worker (workers e) b h said_completed ∨ is_Some (result h e);
  tinv_starting_nodup : NoDup (omap starting_id out);
  tinv_completed_nodup : NoDup (omap completed_id out);
  tinv_handles : ∀ z,
    z ∈ omap starting_id out ∨ z ∈ omap completed_id out →
    ∃ h, h < length (futures e) ∧ z = Z.of_nat h;
  tinv_started : ∀ j z,
    out !! j = Some (Completed z) →
    ∃ i d, i < j ∧ out !! i = Some (Starting z d);
}.

End steps_model.

(** ** [run_thread_pool_example], action by action *)

Section pool_steps_model.
Import Executor ThreadPool PoolOutput PoolSteps.
Context {duration : Type}.
Context (num_tasks max_workers : nat).
Implicit Types s : pstate duration.

(** Steps the main thread has still to take, a submission counting
    six: the submission, and the five actions of the worker. *)
Definition pool_main_left (m : dpc) (yielded : list nat) : nat :=
  match m with
  | D_submit i => 6 * (num_tasks - i) + num_tasks + 3
  | D_as_completed => num_tasks - length yielded + 2
  | D_exit => 1
  | D_finished => 0
  end.

(** A bound on the steps the program has still to take. *)
Definition pool_measure s : nat :=
  pool_main_left (dmain (pool s)) (yielded (pool s))
  + steps_measure (dexecutor (pool s)) (bodies s).

(** The invariant of the runs of [run_thread_pool_example]: that of
    [drain_inv] and that of the task bodies; the calls behind the
    handles yielded are done; the [Retrieved result] lines are the
    results, and each comes after the second line of its task. *)
Record pool_inv (w0 : world duration) s (out : list (event duration))
    : Prop := {
  pinv_drain : drain_inv num_tasks max_workers (pool s);
  pinv_task : task_inv w0 (dexecutor (pool s)) (bodies s) out;
  pinv_yielded : ∀ h,
    h ∈ yielded (pool s) → is_Some (result h (dexecutor (pool s)));
  pinv_retrieved : omap retrieved_entry out = results (pool s);
  pinv_before : ∀ i z r,
    out !! i = Some (Retrieved z r) →
    ∃ j, j < i ∧ out !! j = Some (Completed z);
}.

End pool_steps_model.

(** ** [test_concurrent_tasks], action by action *)

Section test_steps_model.
Import Executor ThreadPool PoolOutput PoolSteps.
Context {duration : Type}.
Context (n max_workers : nat).
Implicit Types s : tstate duration.

(** What [task] returns for the argument [a], but for the duration. *)
Definition task_related (a : Z) (r : Z * Z * duration) : Prop :=
  r.1 = (a, (a * a)%Z).

(** Steps the main thread has still to take, a submission counting
    six: the submission, and the five actions of the worker. *)
Definition test_main_left (m : xpc) : nat :=
  match m with
  | X_submit i => 6 * (n - i) + n + 3
  | X_result i => n - i + 2
  | X_exit => 1
  | X_finished => 0
  end.

(** A bound on the steps the test has still to take. *)
Definition test_measure s : nat :=
  test_main_left (xmain (test s))
  + steps_measure (xexecutor (test s)) (tbodies s).

(** The invariant of the runs of [test_concurrent_tasks]: that of
    [submit_inv] and that of the task bodies; the test prints no
    [Retrieved result] line. *)
Record test_inv (w0 : world duration) s (out : list (event duration))
    : Prop := {
  xinv_submit :
    submit_inv task task_related (task_numbers n) max_workers (test s);
  xinv_task : task_inv w0 (xexecutor (test s)) (tbodies s) out;
  xinv_lines : omap retrieved_entry out = [];
}.

End test_steps_model.

Section steps_schedules.
Import ThreadPool.

(** [run_thread_pool_example] with its constants: the workers take the
    calls three at a time; the three calls draw and print their first
    lines, and complete in the reverse order, each retrieved as soon as
    it is done. *)
Definition pool_overlap_schedule : list tid :=
  replicate 11 (Main 0)
  ++ mjoin ((λ i, [Worker 0; Worker 1; Worker 2;
                   Worker 0; Worker 1; Worker 2;
                   Worker 0; Worker 1; Worker 2;
                   Worker 2; Worker 1; Worker 0;
                   Worker 2; Main (3 * i + 2);
                   Worker 1; Main (3 * i + 1);
                   Worker 0; Main (3 * i)]) <$> seq 0 4)
  ++ replicate 2 (Main 0).

(** [test_concurrent_tasks] with its constants: the three calls start
    before any completes, and complete in the reverse order. *)
Definition test_overlap_schedule : list tid :=
  replicate 4 (Main 0)
  ++ [Worker 0; Worker 1; Worker 2;
      Worker 0; Worker 1; Worker 2;
      Worker 0; Worker 1; Worker 2;
      Worker 2; Worker 1; Worker 0;
      Worker 2; Worker 1; Worker 0]
  ++ replicate 5 (Main 0).

End steps_schedules.

(** ** [run_basic_example] *)

Section basic_model.
Import Basic.
Context {float : Type} (times_half : nat → float).
Implicit Types s : state float.

(** The worker that prints the line. *)
Definition worker_of (e : event float) : option nat :=
  match e with
  | WorkerStarting i | WorkerFinished i _ => Some i
  | Title | AllCompleted => None
  end.

(** The lines worker [i] has printed when at [p]. *)
Definition worker_lines (i : nat) (p : wpc) : list (event float) :=
  match p with
  | W_start => []
  | W_sleep => [WorkerStarting i]
  | W_finished => [WorkerStarting i; WorkerFinished i (times_half i)]
  end.

(** What the main thread has printed before and after the lines of the
    workers. *)
Definition basic_header (m : mpc) : list (event float) :=
  match m with B_title => [] | _ => [Title] end.

Definition basic_footer (m : mpc) : list (event float) :=
  match m with B_finished => [AllCompleted] | _ => [] end.

(** Threads the main thread has joined. *)
Definition basic_joined (num_threads : nat) (m : mpc) : nat :=
  match m with
  | B_title | B_start _ => 0
  | B_join i => i
  | B_completed | B_finished => num_threads
  end.

(** Steps a worker and the main thread have still to take. *)
Definition worker_left (p : wpc) : nat :=
  match p with W_start => 2 | W_sleep => 1 | W_finished => 0 end.

Definition basic_main_left (num_threads : nat) (m : mpc) : nat :=
  match m with
  | B_title => 2 * num_threads + 4
  | B_start i => (num_threads - i) + num_threads + 3
  | B_join i => (num_threads - i) + 2
  | B_completed => 1
  | B_finished => 0
  end.

Definition basic_measure (num_threads : nat) s : nat :=
  basic_main_left num_threads (main s)
  + sum_list_with worker_left (threads s).

(** The invariant of the runs of [run_basic_example], [mid] being the
    lines of the workers. *)
Record basic_inv (num_threads : nat) s (mid : list (event float))
    : Prop := {
  binv_length : length (threads s) = num_threads;
  binv_stdout :
    stdout s = basic_header (main s) ++ mid ++ basic_footer (main s);
  binv_workers : ∀ e, e ∈ mid → ∃ i, i < num_threads ∧ worker_of e = Some i;
  binv_lines : ∀ i p,
    threads s !! i = Some p →
    filter (λ e, worker_of e = Some i) mid = worker_lines i p;
  binv_new : ∀ i p,
    threads s !! i = Some p → started num_threads (main s) ≤ i → p = W_start;
  binv_joined : ∀ i,
    i < basic_joined num_threads (main s) → threads s !! i = Some W_finished;
  binv_count :
    length mid + sum_list_with worker_left (threads s) = 2 * num_threads;
}.

(** All workers print their first line, then, the last worker first,
    their second. *)
Definition basic_schedule_reverse (num_threads : nat) : list tid :=
  replicate (num_threads + 2) Main
  ++ (Thread <$> seq 0 num_threads)
  ++ (Thread <$> reverse (seq 0 num_threads))
  ++ replicate (num_threads + 2) Main.

End basic_model.

(** [i * 0.5] in tenths of a second. *)
Definition tenths (i : nat) : Z := (Z.of_nat i * 5)%Z.

(** ** [main] *)

Section main_model.
Import Main.
Context {W : Type}.

(** The world after the calls of the examples, one after the other. *)
Definition after_calls (examples : list (string * (W → outcome * W))) (w : W)
    : W :=
  foldl (λ w example, (example.2 w).2) w examples.

(** The example returns when called in [w]. *)
Definition returns (w : W) (example : string * (W → outcome * W)) : Prop :=
  (example.2 w).1 = Returns.

(** Every example returns when called after those before it. *)
Fixpoint all_return (examples : list (string * (W → outcome * W))) (w : W)
    : Prop :=
  match examples with
  | [] => True
  | example :: examples =>
      returns w example ∧ all_return examples (example.2 w).2
  end.

End main_model.

(** Three examples for a world that counts the calls: the second raises
    [ValueError("boom")]. *)
Definition failing_examples : list (string * (nat → Main.outcome * nat)) :=
  [("Basic Threading"%string, λ n, (Main.Returns, S n));
   ("Thread Synchronization"%string, λ n, (Main.Raises true "boom", S n));
   ("Thread Pool"%string, λ n, (Main.Returns, S n))].

(** * Proofs *)

(** ** Lists of program counters *)

Section list_facts.
Context {A : Type}.
Implicit Types (f : A → nat) (l : list A).

Lemma sum_list_with_insert f l (i : nat) (x y : A) :
  l !! i = Some x →
  sum_list_with f (<[i:=y]> l) + f x = sum_list_with f l + f y.
Proof.
  revert i. induction l as [|a l IH]; intros [|i] Hi; simplify_eq/=.
  - lia.
  - specialize (IH _ Hi). lia.
Qed.

Lemma sum_list_with_lookup f l (i : nat) (x : A) :
  l !! i = Some x → f x ≤ sum_list_with f l.
Proof. intros Hi. apply sum_list_with_in. by eapply list_elem_of_lookup_2. Qed.

Lemma sum_list_with_two f l (i j : nat) (x y : A) :
  i ≠ j → l !! i = Some x → l !! j = Some y →
  f x + f y ≤ sum_list_with f l.
Proof.
  revert i j. induction l as [|a l IH]; intros [|i] [|j] Hij Hi Hj;
    simplify_eq/=.
  - pose proof (sum_list_with_lookup f _ _ _ Hj). lia.
  - pose proof (sum_list_with_lookup f _ _ _ Hi). lia.
  - assert (i ≠ j) as Hne by congruence.
    specialize (IH _ _ Hne Hi Hj). lia.
Qed.

Lemma sum_list_with_pos f l :
  0 < sum_list_with f l → ∃ i x, l !! i = Some x ∧ 0 < f x.
Proof.
  induction l as [|a l IH]; simpl; [lia|]. intros Hpos.
  destruct (decide (0 < f a)) as [Ha|Ha].
  - by exists 0, a.
  - destruct IH as (i & x & Hi & Hx); [lia|]. by exists (S i), x.
Qed.

Lemma sum_list_with_replicate f (n : nat) (x : A) :
  sum_list_with f (replicate n x) = n * f x.
Proof. induction n as [|n IH]; simpl; lia. Qed.

Lemma sum_list_with_zero f l :
  Forall (λ x, f x = 0) l → sum_list_with f l = 0.
Proof. induction 1; simpl; lia. Qed.
End list_facts.

(** ** The locked counter *)

Section sync_facts.
Import Sync.

Lemma sync_inv_init n m : sync_inv n m (init n m).
Proof.
  split; simpl.
  - rewrite sum_list_with_replicate. simpl. lia.
  - by rewrite sum_list_with_replicate, Nat.mul_0_r.
  - intros t current k [? _]%lookup_replicate. done.
Qed.

Lemma sync_inv_exclusive n m s t t' p p' :
  sync_inv n m s →
  threads s !! t = Some p → threads s !! t' = Some p' →
  in_critical_section p = true → in_critical_section p' = true → t = t'.
Proof.
  intros [_ Hlock _] Ht Ht' Hp Hp'.
  destruct (decide (t = t')) as [|Hne]; [done|].
  pose proof (sum_list_with_two cs_weight _ _ _ _ _ Hne Ht Ht') as Hle.
  unfold cs_weight in Hle at 1 2. rewrite Hp, Hp', Hlock in Hle.
  destruct (lock (counter s)); lia.
Qed.

Lemma sync_inv_step n m s s' : sync_inv n m s → step s s' → sync_inv n m s'.
Proof.
  intros Hinv [t Hstep]. unfold step_thread in Hstep.
  destruct (threads s !! t) as [p|] eqn:Ht; simplify_eq/=.
  destruct (increment_worker_step (counter s) p) as [[c' p']|] eqn:Hp;
    simplify_eq/=.
  pose proof (sum_list_with_insert todo _ _ _ p' Ht) as Htodo.
  pose proof (sum_list_with_insert cs_weight _ _ _ p' Ht) as Hcs.
  assert (∀ t' current k,
    t' ≠ t → threads s !! t' = Some (Sleeping current k) →
    in_critical_section p = true → False) as Hother.
  { intros t' current k Hne Ht' Hp'. apply Hne.
    by eapply (sync_inv_exclusive n m s t' t). }
  destruct Hinv as [Htot Hlock Hcur].
  destruct p as [[|k]|k|current k|k|]; simplify_eq/=.
  - (* the loop ends *)
    split; simpl; [lia|unfold cs_weight in *; simpl in *; lia|].
    intros t' current k Ht'. destruct (decide (t' = t)) as [->|Hne].
    + apply list_lookup_insert_Some in Ht' as [(_ & ? & _)|[? _]]; done.
    + rewrite list_lookup_insert_ne in Ht' by done. eauto.
  - (* the lock is acquired *)
    unfold acquire in Hp. destruct (lock (counter s)) eqn:Hl; simplify_eq/=.
    split; simpl; [lia|unfold cs_weight in *; simpl in *; lia|].
    intros t' current k' Ht'. destruct (decide (t' = t)) as [->|Hne].
    + apply list_lookup_insert_Some in Ht' as [(_ & ? & _)|[? _]]; done.
    + rewrite list_lookup_insert_ne in Ht' by done. eauto.
  - (* the value is read *)
    split; simpl; [lia|unfold cs_weight in *; simpl in *; lia|].
    intros t' current k' Ht'. destruct (decide (t' = t)) as [->|Hne].
    + apply list_lookup_insert_Some in Ht' as [(_ & ? & _)|[? _]];
        by simplify_eq.
    + rewrite list_lookup_insert_ne in Ht' by done. eauto.
  - (* the value is written *)
    specialize (Hcur _ _ _ Ht) as ->.
    split; simpl; [lia|unfold cs_weight in *; simpl in *; lia|].
    intros t' current k' Ht'. destruct (decide (t' = t)) as [->|Hne].
    + apply list_lookup_insert_Some in Ht' as [(_ & ? & _)|[? _]]; done.
    + rewrite list_lookup_insert_ne in Ht' by done.
      destruct (Hother _ _ _ Hne Ht' eq_refl).
  - (* the lock is released *)
    split; simpl; [lia| |].
    + unfold cs_weight in *; simpl in *.
      pose proof (sum_list_with_lookup cs_weight _ _ _ Ht) as Hle.
      unfold cs_weight in Hle; simpl in Hle.
      destruct (lock (counter s)); lia.
    + intros t' current k' Ht'. destruct (decide (t' = t)) as [->|Hne].
      * apply list_lookup_insert_Some in Ht' as [(_ & ? & _)|[? _]]; done.
      * rewrite list_lookup_insert_ne in Ht' by done.
        destruct (Hother _ _ _ Hne Ht' eq_refl).
Qed.

Lemma sync_inv_reachable n m s : rtc step (init n m) s → sync_inv n m s.
Proof.
  intros Hrtc. revert s Hrtc. apply rtc_ind_r.
  - apply sync_inv_init.
  - intros s1 s2 _ Hstep IH. by eapply sync_inv_step.
Qed.

(** No deadlock: while a thread has not finished, some thread can take
    a step. *)
Lemma sync_progress n m s :
  sync_inv n m s → ¬ all_finished s → ∃ s', step s s'.
Proof.
  intros [_ Hlock _] Hnf.
  assert (∃ t p, threads s !! t = Some p
                 ∧ is_Some (increment_worker_step (counter s) p))
    as (t & p & Ht & [[c' p'] Hp]).
  { destruct (lock (counter s)) eqn:Hl.
    - destruct (sum_list_with_pos cs_weight (threads s)) as (t & p & Ht & Hw);
        [lia|].
      exists t, p. split; [done|].
      destruct p; unfold cs_weight in Hw; simpl in *; eauto; lia.
    - apply not_Forall_Exists in Hnf; [|apply _].
      apply Exists_exists in Hnf as (p & Hin & Hp).
      apply list_elem_of_lookup_1 in Hin as [t Ht].
      exists t, p. split; [done|].
      pose proof (sum_list_with_lookup cs_weight _ _ _ Ht) as Hle.
      destruct p as [[|k]| | | |]; unfold cs_weight in Hle; simpl in *;
        try lia; eauto.
      + unfold acquire. rewrite Hl. simpl. eauto.
      + by destruct Hp. }
  eexists. exists t. unfold step_thread. rewrite Ht. simpl. rewrite Hp.
  simpl. done.
Qed.

(** Every step uses up one of the steps left. *)
Lemma sync_step_measure s s' :
  step s s' →
  sum_list_with steps_left (threads s)
  = S (sum_list_with steps_left (threads s')).
Proof.
  intros [t Hstep]. unfold step_thread in Hstep.
  destruct (threads s !! t) as [p|] eqn:Ht; simplify_eq/=.
  destruct (increment_worker_step (counter s) p) as [[c' p']|] eqn:Hp;
    simplify_eq/=.
  pose proof (sum_list_with_insert steps_left _ _ _ p' Ht) as Hsum.
  destruct p as [[|k]|k|current k|k|]; simplify_eq/=; try lia.
  unfold acquire in Hp. destruct (lock (counter s)); simplify_eq/=. lia.
Qed.

Lemma sync_nsteps_measure n m k s :
  nsteps step k (init n m) s →
  k + sum_list_with steps_left (threads s) = n * (4 * m + 1).
Proof.
  revert s. induction k as [|k IH]; intros s Hk.
  - inversion Hk; subst. simpl. by rewrite sum_list_with_replicate.
  - apply nsteps_inv_r in Hk as (s1 & Hk & Hstep).
    apply IH in Hk. apply sync_step_measure in Hstep. lia.
Qed.

Lemma sync_run_rtc sched s : rtc step s (run sched s).
Proof.
  revert s. induction sched as [|t sched IH]; intros s; simpl; [done|].
  destruct (step_thread t s) as [s'|] eqn:Hs; simpl; [|done].
  eapply rtc_l; [by exists t|done].
Qed.

(** One call of [increment] is the four steps of a thread. *)
Lemma sync_increment_steps c k :
  increment c =
    '(c1, p1) ← increment_worker_step c (Loop (S k));
    '(c2, p2) ← increment_worker_step c1 p1;
    '(c3, p3) ← increment_worker_step c2 p2;
    '(c4, p4) ← increment_worker_step c3 p3;
    Some c4.
Proof. by destruct c as [v []]. Qed.

(** C1. With the locked [Counter], in every run of [n] threads that each
    call [increment] [m] times: no two threads are inside the [with]
    block of [increment] at once (their read-modify-write sequences do
    not interleave); as long as a thread has not finished some thread
    can take a step; the run has at most [n * (4 * m + 1)] steps; and
    once all threads have finished, [get_value] returns [n * m]. *)
Theorem locked_counter_total (n m : nat) (s : state) :
  rtc step (init n m) s →
  (∀ t t' p p',
     threads s !! t = Some p → threads s !! t' = Some p' →
     in_critical_section p = true → in_critical_section p' = true → t = t')
  ∧ (¬ all_finished s → ∃ s', step s s')
  ∧ (∀ k, nsteps step k (init n m) s → k ≤ n * (4 * m + 1))
  ∧ (all_finished s →
     fst <$> get_value (counter s) = Some (Z.of_nat n * Z.of_nat m)%Z).
Proof.
  intros Hinv%sync_inv_reachable. split_and!.
  - intros t t' p p'. by apply (sync_inv_exclusive n m).
  - by apply (sync_progress n m).
  - intros k Hk%sync_nsteps_measure. lia.
  - intros Hfin. destruct Hinv as [Htot Hlock _].
    rewrite sum_list_with_zero in Htot, Hlock.
    + unfold get_value, acquire. destruct (lock (counter s)); [done|].
      simpl. f_equal. lia.
    + eapply Forall_impl; [exact Hfin|]. by intros ? ->.
    + eapply Forall_impl; [exact Hfin|]. by intros ? ->.
Qed.

(** 10 threads of 100 increments, run one after the other, end with
    1000. *)
Lemma locked_counter_total_witness :
  let s := run (sequential_schedule 10 100) (init 10 100) in
  all_finished s ∧ fst <$> get_value (counter s) = Some 1000%Z.
Proof.
  intros s.
  assert (all_finished s) as Hfin.
  { unfold all_finished.
    replace (threads s) with (replicate 10 Finished) by (by vm_compute).
    by apply Forall_replicate. }
  split; [done|].
  by apply (locked_counter_total 10 100 s (sync_run_rtc _ _)).
Defined.

(** One call of [UnsafeCounter.increment] is the two steps of a thread. *)
Lemma unsafe_increment_steps u k :
  Some (unsafe_increment u) =
    '(u1, p1) ← unsafe_increment_worker_step u (Loop (S k));
    '(u2, p2) ← unsafe_increment_worker_step u1 p1;
    Some u2.
Proof. done. Qed.

Lemma increment_worker_value k v :
  increment_worker {| value := v; lock := false |} k
  = Some {| value := v + Z.of_nat k; lock := false |}.
Proof.
  revert v. induction k as [|k IH]; intros v.
  - simpl. do 2 f_equal. lia.
  - cbn [increment_worker]. unfold increment, acquire. simpl.
    unfold set_value, release. simpl. rewrite IH. do 2 f_equal. lia.
Qed.

Lemma unsafe_increment_worker_value k v :
  unsafe_increment_worker {| uvalue := v |} k
  = {| uvalue := v + Z.of_nat k |}.
Proof.
  revert v. induction k as [|k IH]; intros v.
  - simpl. f_equal. lia.
  - cbn [unsafe_increment_worker]. unfold unsafe_increment. simpl.
    rewrite IH. f_equal. lia.
Qed.

(** C9. Run by one thread at a time, [Counter] and [UnsafeCounter]
    compute the same function: both start at 0, every call of
    [increment] adds exactly 1 to the value, and after [k] increments
    both [get_value] return [k]. *)
Theorem counters_agree_sequentially :
  fst <$> get_value Counter_init = Some 0%Z
  ∧ unsafe_get_value UnsafeCounter_init = 0%Z
  ∧ (∀ v, increment {| value := v; lock := false |}
          = Some {| value := v + 1; lock := false |})
  ∧ (∀ v, unsafe_increment {| uvalue := v |} = {| uvalue := v + 1 |})
  ∧ (∀ k, ∃ c,
       increment_worker Counter_init k = Some c
       ∧ fst <$> get_value c = Some (Z.of_nat k)
       ∧ unsafe_get_value (unsafe_increment_worker UnsafeCounter_init k)
         = Z.of_nat k).
Proof.
  split_and!; try done.
  intros k. eexists. split; [apply increment_worker_value|].
  unfold UnsafeCounter_init. rewrite unsafe_increment_worker_value.
  split; simpl; [f_equal|]; lia.
Qed.

(** Interleaved, they differ: two threads of one increment each can
    leave the [UnsafeCounter] at 1, the second write overwriting the
    first. *)
Example unsafe_counter_lost_update :
  let s := unsafe_run [0; 1; 0; 1; 0; 1] (unsafe_init 2 1) in
  uthreads s = [Finished; Finished] ∧ unsafe_get_value (ucounter s) = 1%Z.
Proof. done. Qed.

End sync_facts.

(** ** The items of the producers *)

Section item_facts.
Import ProdCons.

Lemma pretty_N_go_dashless (x : N) (s : string) :
  dashless s → dashless (pretty_N_go x s).
Proof.
  revert s. induction (N.lt_wf_0 x) as [x _ IH]; intros s Hs.
  assert (x = 0 ∨ 0 < x)%N as [->|Hpos] by lia.
  - by rewrite pretty_N_go_0.
  - rewrite pretty_N_go_step by done. apply IH; [by apply N.div_lt|].
    split; [|done]. unfold pretty_N_char. by repeat case_match.
Qed.

Lemma pretty_nat_dashless (n : nat) : dashless (pretty n).
Proof.
  unfold pretty, pretty_nat, pretty, pretty_N. case_decide.
  - by split.
  - by apply pretty_N_go_dashless.
Qed.

Lemma dashless_split (a a' b b' : string) :
  dashless a → dashless a' →
  a +:+ "-" +:+ b = a' +:+ "-" +:+ b' → a = a' ∧ b = b'.
Proof.
  revert a'. induction a as [|c a IH]; intros [|c' a'] Ha Ha' Heq;
    simplify_eq/=.
  - done.
  - by destruct Ha' as [[] _].
  - by destruct Ha as [[] _].
  - destruct Ha as [_ Ha], Ha' as [_ Ha'].
    destruct (IH a' Ha Ha') as [-> ->]; done.
Qed.

(** Distinct producers and indices give distinct items. *)
Lemma item_inj (p i p' i' : nat) : item p i = item p' i' → p = p' ∧ i = i'.
Proof.
  unfold item. intros Heq. simplify_eq/=.
  apply dashless_split in Heq as [Hp Hi]; [|apply pretty_nat_dashless..].
  by apply (inj pretty) in Hp, Hi.
Qed.

End item_facts.

(** ** The queue *)

Section queue_facts.
Context {T : Type}.
Implicit Types (q : Queue.t T) (x : T).

Lemma queue_get_got q x q' :
  Queue.valid q → Queue.get q = (Queue.Got x, q') →
  Queue.items q = x :: Queue.items q'
  ∧ S (Queue.count q') = Queue.count q
  ∧ Queue.maxsize q' = Queue.maxsize q
  ∧ Queue.unfinished_tasks q' = Queue.unfinished_tasks q
  ∧ Queue.valid q'.
Proof.
  unfold Queue.get, Queue.valid, Queue.count, Queue.qsize.
  intros [Hcap Hunf] Hget.
  destruct (Queue.items q) as [|y rest] eqn:Hq; simplify_eq/=.
  split_and!; try done; lia.
Qed.

Lemma queue_get_empty q q' :
  Queue.valid q → Queue.get q = (Queue.Empty, q') →
  Queue.count q = 0 ∧ q' = q ∧ Queue.valid q'
  ∧ Queue.get q' = (Queue.Empty, q')
  ∧ ∀ x, ∃ q1 q2, Queue.put x q' = Some q1
                  ∧ Queue.get q1 = (Queue.Got x, q2).
Proof.
  unfold Queue.get, Queue.valid, Queue.count, Queue.qsize.
  intros [Hcap Hunf] Hget.
  destruct (Queue.items q) as [|y rest] eqn:Hq; simplify_eq/=.
  rewrite Hq. split_and!; try done.
  intros x. unfold Queue.put, Queue.full, Queue.qsize. rewrite Hq. simpl.
  assert (bool_decide (0 < Queue.maxsize q')
          && bool_decide (Queue.maxsize q' ≤ 0) = false) as ->.
  { apply andb_false_iff.
    destruct (decide (0 < Queue.maxsize q')); [right|left];
      by apply bool_decide_eq_false_2; lia. }
  eauto.
Qed.

End queue_facts.

(** ** Producers, consumers and the main thread *)

Section list_stable.
Context {A : Type}.

Lemma lookup_insert_stable (l : list A) (i j : nat) (x y z : A) :
  l !! i = Some x → x ≠ y → l !! j = Some y → <[i:=z]> l !! j = Some y.
Proof.
  intros Hi Hne Hj. destruct (decide (j = i)) as [->|Hji]; [congruence|].
  by rewrite list_lookup_insert_ne.
Qed.

Lemma lookup_insert_cases (l : list A) (i j : nat) (x y : A) :
  <[i:=x]> l !! j = Some y →
  (j = i ∧ y = x) ∨ (j ≠ i ∧ l !! j = Some y).
Proof.
  intros H. destruct (decide (j = i)) as [->|Hne].
  - apply list_lookup_insert_Some in H as [(_ & -> & _)|[? _]]; [by left|done].
  - rewrite list_lookup_insert_ne in H by done. by right.
Qed.
End list_stable.

Section prodcons_facts.
Import ProdCons.

Lemma pc_inv_init cfg : pc_inv cfg (init cfg).
Proof.
  split; simpl; try done.
  - apply length_replicate.
  - apply length_replicate.
  - by intros j i [? _]%lookup_replicate.
  - by rewrite sum_list_with_replicate, Nat.mul_0_r.
  - lia.
  - by rewrite sum_list_with_replicate, Nat.mul_0_r.
  - by intros x ?%elem_of_nil.
  - constructor.
  - intros j [_ Hj]. by apply lookup_replicate.
  - intros j [_ Hj]. by apply lookup_replicate.
  - intros j Hj. lia.
  - intros j Hj. lia.
  - intros j c [-> _]%lookup_replicate [|]; done.
Qed.

(** Fields of the invariant that a step of consumer [i] from [c] to [c']
    can affect through the list of consumers. *)
Ltac consumer_list_fields Hc :=
  try (by rewrite length_insert);
  try (intros ? ?; eapply lookup_insert_stable; [exact Hc|done|by eauto]);
  try (intros ? ? [[_ ->]|[_ ?]]%lookup_insert_cases [|]; by eauto).

Lemma pc_inv_consumer cfg s i s' :
  pc_inv cfg s → step_thread cfg (Consumer i) s = Some s' → pc_inv cfg s'.
Proof.
  intros Hinv Hstep. simpl in Hstep.
  destruct (consumers s !! i) as [c|] eqn:Hc; simplify_eq/=.
  destruct (consumer (sh s) c) as [[sh' c']|] eqn:Hcs; simplify_eq/=.
  pose proof (sum_list_with_insert working _ _ _ c' Hc) as Hw.
  destruct Hinv.
  destruct s as [[[items mx unf] stop puts gets] ps cs m]; simpl in *.
  destruct c; simplify_eq/=.
  - (* the event is tested *)
    destruct (stop_called m) eqn:Hstop;
      split; simpl in *; try done; consumer_list_fields Hc; lia.
  - (* the queue is tested *)
    unfold Queue.empty, Queue.qsize in *; simpl in *.
    assert (stop_called m = true) as Hstop by eauto.
    case_bool_decide;
      split; simpl in *; try done; consumer_list_fields Hc; lia.
  - (* [get] *)
    unfold Queue.get in *; simpl in *.
    destruct items as [|x items]; simplify_eq/=.
    + split; simpl in *; try done; consumer_list_fields Hc; lia.
    + split; simpl in *; try done; consumer_list_fields Hc.
      * by rewrite <-app_assoc.
      * lia.
      * destruct inv_capacity0; [by left|right; lia].
  - (* [task_done] *)
    unfold Queue.task_done in *; simpl in *.
    destruct (length items + sum_list_with working cs) as [|unf] eqn:Hunf;
      simplify_eq/=.
    split; simpl in *; try done; consumer_list_fields Hc.
    + lia.
    + intros Hj. specialize (inv_drained0 Hj). lia.
Qed.

Ltac producer_list_fields Hp :=
  try (by rewrite length_insert);
  try (intros ? ?; eapply lookup_insert_stable; [exact Hp|done|by eauto]).

Lemma pc_inv_producer cfg s i s' :
  pc_inv cfg s → step_thread cfg (Producer i) s = Some s' → pc_inv cfg s'.
Proof.
  intros Hinv Hstep. simpl in Hstep.
  destruct (producers s !! i) as [p|] eqn:Hp; simplify_eq/=.
  destruct (producer (sh s) i _ p) as [[sh' p']|] eqn:Hps; simplify_eq/=.
  pose proof (sum_list_with_insert
    (produced (num_items_per_producer cfg)) _ _ _ p' Hp) as Hsum.
  pose proof (lookup_lt_Some _ _ _ Hp) as Hi.
  destruct Hinv.
  destruct s as [[[items mx unf] stop puts gets] ps cs m]; simpl in *.
  destruct p as [|k|]; simplify_eq/=.
  case_bool_decide as Hk; simplify_eq/=.
  - (* [put] *)
    unfold Queue.put, Queue.full, Queue.qsize in *; simpl in *.
    destruct (bool_decide _ && bool_decide _) eqn:Hfull; simplify_eq/=.
    split; simpl in *; try done; producer_list_fields Hp.
    + intros j i0 [[_ ?]|[_ ?]]%lookup_insert_cases; simplify_eq; [lia|eauto].
    + by rewrite app_assoc.
    + rewrite length_app. simpl. lia.
    + rewrite length_app. simpl.
      apply andb_false_iff in Hfull as [H|H]; apply bool_decide_eq_false in H;
        [left|right]; lia.
    + rewrite !length_app. rewrite length_app in inv_put_length0.
      simpl in *. lia.
    + intros x [Hx| ->%list_elem_of_singleton]%elem_of_app.
      * destruct (inv_put_from0 x Hx) as (j & i0 & p & -> & Hj & Hlt).
        destruct (decide (j = i)) as [->|Hne].
        -- exists i, i0, (P_for (S k)). rewrite list_lookup_insert_eq by done.
           simplify_eq/=. split_and!; [done..|lia].
        -- exists j, i0, p. by rewrite list_lookup_insert_ne.
      * exists i, k, (P_for (S k)). rewrite list_lookup_insert_eq by done.
        simpl. split_and!; [done..|lia].
    + apply NoDup_app. split_and!; [done| |apply NoDup_singleton].
      intros x Hx ->%list_elem_of_singleton.
      destruct (inv_put_from0 _ Hx) as (j & i0 & p & Heq & Hj & Hlt).
      apply item_inj in Heq as [-> ->]. simplify_eq/=. lia.
    + intros Hj.
      assert (ps !! i = Some P_finished); [|congruence].
      apply inv_joined_producers0. destruct m; simpl in *; try done; lia.
  - (* the loop ends *)
    assert (k = num_items_per_producer cfg) as ->.
    { specialize (inv_for_bound0 _ _ Hp). lia. }
    split; simpl in *; try done; producer_list_fields Hp.
    + intros j i0 [[_ ?]|[_ ?]]%lookup_insert_cases; simplify_eq; eauto.
    + simpl in *. lia.
    + intros x Hx.
      destruct (inv_put_from0 x Hx) as (j & i0 & p & -> & Hj & Hlt).
      destruct (decide (j = i)) as [->|Hne].
      * exists i, i0, P_finished. rewrite list_lookup_insert_eq by done.
        by simplify_eq/=.
      * exists j, i0, p. by rewrite list_lookup_insert_ne.
Qed.

(** Fields that bound the indices the main thread has dealt with. *)
Ltac range_fields :=
  try (intros ? ?;
       first [lia
             |match goal with
              | H : ∀ j, _ → ?l !! j = _ |- ?l !! _ = _ => apply H; lia
              end]).

Lemma pc_inv_main cfg s s' :
  pc_inv cfg s → step_thread cfg Main s = Some s' → pc_inv cfg s'.
Proof.
  intros Hinv Hstep. simpl in Hstep.
  unfold run_producer_consumer_example in Hstep.
  destruct Hinv.
  destruct s as [[[items mx unf] stop puts gets] ps cs m]; simpl in *.
  destruct m as [i|i|i| | |i|]; simplify_eq/=.
  - (* a producer is started *)
    case_bool_decide as Hi; simplify_eq/=.
    + assert (ps !! i = Some P_new) as Hp by (apply inv_new_producers0; lia).
      pose proof (sum_list_with_insert
        (produced (num_items_per_producer cfg)) _ _ _ (P_for 0) Hp) as Hsum.
      split; simpl in *; try done; range_fields.
      * by rewrite length_insert.
      * intros j i0 [[_ ?]|[_ ?]]%lookup_insert_cases; simplify_eq; [lia|eauto].
      * lia.
      * intros x Hx.
        destruct (inv_put_from0 x Hx) as (j & i0 & p & -> & Hj & Hlt).
        destruct (decide (j = i)) as [->|Hne]; [simplify_eq/=; lia|].
        exists j, i0, p. by rewrite list_lookup_insert_ne.
      * intros j Hj. rewrite list_lookup_insert_ne by lia.
        apply inv_new_producers0. lia.
    + split; simpl in *; try done; range_fields.
  - (* a consumer is started *)
    case_bool_decide as Hi; simplify_eq/=.
    + assert (cs !! i = Some C_new) as Hc by (apply inv_new_consumers0; lia).
      pose proof (sum_list_with_insert working _ _ _ C_while Hc) as Hsum.
      split; simpl in *; try done; range_fields.
      * by rewrite length_insert.
      * lia.
      * intros j Hj. rewrite list_lookup_insert_ne by lia.
        apply inv_new_consumers0. lia.
      * intros j c [[_ ->]|[_ ?]]%lookup_insert_cases [|]; by eauto.
    + split; simpl in *; try done; range_fields.
  - (* a producer is joined *)
    case_bool_decide as Hi; simplify_eq/=.
    + destruct (ps !! i) as [[| |]|] eqn:Hp; simplify_eq/=.
      split; simpl in *; try done; range_fields.
      intros j Hj. destruct (decide (j = i)) as [->|]; [done|].
      apply inv_joined_producers0. lia.
    + split; simpl in *; try done; range_fields.
  - (* [work_queue.join()] *)
    unfold Queue.join in *; simpl in *.
    case_bool_decide as Hunf; simplify_eq/=.
    split; simpl in *; try done; range_fields.
  - (* [stop_event.set()] *)
    split; simpl in *; try done; range_fields.
  - (* a consumer is joined *)
    case_bool_decide as Hi; simplify_eq/=.
    + destruct (cs !! i) as [[| | | | |]|] eqn:Hc; simplify_eq/=.
      split; simpl in *; try done; range_fields.
      intros j Hj. destruct (decide (j = i)) as [->|]; [done|].
      apply inv_joined_consumers0. lia.
    + split; simpl in *; try done; range_fields.
Qed.

Lemma pc_inv_step cfg s s' : pc_inv cfg s → step cfg s s' → pc_inv cfg s'.
Proof.
  intros Hinv [[|i|i] Hstep];
    eauto using pc_inv_main, pc_inv_producer, pc_inv_consumer.
Qed.

Lemma pc_inv_reachable cfg s : reachable cfg s → pc_inv cfg s.
Proof.
  revert s. apply rtc_ind_r.
  - apply pc_inv_init.
  - intros s1 s2 _ Hstep IH. by eapply pc_inv_step.
Qed.

Lemma reachable_trans cfg s s' :
  reachable cfg s → rtc (step cfg) s s' → reachable cfg s'.
Proof. unfold reachable. apply rtc_trans. Qed.

Lemma pc_run_reachable cfg sched s :
  reachable cfg s → reachable cfg (run cfg sched s).
Proof.
  revert s. induction sched as [|t sched IH]; intros s Hs; simpl; [done|].
  apply IH. destruct (step_thread cfg t s) as [s'|] eqn:Hstep; simpl; [|done].
  eapply rtc_r; [exact Hs|]. by exists t.
Qed.

Lemma pc_inv_drained cfg s :
  pc_inv cfg s → join_returned (main s) = true →
  Queue.items (work_queue (sh s)) = []
  ∧ Queue.unfinished_tasks (work_queue (sh s)) = 0
  ∧ get_log (sh s) = put_log (sh s).
Proof.
  intros Hinv Hj. pose proof (inv_drained _ _ Hinv Hj) as Hunf.
  pose proof (inv_unfinished _ _ Hinv) as Hsum.
  pose proof (inv_fifo _ _ Hinv) as Hfifo.
  destruct (Queue.items (work_queue (sh s))) as [|x items]; simpl in *;
    [|lia].
  by rewrite app_nil_r in Hfifo.
Qed.

Lemma pc_inv_producers_finished cfg s :
  pc_inv cfg s → joined_producers cfg (main s) = num_producers cfg →
  Forall (λ p, p = P_finished) (producers s).
Proof.
  intros Hinv Hj. apply Forall_lookup_2. intros j p Hp.
  pose proof (lookup_lt_Some _ _ _ Hp) as Hlt.
  rewrite (inv_producers_length _ _ Hinv), <-Hj in Hlt.
  pose proof (inv_joined_producers _ _ Hinv j Hlt). congruence.
Qed.

Lemma sum_produced_finished (num_items : nat) (ps : list ppc) :
  Forall (λ p, p = P_finished) ps →
  sum_list_with (produced num_items) ps = length ps * num_items.
Proof. induction 1 as [|p ps -> _ IH]; simpl; lia. Qed.

Lemma example_schedule_completes :
  let s := run example_config example_schedule (init example_config) in
  main s = M_finished
  ∧ get_log (sh s)
    = ["Item-0-0"; "Item-1-0"; "Item-0-1"; "Item-1-1"; "Item-0-2";
       "Item-1-2"; "Item-0-3"; "Item-1-3"; "Item-0-4"; "Item-1-4"]%string.
Proof. vm_compute. split; reflexivity. Qed.

Lemma started_inv_init cfg : started_inv cfg (init cfg).
Proof. split; simpl; intros; lia. Qed.

Lemma producer_started sh0 i n p sh' p' :
  producer sh0 i n p = Some (sh', p') → p' ≠ P_new.
Proof.
  destruct p; simpl; intros; repeat case_match; by simplify_option_eq.
Qed.

Lemma consumer_started sh0 c sh' c' :
  consumer sh0 c = Some (sh', c') → c' ≠ C_new.
Proof.
  destruct c; simpl; intros; repeat case_match; by simplify_option_eq.
Qed.

Lemma started_inv_step cfg s s' :
  started_inv cfg s → step cfg s s' → started_inv cfg s'.
Proof.
  intros [Hp Hc] [[|i|i] Hstep]; simpl in Hstep.
  - unfold run_producer_consumer_example in Hstep.
    destruct s as [sh0 ps cs m]; simpl in *.
    destruct m as [i|i|i| | |i|]; simplify_eq/=;
      repeat (case_bool_decide || case_match); simplify_option_eq;
      (split; simpl; [intros j p Hj Hl|intros j c Hj Hl]);
      try (by (eapply Hp || eapply Hc); [|done]; simpl; lia);
      try lia.
    + apply lookup_insert_cases in Hl as [[_ ->]|[? Hl]]; [done|].
      eapply Hp; [|done]. simpl. lia.
    + apply lookup_insert_cases in Hl as [[_ ->]|[? Hl]]; [done|].
      eapply Hc; [|done]. simpl. lia.
  - destruct (producers s !! i) as [p|] eqn:Hpi; simplify_eq/=.
    destruct (producer _ _ _ _) as [[sh' p']|] eqn:Hps; simplify_eq/=.
    apply producer_started in Hps.
    split; simpl; [|done].
    intros j p0 Hj [[_ ->]|[_ ?]]%lookup_insert_cases; eauto.
  - destruct (consumers s !! i) as [c|] eqn:Hci; simplify_eq/=.
    destruct (consumer _ _) as [[sh' c']|] eqn:Hcs; simplify_eq/=.
    apply consumer_started in Hcs.
    split; simpl; [done|].
    intros j c0 Hj [[_ ->]|[_ ?]]%lookup_insert_cases; eauto.
Qed.

Lemma started_inv_reachable cfg s : reachable cfg s → started_inv cfg s.
Proof.
  revert s. apply rtc_ind_r.
  - apply started_inv_init.
  - intros s1 s2 _ Hstep IH. by eapply started_inv_step.
Qed.

Lemma consumer_left_stop (cs : list cpc) :
  sum_list_with (consumer_left true) cs
  ≤ sum_list_with (consumer_left false) cs + length cs.
Proof.
  induction cs as [|c cs IH]; simpl; [lia|]. destruct c; simpl; lia.
Qed.

(** The main thread takes a step: the potential decreases. *)
Lemma potential_main cfg s s' :
  pc_inv cfg s → run_producer_consumer_example cfg s = Some s' →
  potential cfg s' < potential cfg s.
Proof.
  intros Hinv Hstep. unfold run_producer_consumer_example in Hstep.
  unfold potential.
  pose proof (inv_consumers_length _ _ Hinv) as Hlen.
  pose proof (inv_new_producers _ _ Hinv) as Hnp.
  pose proof (inv_new_consumers _ _ Hinv) as Hnc.
  pose proof (inv_stop _ _ Hinv) as Hstop.
  destruct s as [[q stop puts gets] ps cs m]; simpl in *.
  destruct m as [i|i|i| | |i|]; simplify_eq/=.
  - case_bool_decide as Hi; simplify_eq/=; [|nia].
    assert (ps !! i = Some P_new) as Hp by (apply Hnp; lia).
    pose proof (sum_list_with_insert
      (producer_left (num_items_per_producer cfg)) _ _ _ (P_for 0) Hp) as Hs.
    simpl in Hs. nia.
  - case_bool_decide as Hi; simplify_eq/=; [|nia].
    assert (cs !! i = Some C_new) as Hc by (apply Hnc; lia).
    pose proof (sum_list_with_insert (consumer_left false) _ _ _ C_while Hc)
      as Hs.
    simpl in Hs. nia.
  - case_bool_decide as Hi; simplify_eq/=; [|nia].
    destruct (ps !! i) as [[| |]|]; simplify_eq/=. nia.
  - unfold Queue.join in Hstep. case_bool_decide; simplify_eq/=. nia.
  - pose proof (consumer_left_stop cs). nia.
  - case_bool_decide as Hi; simplify_eq/=; [|nia].
    destruct (cs !! i) as [[| | | | |]|]; simplify_eq/=. nia.
Qed.

(** A producer that is not blocked takes a step: the potential
    decreases. *)
Lemma potential_producer cfg s i k :
  pc_inv cfg s → producers s !! i = Some (P_for k) →
  num_items_per_producer cfg ≤ k
  ∨ Queue.full (work_queue (sh s)) = false →
  ∃ s', step cfg s s' ∧ potential cfg s' < potential cfg s.
Proof.
  intros Hinv Hp Hfree.
  pose proof (sum_list_with_insert
    (producer_left (num_items_per_producer cfg)) (producers s) i
    (P_for k)) as Hsum.
  destruct (decide (k < num_items_per_producer cfg)) as [Hk|Hk].
  - destruct Hfree as [?|Hfull]; [lia|].
    eexists. split.
    + exists (Producer i). simpl. rewrite Hp. simpl.
      rewrite bool_decide_eq_true_2 by done. unfold Queue.put.
      rewrite Hfull. simpl. reflexivity.
    + specialize (Hsum (P_for (S k)) Hp). unfold potential. simpl in *. lia.
  - eexists. split.
    + exists (Producer i). simpl. rewrite Hp. simpl.
      rewrite bool_decide_eq_false_2 by done. simpl. reflexivity.
    + specialize (Hsum P_finished Hp). unfold potential. simpl in *. lia.
Qed.

Lemma potential_consumer cfg s i c :
  pc_inv cfg s → consumers s !! i = Some c → productive (sh s) c →
  ∃ s', step cfg s s' ∧ potential cfg s' < potential cfg s.
Proof.
  intros Hinv Hc Hprod.
  pose proof (sum_list_with_insert
    (consumer_left (stop_event (sh s))) (consumers s) i c) as Hsum.
  pose proof (inv_unfinished _ _ Hinv) as Hunf.
  pose proof (sum_list_with_lookup working _ _ _ Hc) as Hw.
  assert (∀ sh' c',
    consumer (sh s) c = Some (sh', c') →
    stop_event sh' = stop_event (sh s) →
    3 * Queue.unfinished_tasks (work_queue sh')
      + consumer_left (stop_event (sh s)) c'
    < 3 * Queue.unfinished_tasks (work_queue (sh s))
      + consumer_left (stop_event (sh s)) c →
    ∃ s', step cfg s s' ∧ potential cfg s' < potential cfg s) as Hgo.
  { intros sh' c' Hstep Hstop Hlt. eexists. split.
    - exists (Consumer i). simpl. rewrite Hc. simpl. rewrite Hstep. simpl.
      reflexivity.
    - specialize (Hsum c' Hc). unfold potential. simpl. rewrite Hstop. lia. }
  destruct c as [| | | |it|]; simpl in Hprod; try done.
  - eapply Hgo; [simpl; reflexivity|done|].
    destruct (stop_event (sh s)); simpl; lia.
  - destruct Hprod as [Hstop Hq]. eapply Hgo; [simpl; reflexivity|done|].
    unfold Queue.empty, Queue.qsize. rewrite Hq, Hstop. simpl. lia.
  - simpl in Hgo. unfold Queue.get in Hgo.
    destruct (Queue.items (work_queue (sh s))) as [|it rest] eqn:Hq.
    + destruct Hprod as [Hstop|]; [|done].
      eapply Hgo; [reflexivity|done|]. rewrite Hstop. simpl. lia.
    + eapply Hgo; [reflexivity|done|].
      destruct (stop_event (sh s)); simpl; lia.
  - simpl in Hgo, Hw. unfold Queue.task_done in Hgo.
    destruct (Queue.unfinished_tasks (work_queue (sh s))) as [|n] eqn:Hn;
      [lia|].
    eapply Hgo; [reflexivity|done|].
    destruct (stop_event (sh s)); simpl; lia.
Qed.

(** Before the event is set, while an item is held or pending, some
    consumer has a useful step. *)
Lemma potential_consumers cfg s :
  pc_inv cfg s → started_inv cfg s → 0 < num_consumers cfg →
  started_consumers cfg (main s) = num_consumers cfg →
  stop_event (sh s) = false →
  0 < Queue.unfinished_tasks (work_queue (sh s)) →
  ∃ s', step cfg s s' ∧ potential cfg s' < potential cfg s.
Proof.
  intros Hinv [_ Hstarted] Hpos Hall Hstop Hunf.
  pose proof (inv_unfinished _ _ Hinv) as Hsum.
  destruct (decide (0 < sum_list_with working (consumers s))) as [Hw|Hw].
  - apply sum_list_with_pos in Hw as (i & c & Hc & Hwc).
    eapply potential_consumer; [done..|].
    destruct c; simpl in *; first [lia|done].
  - destruct (lookup_lt_is_Some_2 (consumers s) 0) as [c Hc].
    { rewrite (inv_consumers_length _ _ Hinv). lia. }
    eapply potential_consumer; [done..|].
    pose proof (inv_exit _ _ Hinv 0 c Hc) as Hexit.
    pose proof (Hstarted 0 c) as Hnew. rewrite Hall in Hnew.
    destruct c; simpl; try done.
    + by destruct Hnew.
    + rewrite Hstop in Hexit.
      by assert (false = true) by (apply Hexit; by left).
    + right. intros Hq. rewrite Hq in Hsum. simpl in Hsum. lia.
    + rewrite Hstop in Hexit.
      by assert (false = true) by (apply Hexit; by right).
Qed.

(** Until the main thread has finished, some thread has a step that
    brings the end of the program closer. *)
Lemma pc_can_progress cfg s :
  reachable cfg s → 0 < num_consumers cfg → main s ≠ M_finished →
  ∃ s', step cfg s s' ∧ potential cfg s' < potential cfg s.
Proof.
  intros Hs Hpos Hnf.
  pose proof (pc_inv_reachable _ _ Hs) as Hinv.
  pose proof (started_inv_reachable _ _ Hs) as Hstarted.
  assert (∀ s', run_producer_consumer_example cfg s = Some s' →
    ∃ s', step cfg s s' ∧ potential cfg s' < potential cfg s) as Hmain.
  { intros s' Hstep. exists s'. split; [by exists Main|].
    by apply potential_main. }
  pose proof (inv_stop _ _ Hinv) as Hstop.
  unfold run_producer_consumer_example in Hmain.
  destruct (main s) as [i|i|i| | |i|] eqn:Hm; simpl in Hstop; [| | | | | |done].
  - case_bool_decide; eauto.
  - case_bool_decide; eauto.
  - case_bool_decide as Hi; [|eauto].
    destruct (lookup_lt_is_Some_2 (producers s) i) as [p Hp].
    { by rewrite (inv_producers_length _ _ Hinv). }
    rewrite Hp in Hmain. destruct p as [|k|]; [| |eauto].
    + destruct Hstarted as [Hsp _]. destruct (Hsp i P_new); try done.
      by rewrite Hm.
    + destruct (Queue.full (work_queue (sh s))) eqn:Hfull;
        [|by eapply potential_producer; eauto].
      apply potential_consumers; try done; [by rewrite Hm|].
      pose proof (inv_unfinished _ _ Hinv) as Hunf.
      unfold Queue.full, Queue.qsize in Hfull.
      apply andb_true_iff in Hfull as [H1%bool_decide_eq_true
                                        H2%bool_decide_eq_true].
      lia.
  - unfold Queue.join in Hmain.
    case_bool_decide as Hunf; [simpl in Hmain; eauto|].
    apply potential_consumers; try done; [by rewrite Hm|lia].
  - eauto.
  - case_bool_decide as Hi; [|eauto].
    destruct (lookup_lt_is_Some_2 (consumers s) i) as [c Hc].
    { by rewrite (inv_consumers_length _ _ Hinv). }
    rewrite Hc in Hmain.
    destruct (pc_inv_drained cfg s Hinv) as (Hq & Hunf & _);
      [by rewrite Hm|].
    pose proof (inv_unfinished _ _ Hinv) as Hsum.
    pose proof (sum_list_with_lookup working _ _ _ Hc) as Hw.
    destruct c as [| | | |it|]; [| | | | |eauto].
    + destruct Hstarted as [_ Hsc]. destruct (Hsc i C_new); try done.
      by rewrite Hm.
    + by eapply potential_consumer.
    + by eapply potential_consumer.
    + eapply potential_consumer; [done..|]. by left.
    + simpl in Hw. lia.
Qed.

(** From every state of a run the program can run to its end. *)
Lemma pc_can_finish cfg s :
  reachable cfg s → 0 < num_consumers cfg →
  ∃ s', rtc (step cfg) s s' ∧ main s' = M_finished.
Proof.
  intros Hs Hpos. remember (potential cfg s) as n eqn:Hn.
  revert s Hs Hn. induction (lt_wf n) as [n _ IH]. intros s Hs ->.
  assert (main s = M_finished ∨ main s ≠ M_finished) as [Hm|Hm]
    by (destruct (main s); auto).
  { by exists s. }
  destruct (pc_can_progress cfg s Hs Hpos Hm) as (s1 & Hstep & Hlt).
  destruct (IH _ Hlt s1) as (s' & Hrun & Hfin); [|done|].
  - by eapply rtc_r.
  - exists s'. split; [|done]. by eapply rtc_l.
Qed.

(** C2. In every run of the program, for any numbers of producers and
    consumers and any capacity: the items returned by [get] followed by
    the items held are the items put, in order, so that their numbers add
    up; no item occurs twice among them, so none is returned twice; when
    the program has finished, every item put has been returned:
    [num_producers * num_items_per_producer] items; and with at least one
    consumer the program can always run to its end. *)
Theorem queue_conservation (cfg : config) (s : state) :
  reachable cfg s →
  get_log (sh s) ++ Queue.items (work_queue (sh s)) = put_log (sh s)
  ∧ length (get_log (sh s)) + Queue.count (work_queue (sh s))
    = length (put_log (sh s))
  ∧ NoDup (get_log (sh s) ++ Queue.items (work_queue (sh s)))
  ∧ (main s = M_finished →
     get_log (sh s) = put_log (sh s)
     ∧ length (get_log (sh s))
       = num_producers cfg * num_items_per_producer cfg)
  ∧ (0 < num_consumers cfg →
     ∃ s', rtc (step cfg) s s' ∧ main s' = M_finished).
Proof.
  intros Hs. pose proof (pc_inv_reachable _ _ Hs) as Hinv.
  pose proof (inv_fifo _ _ Hinv) as Hfifo. split_and!.
  - done.
  - rewrite <-Hfifo, length_app. done.
  - rewrite Hfifo. apply (inv_put_nodup _ _ Hinv).
  - intros Hm.
    destruct (pc_inv_drained cfg s Hinv) as (_ & _ & Hlog);
      [by rewrite Hm|].
    split; [done|]. rewrite Hlog, (inv_put_length _ _ Hinv).
    rewrite sum_produced_finished, (inv_producers_length _ _ Hinv); [done|].
    apply (pc_inv_producers_finished cfg); [done|by rewrite Hm].
  - by apply pc_can_finish.
Qed.

Lemma queue_conservation_witness :
  let s := run example_config example_schedule (init example_config) in
  length (get_log (sh s)) = 10 ∧ get_log (sh s) = put_log (sh s).
Proof.
  intros s.
  assert (reachable example_config s) as Hs.
  { apply pc_run_reachable. apply rtc_refl. }
  destruct (queue_conservation example_config s Hs)
    as (_ & _ & _ & Hfin & _).
  destruct Hfin as [Hlog Hlen]; [vm_compute; reflexivity|].
  split; [exact Hlen|exact Hlog].
Defined.

Lemma pc_inv_is_drained cfg s :
  pc_inv cfg s → join_returned (main s) = true →
  Queue.isDrained (work_queue (sh s)) = true.
Proof.
  intros Hinv Hj. destruct (pc_inv_drained cfg s Hinv Hj) as (Hq & Hunf & _).
  unfold Queue.isDrained, Queue.count, Queue.pending, Queue.qsize.
  rewrite Hq, Hunf. done.
Qed.

(** C3. In every run of the program: whenever the event is set, the main
    thread has joined every producer and [work_queue.join()] has
    returned, every producer has finished, and the queue is drained,
    every item put having been returned by [get] and marked done; the
    step that sets the event is taken in such a state; whenever a
    consumer has terminated the queue is drained; and with at least one
    consumer the program can always run to its end, where every consumer
    has been joined. *)
Theorem shutdown_after_drain (cfg : config) (s : state) :
  reachable cfg s →
  (stop_event (sh s) = true →
     joined_producers cfg (main s) = num_producers cfg
     ∧ join_returned (main s) = true
     ∧ Forall (λ p, p = P_finished) (producers s)
     ∧ Queue.isDrained (work_queue (sh s)) = true
     ∧ get_log (sh s) = put_log (sh s))
  ∧ (∀ s', step cfg s s' →
       stop_event (sh s) = false → stop_event (sh s') = true →
       main s = M_stop_set
       ∧ Forall (λ p, p = P_finished) (producers s)
       ∧ Queue.isDrained (work_queue (sh s)) = true)
  ∧ (∀ j, consumers s !! j = Some C_finished →
       stop_event (sh s) = true
       ∧ Queue.isDrained (work_queue (sh s)) = true)
  ∧ (0 < num_consumers cfg →
     ∃ s', rtc (step cfg) s s' ∧ main s' = M_finished
           ∧ Forall (λ c, c = C_finished) (consumers s')).
Proof.
  intros Hs. pose proof (pc_inv_reachable _ _ Hs) as Hinv.
  assert (stop_event (sh s) = true →
          joined_producers cfg (main s) = num_producers cfg
          ∧ join_returned (main s) = true) as Hphase.
  { rewrite (inv_stop _ _ Hinv). by destruct (main s). }
  split_and!.
  - intros [Hjp Hjr]%Hphase. split_and!; [done..| | |].
    + by apply (pc_inv_producers_finished cfg).
    + by apply (pc_inv_is_drained cfg).
    + by apply (pc_inv_drained cfg).
  - intros s' Hstep Hoff Hon.
    pose proof (pc_inv_step _ _ _ Hinv Hstep) as Hinv'.
    assert (main s = M_stop_set) as Hm.
    { pose proof (inv_stop _ _ Hinv) as Hst.
      pose proof (inv_stop _ _ Hinv') as Hst'.
      rewrite Hoff in Hst. rewrite Hon in Hst'.
      destruct Hstep as [[|i|i] Hstep]; simpl in Hstep.
      - unfold run_producer_consumer_example in Hstep.
        destruct (main s); simpl in *; try done;
          repeat (case_bool_decide || case_match);
          simplify_option_eq; simpl in *; congruence.
      - destruct (producers s !! i); simplify_eq/=.
        destruct (producer _ _ _ _) as [[]|]; simplify_eq/=. congruence.
      - destruct (consumers s !! i); simplify_eq/=.
        destruct (consumer _ _) as [[]|]; simplify_eq/=. congruence. }
    split_and!; [done| |].
    + apply (pc_inv_producers_finished cfg); [done|by rewrite Hm].
    + apply (pc_inv_is_drained cfg); [done|by rewrite Hm].
  - intros j Hj.
    assert (stop_event (sh s) = true) as Hstop.
    { eapply (inv_exit _ _ Hinv); eauto. }
    split; [done|]. apply (pc_inv_is_drained cfg); [done|].
    by apply Hphase.
  - intros Hpos. destruct (pc_can_finish cfg s Hs Hpos) as (s' & Hrun & Hm).
    exists s'. split_and!; [done..|].
    assert (pc_inv cfg s') as Hinv'.
    { apply pc_inv_reachable. by eapply reachable_trans. }
    apply Forall_lookup_2. intros j c Hc.
    pose proof (lookup_lt_Some _ _ _ Hc) as Hlt.
    rewrite (inv_consumers_length _ _ Hinv') in Hlt.
    pose proof (inv_joined_consumers _ _ Hinv' j) as Hj.
    rewrite Hm in Hj. simpl in Hj. specialize (Hj Hlt). congruence.
Qed.

Lemma shutdown_after_drain_witness :
  let s := run example_config example_schedule (init example_config) in
  stop_event (sh s) = true
  ∧ Forall (λ p, p = P_finished) (producers s)
  ∧ Queue.isDrained (work_queue (sh s)) = true.
Proof.
  intros s.
  assert (reachable example_config s) as Hs.
  { apply pc_run_reachable. apply rtc_refl. }
  assert (stop_event (sh s) = true) as Hstop by (vm_compute; reflexivity).
  destruct (shutdown_after_drain example_config s Hs) as (Hset & _).
  destruct (Hset Hstop) as (_ & _ & Hp & Hd & _).
  split_and!; [exact Hstop|exact Hp|exact Hd].
Defined.

(** In an execution of the consumer loop the consumer is at the test of
    the queue, or past the loop, only if the event is set. *)
Lemma consumer_loop_event sh0 sh1 c1 :
  rtc consumer_loop (sh0, C_while) (sh1, c1) →
  c1 ≠ C_new ∧ (c1 = C_empty ∨ c1 = C_finished → stop_event sh1 = true).
Proof.
  intros Hrun.
  assert (∀ x, rtc consumer_loop (sh0, C_while) x →
               x.2 ≠ C_new
               ∧ (x.2 = C_empty ∨ x.2 = C_finished → stop_event x.1 = true))
    as Hgen; [|by apply (Hgen (sh1, c1))].
  clear. apply rtc_ind_r.
  - simpl. split; [done|]. by intros [|].
  - intros x y _ Hstep [Hnew IH]. destruct Hstep as [sh c sh' c' Hc|sh sh' c Henv];
      simpl in *.
    + destruct c; simplify_eq/=.
      * destruct (stop_event sh') eqn:Hs; [done|]. split; [done|]. by intros [|].
      * split; [by destruct (Queue.empty _)|]. intros _. by apply IH; left.
      * unfold Queue.get in Hc.
        destruct (Queue.items (work_queue sh)); simplify_eq/=;
          (split; [done|]; by intros [|]).
      * destruct (Queue.task_done _); simplify_eq/=.
        split; [done|]. by intros [|].
    + split; [done|]. intros Hc. by apply Henv, IH.
Qed.

(** C4. In every run of the program, for every consumer: the step by
    which it leaves the loop is taken at the test [queue_obj.empty()], in
    a state where the event is set and the queue is empty, and changes
    nothing; when [get] times out on the empty queue the consumer goes
    back to the loop condition, the state unchanged, where it tests the
    event and then the queue; when [get] succeeds the consumer holds the
    oldest item, and its next step is [task_done()], which succeeds and
    leads back to the loop condition.  The same holds of the loop on its
    own, whatever the other threads do to the queue and provided they do
    not clear the event: in every execution of the loop the consumer
    exits only by the test [queue_obj.empty()], with the event set and
    the queue empty at that step; with the event set and an item in the
    queue (as in [test_consumer]) it does not exit: the test of the queue
    sends it back to [get], which returns the oldest item. *)
Theorem consumer_loop_exit (cfg : config) (s : state) (i : nat) (c : cpc) :
  reachable cfg s → consumers s !! i = Some c →
  (∀ s', step_thread cfg (Consumer i) s = Some s' →
     consumers s' !! i = Some C_finished →
     c = C_empty ∧ stop_event (sh s) = true
     ∧ Queue.empty (work_queue (sh s)) = true ∧ sh s' = sh s)
  ∧ (c = C_get → Queue.items (work_queue (sh s)) = [] →
     consumer (sh s) c = Some (sh s, C_while))
  ∧ (c = C_while →
     consumer (sh s) c
     = Some (sh s, if stop_event (sh s) then C_empty else C_get))
  ∧ (c = C_empty →
     stop_event (sh s) = true
     ∧ consumer (sh s) c
       = Some (sh s, if Queue.empty (work_queue (sh s))
                     then C_finished else C_get))
  ∧ (∀ it rest,
     c = C_get → Queue.items (work_queue (sh s)) = it :: rest →
     ∃ sh', consumer (sh s) c = Some (sh', C_work it)
            ∧ Queue.items (work_queue sh') = rest
            ∧ get_log sh' = get_log (sh s) ++ [it])
  ∧ (∀ it, c = C_work it →
     ∃ sh', consumer (sh s) c = Some (sh', C_while)
            ∧ S (Queue.unfinished_tasks (work_queue sh'))
              = Queue.unfinished_tasks (work_queue (sh s))
            ∧ Queue.items (work_queue sh') = Queue.items (work_queue (sh s)))
  ∧ (∀ sh0 sh1 c1 sh2,
     rtc consumer_loop (sh0, C_while) (sh1, c1) →
     consumer sh1 c1 = Some (sh2, C_finished) →
     c1 = C_empty ∧ stop_event sh1 = true
     ∧ Queue.empty (work_queue sh1) = true ∧ sh2 = sh1)
  ∧ (∀ sh0 it rest,
     stop_event sh0 = true → Queue.items (work_queue sh0) = it :: rest →
     consumer sh0 C_while = Some (sh0, C_empty)
     ∧ consumer sh0 C_empty = Some (sh0, C_get)
     ∧ ∃ sh1, consumer sh0 C_get = Some (sh1, C_work it)
              ∧ Queue.items (work_queue sh1) = rest
              ∧ get_log sh1 = get_log sh0 ++ [it]).
Proof.
  intros Hinv%pc_inv_reachable Hc. split_and!.
  - intros s' Hstep Hfin. simpl in Hstep. rewrite Hc in Hstep. simpl in Hstep.
    destruct (consumer (sh s) c) as [[sh' c']|] eqn:Hcs; simplify_eq/=.
    rewrite list_lookup_insert_eq in Hfin by (by eapply lookup_lt_Some).
    simplify_eq. destruct c; simplify_eq/=.
    + by destruct (stop_event (sh s)).
    + destruct (Queue.empty _) eqn:He; simplify_eq/=.
      split_and!; try done. eapply (inv_exit _ _ Hinv); eauto.
    + unfold Queue.get in Hcs. by repeat case_match.
    + by destruct (Queue.task_done _).
  - intros -> Hq. simpl. unfold Queue.get. rewrite Hq.
    by destruct (sh s).
  - by intros ->.
  - intros ->. split; [|done]. eapply (inv_exit _ _ Hinv); eauto.
  - intros it rest -> Hq. simpl. unfold Queue.get. rewrite Hq. eauto.
  - intros it ->. simpl. unfold Queue.task_done.
    pose proof (inv_unfinished _ _ Hinv) as Hunf.
    pose proof (sum_list_with_lookup working _ _ _ Hc) as Hw. simpl in Hw.
    destruct (Queue.unfinished_tasks (work_queue (sh s))); [lia|].
    simpl. eauto.
  - intros sh0 sh1 c1 sh2 Hrun Hexit.
    destruct (consumer_loop_event _ _ _ Hrun) as [_ Hevent].
    destruct c1 as [| | | |it|]; simpl in Hexit; [done| | | | |done].
    + by destruct (stop_event sh1).
    + destruct (Queue.empty (work_queue sh1)) eqn:He; [|done].
      injection Hexit as <-. split_and!; try done. apply Hevent. by left.
    + unfold Queue.get in Hexit. by repeat case_match.
    + by destruct (Queue.task_done _).
  - intros sh0 it rest Hstop Hq. simpl. rewrite Hstop.
    unfold Queue.empty, Queue.qsize, Queue.get. rewrite Hq. simpl.
    split_and!; [done..|]. eauto.
Qed.

(** The consumer that leaves the loop at the end of the run of the
    example, the queue drained; and the consumer of [test_consumer],
    which finds the event set and five items in the queue, and takes the
    first. *)
Lemma consumer_loop_exit_witness :
  let s := run example_config example_schedule_stop (init example_config) in
  consumers s !! 0 = Some C_empty
  ∧ consumer (sh s) C_empty = Some (sh s, C_finished)
  ∧ consumer queued_stop C_empty = Some (queued_stop, C_get)
  ∧ ∃ sh1, consumer queued_stop C_get = Some (sh1, C_work "Item-0-0")
           ∧ get_log sh1 = ["Item-0-0"]%string.
Proof.
  intros s.
  assert (reachable example_config s) as Hs.
  { apply pc_run_reachable. apply rtc_refl. }
  assert (consumers s !! 0 = Some C_empty) as Hc by (vm_compute; reflexivity).
  destruct (consumer_loop_exit example_config s 0 C_empty Hs Hc)
    as (_ & _ & _ & Hexit & _ & _ & _ & Hqueued).
  destruct (Hexit eq_refl) as [_ Hstep].
  destruct (Hqueued queued_stop "Item-0-0"%string (item 0 <$> seq 1 4))
    as (_ & Hempty & sh1 & Hget & _ & Hlog); [reflexivity..|].
  split; [exact Hc|]. split; [rewrite Hstep; vm_compute; reflexivity|].
  split; [exact Hempty|]. exists sh1. split; [exact Hget|exact Hlog].
Defined.

(** With one producer, the items put are its items in index order. *)
Lemma single_producer_log cfg s :
  num_producers cfg = 1 → reachable cfg s →
  ∃ p, producers s = [p]
       ∧ put_log (sh s)
         = item 0 <$> seq 0 (produced (num_items_per_producer cfg) p).
Proof.
  intros Hone. revert s. apply rtc_ind_r.
  - exists P_new. simpl. by rewrite Hone.
  - intros s s' Hinv%pc_inv_reachable [t Hstep] (p & Hp & Hlog).
    destruct t as [|i|i]; simpl in Hstep.
    + unfold run_producer_consumer_example in Hstep.
      destruct (main s) as [i|i|i| | |i|] eqn:Hm; simplify_eq/=;
        repeat (case_bool_decide || case_match); simplify_option_eq;
        simpl; eauto.
      assert (i = 0) as -> by lia.
      pose proof (inv_new_producers _ _ Hinv 0) as Hnew.
      rewrite Hm, Hp in Hnew. simpl in Hnew.
      assert (p = P_new) as ->.
      { assert (Some p = Some P_new) as [= ->]; [apply Hnew; lia|done]. }
      rewrite Hp. simpl. eauto.
    + rewrite Hp in Hstep. destruct i as [|i]; simplify_eq/=.
      destruct p as [|k|]; simplify_eq/=.
      case_bool_decide as Hk; simplify_option_eq.
      * exists (P_for (S k)). split; [done|]. cbn [sh put_log produced].
        by rewrite Hlog, seq_S, fmap_app.
      * exists P_finished. simpl. split; [done|].
        rewrite Hlog. do 2 f_equal.
        pose proof (inv_for_bound _ _ Hinv 0 k) as Hb. rewrite Hp in Hb.
        specialize (Hb eq_refl). lia.
    + destruct (consumers s !! i); simplify_eq/=.
      destruct (consumer _ _) as [[sh' c']|] eqn:Hcs; simplify_eq/=.
      exists p. split; [done|]. rewrite <-Hlog.
      destruct c; simplify_eq/=; try done.
      * unfold Queue.get in Hcs. by repeat case_match; simplify_eq/=.
      * by destruct (Queue.task_done _); simplify_eq/=.
Qed.

(** C5. With one producer and one consumer, in every run: the items put
    are [Item-0-0], [Item-0-1], ... in index order, at most
    [num_items_per_producer] of them; the items returned by [get] are the
    first of these, in the same order, the rest being the content of the
    queue; when the program has finished all of them have been returned;
    and the program can always run to its end.  For any producer
    identifier, the step of a producer at index [i] appends
    [Item-id-i], and nothing else, to the queue. *)
Theorem fifo_single_producer_consumer (cfg : config) (s : state) :
  num_producers cfg = 1 → num_consumers cfg = 1 → reachable cfg s →
  ∃ k, k ≤ num_items_per_producer cfg
    ∧ put_log (sh s) = item 0 <$> seq 0 k
    ∧ get_log (sh s) ++ Queue.items (work_queue (sh s)) = put_log (sh s)
    ∧ get_log (sh s) = item 0 <$> seq 0 (length (get_log (sh s)))
    ∧ (main s = M_finished →
       get_log (sh s) = item 0 <$> seq 0 (num_items_per_producer cfg))
    ∧ (∃ s', rtc (step cfg) s s' ∧ main s' = M_finished
             ∧ get_log (sh s')
               = item 0 <$> seq 0 (num_items_per_producer cfg))
    ∧ (∀ n id sh0 i sh' p',
         producer sh0 id n (P_for i) = Some (sh', p') → i < n →
         p' = P_for (S i)
         ∧ Queue.items (work_queue sh')
           = Queue.items (work_queue sh0) ++ [item id i]
         ∧ put_log sh' = put_log sh0 ++ [item id i]).
Proof.
  intros Hone Hcons Hs.
  assert (∀ s, reachable cfg s → main s = M_finished →
    get_log (sh s) = item 0 <$> seq 0 (num_items_per_producer cfg)) as Hend.
  { clear s Hs. intros s Hs Hm. pose proof (pc_inv_reachable _ _ Hs) as Hinv.
    destruct (single_producer_log cfg s Hone Hs) as (p & Hp & Hlog).
    destruct (pc_inv_drained cfg s Hinv) as (_ & _ & Hall);
      [by rewrite Hm|].
    rewrite Hall, Hlog.
    pose proof (pc_inv_producers_finished cfg s Hinv) as Hfin.
    rewrite Hm, Hp in Hfin. specialize (Hfin eq_refl).
    by apply Forall_singleton in Hfin as ->. }
  pose proof (pc_inv_reachable _ _ Hs) as Hinv.
  destruct (single_producer_log cfg s Hone Hs) as (p & Hp & Hlog).
  pose proof (inv_fifo _ _ Hinv) as Hfifo.
  exists (produced (num_items_per_producer cfg) p). split_and!; try done.
  - destruct p as [|k|]; simpl; [lia| |lia].
    apply (inv_for_bound _ _ Hinv 0). by rewrite Hp.
  - rewrite Hlog in Hfifo.
    assert (get_log (sh s)
            = take (length (get_log (sh s)))
                (get_log (sh s) ++ Queue.items (work_queue (sh s)))) as Hg.
    { by rewrite take_app_length. }
    rewrite Hfifo, <-fmap_take, take_seq in Hg.
    assert (length (get_log (sh s))
            ≤ produced (num_items_per_producer cfg) p) as Hle.
    { apply (f_equal length) in Hfifo.
      rewrite length_app, length_fmap, length_seq in Hfifo. lia. }
    by rewrite Nat.min_l in Hg.
  - by apply Hend.
  - destruct (pc_can_finish cfg s Hs) as (s' & Hrun & Hm); [lia|].
    exists s'. split_and!; [done..|].
    apply Hend; [by eapply reachable_trans|done].
  - intros n id sh0 i sh' p' Hstep Hi. simpl in Hstep.
    rewrite bool_decide_eq_true_2 in Hstep by done.
    unfold Queue.put in Hstep.
    destruct (Queue.full (work_queue sh0)); by simplify_eq/=.
Qed.

Lemma fifo_single_producer_consumer_witness :
  let s := run single_config single_schedule (init single_config) in
  main s = M_finished
  ∧ get_log (sh s) = ["Item-0-0"; "Item-0-1"; "Item-0-2"]%string.
Proof.
  intros s.
  assert (reachable single_config s) as Hs.
  { apply pc_run_reachable. apply rtc_refl. }
  assert (main s = M_finished) as Hm by (vm_compute; reflexivity).
  destruct (fifo_single_producer_consumer single_config s eq_refl eq_refl Hs)
    as (k & _ & _ & _ & _ & Hfin & _).
  split; [exact Hm|]. rewrite (Hfin Hm). vm_compute. reflexivity.
Defined.

(** C8. For every state of the queue, [get] with a timeout either
    returns the oldest item, which it removes, the count going down by
    one, or fails with [Empty]; in the latter case the queue is
    unchanged and still valid, a second [get] fails in the same way, a
    [get] after a [put] returns the item put, and the consumer goes back
    to its loop condition with the shared state unchanged. *)
Theorem get_timeout_recoverable (sh0 : shared) :
  Queue.valid (work_queue sh0) →
  match Queue.get (work_queue sh0) with
  | (Queue.Got x, q') =>
      Queue.items (work_queue sh0) = x :: Queue.items q'
      ∧ S (Queue.count q') = Queue.count (work_queue sh0)
      ∧ Queue.maxsize q' = Queue.maxsize (work_queue sh0)
      ∧ Queue.unfinished_tasks q' = Queue.unfinished_tasks (work_queue sh0)
      ∧ Queue.valid q'
  | (Queue.Empty, q') =>
      Queue.count (work_queue sh0) = 0
      ∧ q' = work_queue sh0
      ∧ Queue.valid q'
      ∧ Queue.get q' = (Queue.Empty, q')
      ∧ (∀ x, ∃ q1 q2, Queue.put x q' = Some q1
                       ∧ Queue.get q1 = (Queue.Got x, q2))
      ∧ consumer sh0 C_get = Some (sh0, C_while)
  end.
Proof.
  intros Hvalid.
  destruct (Queue.get (work_queue sh0)) as [[x|] q'] eqn:Hget.
  - by apply queue_get_got.
  - destruct (queue_get_empty _ _ Hvalid Hget) as (H0 & -> & Hv & Hg & Hput).
    split_and!; try done. simpl. rewrite Hget. by destruct sh0.
Qed.

Lemma get_timeout_recoverable_witness :
  let sh0 := sh (init example_config) in
  Queue.get (work_queue sh0) = (Queue.Empty, work_queue sh0)
  ∧ consumer sh0 C_get = Some (sh0, C_while).
Proof.
  intros sh0.
  assert (Queue.valid (work_queue sh0)) as Hvalid.
  { unfold Queue.valid, Queue.qsize. simpl. split; [right|]; lia. }
  pose proof (get_timeout_recoverable sh0 Hvalid) as Hget.
  simpl in Hget. destruct Hget as (_ & _ & _ & Hg & _ & Hc).
  split; [exact Hg|exact Hc].
Defined.

End prodcons_facts.

(** ** The executor *)

Section executor_facts.
Import Executor.
Context {W A R : Type} (fn : A → W → R * W).
Implicit Types e : Executor.t W A R.

Lemma exec_inv_create max_workers w :
  exec_inv fn max_workers (create max_workers w).
Proof.
  split; simpl; try done.
  - apply length_replicate.
  - by intros w' h [? _]%lookup_replicate.
  - by intros h ?%elem_of_nil.
  - intros h ?. lia.
Qed.

Lemma mjoin_lookup_snoc_None (l : list (option R)) (h : nat) :
  mjoin ((l ++ [None]) !! h) = mjoin (l !! h).
Proof.
  destruct (decide (h < length l)) as [Hlt|Hge].
  - by rewrite lookup_app_l.
  - rewrite lookup_app_r, (lookup_ge_None_2 l h) by lia.
    by destruct (h - length l) as [|[|n]].
Qed.

Lemma exec_inv_submit max_workers a e :
  exec_inv fn max_workers e → exec_inv fn max_workers (submit a e).2.
Proof.
  intros [Hargs Hworkers Hrun Hqueue Hacc Hres].
  split; simpl.
  - rewrite !length_app. simpl. lia.
  - done.
  - intros w h Hw. rewrite length_app. apply Hrun in Hw. lia.
  - intros h [Hh| ->%list_elem_of_singleton]%elem_of_app; rewrite length_app;
      simpl; [apply Hqueue in Hh|]; lia.
  - intros h Hh. rewrite length_app in Hh. simpl in Hh.
    destruct (decide (h = length (futures e))) as [->|Hne].
    + left. apply elem_of_app. right. by apply list_elem_of_singleton.
    + assert (h < length (futures e)) as Hlt by lia.
      destruct (Hacc h Hlt) as [Hq|[Hw|Hd]].
      * left. apply elem_of_app. by left.
      * by right; left.
      * right; right. unfold result in *. simpl.
        by rewrite mjoin_lookup_snoc_None.
  - intros h r Hr. unfold result in *. simpl in Hr.
    rewrite mjoin_lookup_snoc_None in Hr.
    destruct (Hres h r Hr) as (a' & w & Ha & ->).
    exists a', w. split; [|done]. by apply lookup_app_l_Some.
Qed.

Lemma exec_inv_worker_step max_workers w e e' :
  exec_inv fn max_workers e → worker_step fn w e = Some e' →
  exec_inv fn max_workers e'
  ∧ S (workers_measure e') = workers_measure e
  ∧ args e' = args e ∧ length (futures e') = length (futures e).
Proof.
  intros [Hargs Hworkers Hrun Hqueue Hacc Hres] Hstep.
  unfold worker_step in Hstep.
  destruct (workers e !! w) as [p|] eqn:Hw; simplify_eq/=.
  unfold workers_measure.
  destruct p as [|h].
  - (* a handle is taken *)
    destruct (work_queue e) as [|h rest] eqn:Hq; simplify_eq/=.
    pose proof (sum_list_with_insert running _ _ _ (Running h) Hw) as Hsum.
    simpl in Hsum. split_and!; try done; [|lia].
    split; simpl; try done.
    + by rewrite length_insert.
    + intros w' h' [[_ ?]|[_ ?]]%lookup_insert_cases; simplify_eq; eauto.
      apply Hqueue. by left.
    + intros h' Hh'. apply Hqueue. by right.
    + intros h' Hh'. destruct (Hacc h' Hh') as [Hin|[[w' Hw']|Hd]].
      * apply elem_of_cons in Hin as [->|Hin]; [|by left].
        right; left. exists w. apply list_lookup_insert_eq.
        by eapply lookup_lt_Some.
      * right; left. exists w'. rewrite list_lookup_insert_ne; [done|].
        intros ->. congruence.
      * by right; right.
  - (* a call completes *)
    destruct (args e !! h) as [a|] eqn:Ha; simplify_eq/=.
    destruct (fn a (world e)) as [r wd] eqn:Hfn; simplify_eq/=.
    pose proof (sum_list_with_insert running _ _ _ Idle Hw) as Hsum.
    simpl in Hsum.
    assert (h < length (futures e)) as Hh by eauto.
    assert (∀ h', h' ≠ h →
      result h' {| args := args e; work_queue := work_queue e;
                   workers := <[w:=Idle]> (workers e);
                   futures := <[h:=Some r]> (futures e); world := wd |}
      = result h' e) as Hother.
    { intros h' Hne. unfold result. simpl.
      by rewrite list_lookup_insert_ne. }
    split_and!; try done; [|lia|by rewrite length_insert].
    + split; simpl; try done.
      * by rewrite length_insert.
      * by rewrite length_insert.
      * intros w' h' [[_ ?]|[_ ?]]%lookup_insert_cases; simplify_eq.
        rewrite length_insert. eauto.
      * intros h' Hh'. rewrite length_insert. eauto.
      * intros h' Hh'. rewrite length_insert in Hh'.
        destruct (decide (h' = h)) as [->|Hne].
        { right; right. unfold result. simpl.
          rewrite list_lookup_insert_eq by done. by eexists. }
        destruct (Hacc h' Hh') as [Hin|[[w' Hw']|Hd]].
        -- by left.
        -- right; left. exists w'. rewrite list_lookup_insert_ne; [done|].
           intros ->. congruence.
        -- right; right. by rewrite Hother.
      * intros h' r' Hr'. destruct (decide (h' = h)) as [->|Hne].
        -- unfold result in Hr'. simpl in Hr'.
           rewrite list_lookup_insert_eq in Hr' by done. simplify_eq/=.
           exists a, (world e). by rewrite Hfn.
        -- rewrite Hother in Hr' by done. eauto.
Qed.

Lemma forallb_idle_running (ws : list wpc) :
  forallb idle ws = false → 0 < sum_list_with running ws.
Proof.
  induction ws as [|[|h] ws IH]; simpl; [done| |lia]. intros ?%IH. lia.
Qed.

Lemma shutdown_Some e e' : shutdown e = Some e' → e' = e.
Proof. unfold shutdown. intros; by repeat case_match; simplify_eq. Qed.

Lemma shutdown_None e :
  shutdown e = None →
  work_queue e ≠ [] ∨ 0 < sum_list_with running (workers e).
Proof.
  unfold shutdown. destruct (work_queue e); [|by left].
  destruct (forallb idle (workers e)) eqn:Hidle; [done|].
  right. by apply forallb_idle_running.
Qed.

(** While a call is waiting or running, some worker can take a step. *)
Lemma exec_progress max_workers e :
  exec_inv fn max_workers e → 0 < max_workers →
  work_queue e ≠ [] ∨ 0 < sum_list_with running (workers e) →
  ∃ w e', worker_step fn w e = Some e'.
Proof.
  intros [Hargs Hworkers Hrun _ _ _] Hpos Hwork. unfold worker_step.
  destruct (decide (0 < sum_list_with running (workers e))) as [Hr|Hr].
  - apply sum_list_with_pos in Hr as (w & [|h] & Hw & Hp); simpl in Hp;
      [lia|].
    destruct (lookup_lt_is_Some_2 (args e) h) as [a Ha].
    { rewrite Hargs. eauto. }
    exists w. rewrite Hw. simpl. rewrite Ha. simpl.
    destruct (fn a (world e)). eauto.
  - destruct Hwork as [Hq|]; [|done].
    destruct (lookup_lt_is_Some_2 (workers e) 0) as [p Hp]; [lia|].
    pose proof (sum_list_with_lookup running _ _ _ Hp) as Hle.
    destruct p as [|h]; simpl in Hle; [|lia].
    exists 0. rewrite Hp. simpl. destruct (work_queue e); [done|eauto].
Qed.

(** A handle that is not done keeps a worker busy. *)
Lemma exec_pending_work max_workers e h :
  exec_inv fn max_workers e → h < length (futures e) → result h e = None →
  work_queue e ≠ [] ∨ 0 < sum_list_with running (workers e).
Proof.
  intros Hinv Hh Hnone.
  destruct (einv_account _ _ _ Hinv h Hh) as [Hin|[[w Hw]|[r Hr]]].
  - left. intros Hq. rewrite Hq in Hin. by apply elem_of_nil in Hin.
  - right. pose proof (sum_list_with_lookup running _ _ _ Hw). simpl in *.
    lia.
  - congruence.
Qed.
End executor_facts.

(** ** [map_example] *)

Section map_facts.
Import Executor ThreadPool.
Context {duration A R : Type}.
Context (fn : A → world duration → R * world duration) (f : A → R).
Context (numbers : list A) (max_workers : nat).
Implicit Types s : xstate duration A R.

Hypothesis fn_result : ∀ a w, (fn a w).1 = f a.

Lemma map_inv_init w0 :
  map_inv fn f numbers max_workers (map_init max_workers w0).
Proof.
  split; simpl; try done.
  - apply exec_inv_create.
  - lia.
Qed.

Lemma map_inv_step s s' :
  map_inv fn f numbers max_workers s → map_step fn numbers s s' →
  map_inv fn f numbers max_workers s'
  ∧ S (map_measure numbers s') = map_measure numbers s.
Proof.
  intros [Hexec Hfs Hargs Hlen Hmain] [[w|choice] Hstep]; simpl in Hstep.
  - (* a worker *)
    destruct (worker_step fn w (xexecutor s)) as [e'|] eqn:Hw; simplify_eq/=.
    destruct (exec_inv_worker_step fn _ _ _ _ Hexec Hw)
      as (Hexec' & Hm & Hargs' & Hlen').
    split; [|unfold map_measure; simpl; lia].
    split; simpl; try done; congruence.
  - (* the main thread *)
    unfold map_example in Hstep. unfold map_measure.
    destruct (xmain s) as [i|i| |] eqn:Hm; simplify_eq/=.
    + destruct Hmain as [-> Hres].
      destruct (numbers !! length (fs s)) as [a|] eqn:Ha; simplify_eq/=.
      * pose proof (lookup_lt_Some _ _ _ Ha) as Hlt.
        split; [|unfold workers_measure; simpl; rewrite length_app; simpl;
                 lia].
        split; simpl.
        -- by apply exec_inv_submit.
        -- rewrite length_app. simpl. rewrite Nat.add_1_r, seq_S. simpl.
           by rewrite Hfs at 1.
        -- rewrite length_app. simpl. rewrite Nat.add_1_r.
           by rewrite (take_S_r _ _ a), Hargs.
        -- rewrite length_app. simpl. lia.
        -- rewrite length_app. simpl. split; [lia|done].
      * apply lookup_ge_None_1 in Ha.
        split; [|simpl; lia].
        split; simpl; try done. split_and!; [lia..|done].
    + destruct Hmain as (Hn & Hi & Hres).
      destruct (fs s !! i) as [h|] eqn:Hh; simplify_eq/=.
      * destruct (result h (xexecutor s)) as [r|] eqn:Hr; simplify_eq/=.
        pose proof (lookup_lt_Some _ _ _ Hh) as Hlt.
        rewrite Hfs in Hh. apply lookup_seq in Hh as [-> _]. simpl in Hr.
        destruct (einv_result _ _ _ Hexec _ _ Hr) as (a & w & Ha & ->).
        rewrite Hargs, Hn, take_ge in Ha by done.
        split; [|simpl; lia].
        split; simpl; try done. split_and!; [done|lia|].
        by rewrite (take_S_r _ _ a), fmap_app, Hres, fn_result.
      * apply lookup_ge_None_1 in Hh.
        split; [|simpl; lia].
        split; simpl; try done. split; [done|].
        by rewrite Hres, take_ge by lia.
    + destruct (shutdown (xexecutor s)) as [e'|] eqn:He; simplify_eq/=.
      apply shutdown_Some in He as ->.
      split; [|simpl; lia]. by split.
Qed.

Lemma map_inv_reachable w0 s :
  rtc (map_step fn numbers) (map_init max_workers w0) s →
  map_inv fn f numbers max_workers s.
Proof.
  revert s. apply rtc_ind_r.
  - apply map_inv_init.
  - intros s1 s2 _ Hstep IH. by eapply map_inv_step.
Qed.

Lemma map_nsteps_measure w0 k s :
  nsteps (map_step fn numbers) k (map_init max_workers w0) s →
  k + map_measure numbers s = 4 * length numbers + 3.
Proof.
  revert s. induction k as [|k IH]; intros s Hk.
  - inversion Hk; subst. unfold map_measure, workers_measure. simpl.
    rewrite sum_list_with_replicate. simpl. lia.
  - apply nsteps_inv_r in Hk as (s1 & Hk & Hstep).
    assert (map_inv fn f numbers max_workers s1) as Hinv.
    { apply (map_inv_reachable w0). by eapply rtc_nsteps_2. }
    apply IH in Hk. destruct (map_inv_step _ _ Hinv Hstep) as [_ Hm]. lia.
Qed.

Lemma map_progress s :
  map_inv fn f numbers max_workers s →
  0 < max_workers → xmain s ≠ X_finished →
  ∃ s', map_step fn numbers s s'.
Proof.
  intros [Hexec Hfs Hargs Hlen Hmain] Hpos Hnf.
  assert (work_queue (xexecutor s) ≠ []
          ∨ 0 < sum_list_with running (workers (xexecutor s)) →
          ∃ s', map_step fn numbers s s') as Hworker.
  { intros Hwork.
    destruct (exec_progress fn _ _ Hexec Hpos Hwork) as (w & e' & Hw).
    eexists. exists (Worker w). simpl. by rewrite Hw. }
  assert (∀ s', map_example numbers s = Some s' →
                ∃ s', map_step fn numbers s s') as Hmain_step.
  { intros s' Hs'. exists s'. by exists (Main 0). }
  unfold map_example in Hmain_step.
  destruct (xmain s) as [i|i| |] eqn:Hm; [| | |done].
  - destruct (numbers !! i); eauto.
  - destruct (fs s !! i) as [h|] eqn:Hh; [|eauto].
    destruct (result h (xexecutor s)) as [r|] eqn:Hr; [simpl in *; eauto|].
    apply Hworker. eapply exec_pending_work; [done| |done].
    rewrite Hfs in Hh. by apply lookup_seq in Hh as [-> ?].
  - destruct (shutdown (xexecutor s)) as [e'|] eqn:He; [simpl in *; eauto|].
    apply Hworker. by apply shutdown_None.
Qed.

End map_facts.

(** ** [run_thread_pool_example] *)

Section drain_facts.
Import Executor ThreadPool.
Context {duration : Type}.
Context (num_tasks max_workers : nat).
Implicit Types s : dstate duration.

Lemma exec_inv_set_world {W A R} (fn : A → W → R * W) n
    (e : Executor.t W A R) (w : W) :
  exec_inv fn n e →
  exec_inv fn n
    {| Executor.args := args e; Executor.work_queue := work_queue e;
       Executor.workers := workers e; Executor.futures := futures e;
       Executor.world := w |}.
Proof. intros []. by split. Qed.

Lemma drain_inv_init (w0 : world duration) :
  drain_inv num_tasks max_workers (drain_init max_workers w0).
Proof.
  split; simpl; try done.
  - apply exec_inv_create.
  - lia.
  - constructor.
Qed.

Lemma task_result_handle (n mw : nat) s h task_id r d :
  drain_inv n mw s → result h (dexecutor s) = Some (task_id, r, d) →
  (task_id, r) = task_entry h.
Proof.
  intros Hinv Hr.
  destruct (einv_result _ _ _ (dinv_exec _ _ _ Hinv) _ _ Hr)
    as (a & w & Ha & Heq).
  rewrite (dinv_args _ _ _ Hinv) in Ha.
  apply list_lookup_fmap_Some in Ha as (i & -> & Hi).
  apply lookup_seq in Hi as [-> _]. unfold task in Heq. by simplify_eq/=.
Qed.

Lemma NoDup_subseteq_length (l k : list nat) :
  NoDup l → l ⊆ k → length l ≤ length k.
Proof. intros Hl Hlk. by apply submseteq_length, NoDup_submseteq. Qed.

Lemma drain_inv_step s s' :
  drain_inv num_tasks max_workers s → drain_step num_tasks s s' →
  drain_inv num_tasks max_workers s'
  ∧ drain_measure num_tasks s' < drain_measure num_tasks s.
Proof.
  intros Hinv [[w|choice] Hstep]; simpl in Hstep.
  - (* a worker *)
    destruct Hinv as [Hexec Hfs Hargs Hlen Hnd Hsub Hres Hmain].
    destruct (worker_step task w (dexecutor s)) as [e'|] eqn:Hw; simplify_eq/=.
    destruct (exec_inv_worker_step _ _ _ _ _ Hexec Hw)
      as (Hexec' & Hm & Hargs' & Hlen').
    split; [|unfold drain_measure; simpl; lia].
    split; simpl; try done; congruence.
  - (* the main thread *)
    pose proof Hinv as [Hexec Hfs Hargs Hlen Hnd Hsub Hres Hmain].
    unfold run_thread_pool_example in Hstep. unfold drain_measure.
    destruct (dmain s) as [i| | |] eqn:Hm; simplify_eq/=.
    + destruct Hmain as [-> Hy]. case_bool_decide as Hi; simplify_eq/=.
      * split; [|unfold workers_measure; simpl; rewrite length_app; simpl;
                 lia].
        split; simpl.
        -- by apply exec_inv_submit.
        -- rewrite length_app. simpl. rewrite Nat.add_1_r, seq_S. simpl.
           by rewrite Hfs at 1.
        -- rewrite length_app. simpl.
           by rewrite Nat.add_1_r, seq_S, fmap_app, Hargs.
        -- rewrite length_app. simpl. lia.
        -- done.
        -- rewrite Hy. apply list_subseteq_nil.
        -- done.
        -- rewrite length_app. simpl. split; [lia|done].
      * split; [|simpl; lia]. split; simpl; try done. lia.
    + case_bool_decide as Hall; simplify_eq/=.
      * split; [|simpl; lia]. by split.
      * case_bool_decide as Hc; simplify_eq/=. destruct Hc as [Hin Hnin].
        destruct (result choice (dexecutor s)) as [[[task_id r] d]|] eqn:Hr;
          simplify_eq/=.
        apply (task_result_handle _ _ _ _ _ _ _ Hinv) in Hr.
        assert (NoDup (yielded s ++ [choice])) as Hnd'.
        { apply NoDup_app. split_and!; [done| |apply NoDup_singleton].
          by intros x Hx ->%list_elem_of_singleton. }
        assert (yielded s ++ [choice] ⊆ dfutures s) as Hsub'.
        { intros x [Hx| ->%list_elem_of_singleton]%elem_of_app; auto. }
        pose proof (NoDup_subseteq_length _ _ Hnd' Hsub') as Hle.
        rewrite length_app in Hle. simpl in Hle.
        split; [|unfold workers_measure; simpl; rewrite length_app; simpl;
                 lia].
        split; simpl; try done.
        -- by apply exec_inv_set_world.
        -- by rewrite fmap_app, Hres, Hr.
    + destruct (shutdown (dexecutor s)) as [e'|] eqn:He; simplify_eq/=.
      apply shutdown_Some in He as ->.
      split; [|simpl; lia]. by split.
Qed.

Lemma drain_inv_reachable (w0 : world duration) s :
  rtc (drain_step num_tasks) (drain_init max_workers w0) s →
  drain_inv num_tasks max_workers s.
Proof.
  revert s. apply rtc_ind_r.
  - apply drain_inv_init.
  - intros s1 s2 _ Hstep IH. by eapply drain_inv_step.
Qed.

Lemma drain_nsteps_measure (w0 : world duration) k s :
  nsteps (drain_step num_tasks) k (drain_init max_workers w0) s →
  k + drain_measure num_tasks s ≤ 4 * num_tasks + 3.
Proof.
  revert s. induction k as [|k IH]; intros s Hk.
  - inversion Hk; subst. unfold drain_measure, workers_measure. simpl.
    rewrite sum_list_with_replicate. simpl. lia.
  - apply nsteps_inv_r in Hk as (s1 & Hk & Hstep).
    assert (drain_inv num_tasks max_workers s1) as Hinv.
    { apply (drain_inv_reachable w0). by eapply rtc_nsteps_2. }
    apply IH in Hk. destruct (drain_inv_step _ _ Hinv Hstep) as [_ Hm]. lia.
Qed.

Lemma drain_progress s :
  drain_inv num_tasks max_workers s →
  0 < max_workers → dmain s ≠ D_finished →
  ∃ s', drain_step num_tasks s s'.
Proof.
  intros [Hexec Hfs Hargs Hlen Hnd Hsub Hres Hmain] Hpos Hnf.
  assert (work_queue (dexecutor s) ≠ []
          ∨ 0 < sum_list_with running (workers (dexecutor s)) →
          ∃ s', drain_step num_tasks s s') as Hworker.
  { intros Hwork.
    destruct (exec_progress _ _ _ Hexec Hpos Hwork) as (w & e' & Hw).
    eexists. exists (Worker w). simpl. by rewrite Hw. }
  assert (∀ choice s',
    run_thread_pool_example num_tasks choice s = Some s' →
    ∃ s', drain_step num_tasks s s') as Hmain_step.
  { intros choice s' Hs'. exists s'. by exists (Main choice). }
  unfold run_thread_pool_example in Hmain_step.
  destruct (dmain s) as [i| | |] eqn:Hm; [| | |done].
  - destruct (decide (i < num_tasks)).
    + eapply (Hmain_step 0). rewrite bool_decide_eq_true_2 by done.
      simpl. reflexivity.
    + eapply (Hmain_step 0). rewrite bool_decide_eq_false_2 by done.
      reflexivity.
  - destruct (decide (dfutures s ⊆ yielded s)) as [Hall|Hnall].
    { eapply (Hmain_step 0). rewrite bool_decide_eq_true_2 by done.
      reflexivity. }
    assert (∃ h, h ∈ dfutures s ∧ h ∉ yielded s) as (h & Hin & Hnin).
    { assert (¬ Forall (λ h, h ∈ yielded s) (dfutures s)) as HF.
      { intros HF. apply Hnall. intros x Hx.
        by apply (proj1 (Forall_forall _ _) HF). }
      apply not_Forall_Exists in HF; [|apply _].
      apply Exists_exists in HF as (h & ? & ?). eauto. }
    destruct (result h (dexecutor s)) as [[[task_id r] d]|] eqn:Hr.
    + eapply (Hmain_step h). rewrite bool_decide_eq_false_2 by done.
      rewrite bool_decide_eq_true_2 by done. rewrite Hr. simpl. reflexivity.
    + apply Hworker. eapply exec_pending_work; [done| |done].
      rewrite Hfs in Hin. apply elem_of_seq in Hin. lia.
  - destruct (shutdown (dexecutor s)) as [e'|] eqn:He.
    + eapply (Hmain_step 0). simpl. reflexivity.
    + apply Hworker. by apply shutdown_None.
Qed.

End drain_facts.

(** ** The pool programs *)

Section pool_programs.
Import Executor ThreadPool.

Lemma map_run_rtc {duration A R : Type}
    (fn : A → world duration → R * world duration) (numbers : list A)
    (sched : list tid) (s : xstate duration A R) :
  rtc (map_step fn numbers) s (map_run fn numbers sched s).
Proof.
  revert s. induction sched as [|t sched IH]; intros s; simpl; [done|].
  destruct (map_step_thread fn numbers t s) as [s'|] eqn:Hs; simpl; [|done].
  eapply rtc_l; [by exists t|done].
Qed.

Lemma drain_run_rtc {duration : Type} (num_tasks : nat)
    (sched : list tid) (s : dstate duration) :
  rtc (drain_step num_tasks) s (drain_run num_tasks sched s).
Proof.
  revert s. induction sched as [|t sched IH]; intros s; simpl; [done|].
  destruct (drain_step_thread num_tasks t s) as [s'|] eqn:Hs; simpl; [|done].
  eapply rtc_l; [by exists t|done].
Qed.

(** C6. For every list [numbers] and every task body [fn] whose result
    is [f] of its argument, in every run of
    [list(executor.map(fn, numbers))], whatever the order in which the
    workers complete the calls: the results collected so far are [f] of
    the first elements of [numbers], in order; when the program has
    finished they are [f] of every element, in the order of [numbers];
    the run has at most [4 * length numbers + 3] steps, and with at least
    one worker it can always take a step until it has finished. *)
Theorem map_ordered_results {duration A R : Type}
    (fn : A → world duration → R * world duration) (f : A → R)
    (numbers : list A) (max_workers : nat) (w0 : world duration)
    (s : xstate duration A R) :
  (∀ a w, (fn a w).1 = f a) →
  rtc (map_step fn numbers) (map_init max_workers w0) s →
  xresults s = f <$> take (length (xresults s)) numbers
  ∧ (xmain s = X_finished → xresults s = f <$> numbers)
  ∧ (∀ k, nsteps (map_step fn numbers) k (map_init max_workers w0) s →
          k ≤ 4 * length numbers + 3)
  ∧ (0 < max_workers → xmain s ≠ X_finished →
     ∃ s', map_step fn numbers s s').
Proof.
  intros Hfn Hs.
  pose proof (map_inv_reachable fn f numbers max_workers Hfn w0 s Hs) as Hinv.
  split_and!.
  - pose proof (minv_main _ _ _ _ _ Hinv) as Hmain.
    destruct (xmain s) as [i|i| |].
    + by destruct Hmain as [_ ->].
    + destruct Hmain as (_ & Hi & ->).
      by rewrite length_fmap, length_take, Nat.min_l.
    + destruct Hmain as [_ ->]. by rewrite length_fmap, take_ge.
    + destruct Hmain as [_ ->]. by rewrite length_fmap, take_ge.
  - intros Hm. pose proof (minv_main _ _ _ _ _ Hinv) as Hmain.
    rewrite Hm in Hmain. by destruct Hmain.
  - intros k Hk.
    pose proof (map_nsteps_measure fn f numbers max_workers Hfn w0 k s Hk).
    lia.
  - by apply (map_progress fn f numbers max_workers).
Qed.

Lemma map_ordered_results_witness :
  let numbers := Z.of_nat <$> seq 0 10 in
  let s := map_run square numbers map_example_schedule
             (map_init 4 example_world) in
  xmain s = X_finished
  ∧ xresults s = [0; 1; 4; 9; 16; 25; 36; 49; 64; 81]%Z.
Proof.
  intros numbers s.
  assert (xmain s = X_finished) as Hm by (vm_compute; reflexivity).
  destruct (map_ordered_results square (λ n, n * n)%Z numbers 4
              example_world s (λ _ _, eq_refl) (map_run_rtc _ _ _ _))
    as (_ & Hfin & _).
  split; [exact Hm|]. rewrite (Hfin Hm). reflexivity.
Defined.

(** C7. In every run of [run_thread_pool_example] with [num_tasks]
    tasks: [as_completed] yields no handle twice; the results collected
    are the pairs [(h, h * h)] of the handles yielded, in the order they
    were yielded; once the loop has ended every handle has been yielded,
    so that the results are a permutation of the [num_tasks] pairs
    [(i, i * i)]; the run has at most [4 * num_tasks + 3] steps, and with
    at least one worker it can always take a step until it has
    finished. *)
Theorem as_completed_each_once {duration : Type}
    (num_tasks max_workers : nat) (w0 : world duration)
    (s : dstate duration) :
  rtc (drain_step num_tasks) (drain_init max_workers w0) s →
  NoDup (yielded s)
  ∧ results s = task_entry <$> yielded s
  ∧ (dmain s = D_exit ∨ dmain s = D_finished →
     yielded s ≡ₚ seq 0 num_tasks
     ∧ length (results s) = num_tasks
     ∧ results s ≡ₚ task_entry <$> seq 0 num_tasks)
  ∧ (∀ k, nsteps (drain_step num_tasks) k (drain_init max_workers w0) s →
          k ≤ 4 * num_tasks + 3)
  ∧ (0 < max_workers → dmain s ≠ D_finished →
     ∃ s', drain_step num_tasks s s').
Proof.
  intros Hs.
  pose proof (drain_inv_reachable num_tasks max_workers w0 s Hs) as Hinv.
  pose proof Hinv as [Hexec Hfs Hargs Hlen Hnd Hsub Hres Hmain].
  split_and!; [done..| | |].
  - intros Hm.
    assert (length (dfutures s) = num_tasks ∧ dfutures s ⊆ yielded s)
      as [Hn Hall] by (by destruct Hm as [Hm|Hm]; rewrite Hm in Hmain).
    assert (yielded s ≡ₚ seq 0 num_tasks) as Hperm.
    { rewrite <-Hn, Hfs, length_seq, <-Hfs.
      apply NoDup_Permutation; [done|rewrite Hfs; apply NoDup_seq|].
      intros x. split; auto. }
    split_and!; [done| |by rewrite Hres, Hperm].
    by rewrite Hres, length_fmap, Hperm, length_seq.
  - intros k Hk.
    pose proof (drain_nsteps_measure num_tasks max_workers w0 k s Hk). lia.
  - by apply (drain_progress num_tasks max_workers).
Qed.

Lemma as_completed_each_once_witness :
  let s := drain_run 10 drain_example_schedule (drain_init 3 example_world) in
  dmain s = D_finished
  ∧ results s = [(2, 4); (1, 1); (0, 0); (5, 25); (4, 16); (3, 9);
                 (8, 64); (7, 49); (6, 36); (9, 81)]%Z
  ∧ results s ≡ₚ task_entry <$> seq 0 10.
Proof.
  intros s.
  assert (dmain s = D_finished) as Hm by (vm_compute; reflexivity).
  destruct (as_completed_each_once 10 3 example_world s (drain_run_rtc _ _ _))
    as (_ & _ & Hfin & _).
  destruct (Hfin (or_intror Hm)) as (_ & _ & Hperm).
  split_and!; [exact Hm|vm_compute; reflexivity|exact Hperm].
Defined.

(** C10. For every integer [n], whatever the generator draws and
    whatever has been printed, [task(n)] returns a triple whose first
    component is [n] and whose second is [n * n]; the third is the draw;
    the first two do not depend on the state of the world.  The call
    makes one draw and prints two lines. *)
Theorem task_returns_square {duration : Type} (n : Z) (w : world duration) :
  (task n w).1.1.1 = n
  ∧ (task n w).1.1.2 = (n * n)%Z
  ∧ (task n w).1.2 = uniform w (draws w)
  ∧ (∀ w' : world duration, (task n w').1.1 = (task n w).1.1)
  ∧ (task n w).2
    = {| uniform := uniform w; draws := S (draws w);
         stdout := stdout w
                   ++ [Starting n (uniform w (draws w)); Completed n] |}.
Proof.
  unfold task, random_uniform, print. simpl.
  split_and!; [reflexivity..|].
  f_equal. by rewrite <-app_assoc.
Qed.

End pool_programs.

(** ** [UnsafeCounter] *)

Section unsafe_facts.
Import Sync.

Lemma unsafe_inv_init n m : unsafe_inv n m (unsafe_init n m).
Proof.
  split; simpl.
  - by apply Forall_replicate.
  - done.
  - rewrite sum_list_with_replicate. simpl. lia.
  - right. by rewrite sum_list_with_replicate.
  - by intros t current k [? _]%lookup_replicate.
Qed.

Lemma unsafe_inv_step n m s s' :
  unsafe_inv n m s → unsafe_step s s' →
  unsafe_inv n m s'
  ∧ S (sum_list_with unsafe_steps_left (uthreads s'))
    = sum_list_with unsafe_steps_left (uthreads s).
Proof.
  intros [Hfree Hlow Hhigh Hwr Hcur] [t Hstep].
  unfold unsafe_step_thread in Hstep.
  destruct (uthreads s !! t) as [p|] eqn:Ht; simplify_eq/=.
  destruct (unsafe_increment_worker_step (ucounter s) p) as [[c' p']|] eqn:Hp;
    simplify_eq/=.
  pose proof (sum_list_with_insert todo _ _ _ p' Ht) as Htodo.
  pose proof (sum_list_with_insert unsafe_steps_left _ _ _ p' Ht) as Hleft.
  assert (∀ P : pc → Prop, Forall P (uthreads s) → P p' →
          Forall P (<[t:=p']> (uthreads s))) as Hins.
  { intros P HP Hp'. apply Forall_insert; done. }
  destruct p as [[|k]|k|current k|k|]; simplify_eq/=.
  - split; [|lia]. split; simpl; [by apply Hins|lia|lia| |].
    + destruct Hwr; [by left|right; lia].
    + intros t' c k [[_ ?]|[_ Ht']]%lookup_insert_cases; [done|].
      destruct (Hcur _ _ _ Ht'). split; [done|lia].
  - split; [|lia]. split; simpl; [by apply Hins|lia|lia| |].
    + destruct Hwr; [by left|right; lia].
    + intros t' c k' [[_ ?]|[_ Ht']]%lookup_insert_cases; simplify_eq.
      * split; [done|lia].
      * destruct (Hcur _ _ _ Ht'). split; [done|lia].
  - destruct (Hcur _ _ _ Ht) as [Hc0 Hc1].
    split; [|lia]. split; simpl; [by apply Hins|lia|lia|left; lia|].
    intros t' c k' [[_ ?]|[_ Ht']]%lookup_insert_cases; [done|].
    destruct (Hcur _ _ _ Ht'). split; [done|lia].
Qed.

Lemma unsafe_inv_reachable n m s :
  rtc unsafe_step (unsafe_init n m) s → unsafe_inv n m s.
Proof.
  revert s. apply rtc_ind_r.
  - apply unsafe_inv_init.
  - intros s1 s2 _ Hstep IH. by eapply unsafe_inv_step.
Qed.

Lemma unsafe_nsteps_measure n m k s :
  nsteps unsafe_step k (unsafe_init n m) s →
  k + sum_list_with unsafe_steps_left (uthreads s) = n * (2 * m + 1).
Proof.
  revert s. induction k as [|k IH]; intros s Hk.
  - inversion Hk; subst. simpl. by rewrite sum_list_with_replicate.
  - apply nsteps_inv_r in Hk as (s1 & Hk & Hstep).
    assert (unsafe_inv n m s1) as Hinv.
    { apply unsafe_inv_reachable. by eapply rtc_nsteps_2. }
    apply IH in Hk. destruct (unsafe_inv_step _ _ _ _ Hinv Hstep). lia.
Qed.

Lemma unsafe_run_rtc sched s : rtc unsafe_step s (unsafe_run sched s).
Proof.
  revert s. induction sched as [|t sched IH]; intros s; simpl; [done|].
  destruct (unsafe_step_thread t s) as [s'|] eqn:Hs; simpl; [|done].
  eapply rtc_l; [by exists t|done].
Qed.

(** X8. [n] threads of [increment_worker] with [m] iterations each on
    an [UnsafeCounter], under every interleaving: the value is never
    negative and never above the number of increments completed, so at
    most [n * m] at the end; the first increment is never lost: when all
    threads have finished the value is at least 1 (if there was an
    increment to make).  The threads never block, and all have finished
    after [n * (2 * m + 1)] steps. *)
Theorem unsafe_counter_bounds (n m : nat) (s : ustate) :
  rtc unsafe_step (unsafe_init n m) s →
  (0 ≤ unsafe_get_value (ucounter s))%Z
  ∧ (unsafe_get_value (ucounter s)
     + Z.of_nat (sum_list_with todo (uthreads s))
     ≤ Z.of_nat n * Z.of_nat m)%Z
  ∧ (unsafe_all_finished s → 0 < n * m →
     (1 ≤ unsafe_get_value (ucounter s))%Z)
  ∧ (¬ unsafe_all_finished s → ∃ s', unsafe_step s s')
  ∧ (∀ k, nsteps unsafe_step k (unsafe_init n m) s → k ≤ n * (2 * m + 1)).
Proof.
  intros Hinv%unsafe_inv_reachable.
  pose proof Hinv as [Hfree Hlow Hhigh Hwr Hcur].
  split_and!; try done.
  - intros Hfin Hpos. destruct Hwr as [|Hnone]; [done|].
    rewrite sum_list_with_zero in Hnone; [lia|].
    eapply Forall_impl; [exact Hfin|]. by intros ? ->.
  - intros Hnf. apply not_Forall_Exists in Hnf; [|apply _].
    apply Exists_exists in Hnf as (p & Hin & Hp).
    apply list_elem_of_lookup_1 in Hin as [t Ht].
    pose proof (Forall_lookup_1 _ _ _ _ Hfree Ht) as Hlf.
    assert (is_Some (unsafe_increment_worker_step (ucounter s) p))
      as [[c' p'] Hstep].
    { destruct p as [[|k]| | | |]; simpl in *; try done; eauto. }
    eexists. exists t. unfold unsafe_step_thread. rewrite Ht. simpl.
    rewrite Hstep. simpl. done.
  - intros k Hk%unsafe_nsteps_measure. lia.
Qed.

Lemma unsafe_run_app l1 l2 s :
  unsafe_run (l1 ++ l2) s = unsafe_run l2 (unsafe_run l1 s).
Proof. revert s. induction l1 as [|t l1 IH]; intros s; simpl; auto. Qed.

(** The threads [i], [i + 1], ... take one step each, from [b] to [a]. *)
Lemma unsafe_run_pass (P : UnsafeCounter → Prop) (g : UnsafeCounter → UnsafeCounter)
    (a b : pc) :
  (∀ c, P c → unsafe_increment_worker_step c b = Some (g c, a) ∧ P (g c)) →
  ∀ d i c, P c →
    unsafe_run (seq i d)
      {| ucounter := c; uthreads := replicate i a ++ replicate d b |}
    = {| ucounter := Nat.iter d g c; uthreads := replicate (i + d) a |}.
Proof.
  intros Hstep. induction d as [|d IH]; intros i c Hc; simpl.
  - by rewrite app_nil_r, Nat.add_0_r.
  - destruct (Hstep c Hc) as [Hb Hg].
    unfold unsafe_step_thread. simpl.
    rewrite lookup_app_r, length_replicate, Nat.sub_diag
      by (by rewrite length_replicate).
    simpl. rewrite Hb. simpl.
    rewrite insert_app_r_alt, length_replicate, Nat.sub_diag
      by (by rewrite length_replicate).
    simpl.
    replace (replicate i a ++ a :: replicate d b)
      with (replicate (S i) a ++ replicate d b).
    + rewrite IH by done. f_equal; [|f_equal; lia].
      clear. induction d as [|d IH]; simpl; [done|]. by rewrite IH.
    + rewrite replicate_S_end, <-app_assoc. done.
Qed.

Lemma unsafe_run_pass_all (P : UnsafeCounter → Prop)
    (g : UnsafeCounter → UnsafeCounter) (a b : pc) (n : nat) c :
  (∀ c, P c → unsafe_increment_worker_step c b = Some (g c, a) ∧ P (g c)) →
  P c →
  unsafe_run (seq 0 n) {| ucounter := c; uthreads := replicate n b |}
  = {| ucounter := Nat.iter n g c; uthreads := replicate n a |}.
Proof. intros Hstep Hc. apply (unsafe_run_pass P g a b Hstep n 0 c Hc). Qed.

Lemma unsafe_run_round n k v :
  0 < n →
  unsafe_run (seq 0 n ++ seq 0 n)
    {| ucounter := {| uvalue := v |}; uthreads := replicate n (Loop (S k)) |}
  = {| ucounter := {| uvalue := v + 1 |}; uthreads := replicate n (Loop k) |}.
Proof.
  intros Hn. rewrite unsafe_run_app.
  rewrite (unsafe_run_pass_all (λ c, c = {| uvalue := v |}) id
             (Sleeping v k) (Loop (S k))); [|by intros c ->|done].
  rewrite (unsafe_run_pass_all (λ _, True) (λ _, {| uvalue := v + 1 |})
             (Loop k) (Sleeping v k)); [|done..].
  f_equal. destruct n; [lia|done].
Qed.

Lemma unsafe_run_rounds n m v :
  0 < n →
  unsafe_run (mjoin (replicate m (seq 0 n ++ seq 0 n)))
    {| ucounter := {| uvalue := v |}; uthreads := replicate n (Loop m) |}
  = {| ucounter := {| uvalue := v + Z.of_nat m |};
       uthreads := replicate n (Loop 0) |}.
Proof.
  intros Hn. revert v. induction m as [|m IH]; intros v.
  - simpl. do 2 f_equal. lia.
  - replace (mjoin (replicate (S m) (seq 0 n ++ seq 0 n)))
      with ((seq 0 n ++ seq 0 n) ++ mjoin (replicate m (seq 0 n ++ seq 0 n)))
      by done.
    rewrite unsafe_run_app.
    rewrite unsafe_run_round by done. rewrite IH. do 2 f_equal. lia.
Qed.

(** X9. For any number of threads there is a run on the
    [UnsafeCounter] in which all threads finish and the value is [m], the
    iterations of a single thread: every thread reads before any
    writes, each time.  With two threads or more, and an iteration to
    make, this is less than [n * m]: increments are lost. *)
Theorem unsafe_counter_can_lose_updates (n m : nat) :
  0 < n →
  let s := unsafe_run (lockstep_schedule n m) (unsafe_init n m) in
  rtc unsafe_step (unsafe_init n m) s
  ∧ unsafe_all_finished s
  ∧ unsafe_get_value (ucounter s) = Z.of_nat m
  ∧ (1 < n → 0 < m →
     (unsafe_get_value (ucounter s) < Z.of_nat n * Z.of_nat m)%Z).
Proof.
  intros Hn s.
  split; [apply unsafe_run_rtc|].
  assert (s = {| ucounter := {| uvalue := Z.of_nat m |};
                 uthreads := replicate n Finished |}) as ->.
  { unfold s, lockstep_schedule, unsafe_init, UnsafeCounter_init.
    rewrite unsafe_run_app, unsafe_run_rounds by done.
    rewrite (unsafe_run_pass_all (λ _, True) id Finished (Loop 0));
      [|done..].
    f_equal. clear. induction n; simpl; auto. }
  split_and!.
  - by apply Forall_replicate.
  - done.
  - simpl. nia.
Qed.

(** Ten threads of a hundred iterations end at 100, not 1000. *)
Lemma unsafe_counter_can_lose_updates_witness :
  let s := unsafe_run (lockstep_schedule 10 100) (unsafe_init 10 100) in
  unsafe_get_value (ucounter s) = 100%Z.
Proof.
  intros s.
  destruct (unsafe_counter_can_lose_updates 10 100) as (_ & _ & Hv & _);
    [lia|exact Hv].
Defined.

(** The same run, within the bounds. *)
Lemma unsafe_counter_bounds_witness :
  let s := unsafe_run (lockstep_schedule 10 100) (unsafe_init 10 100) in
  (1 ≤ unsafe_get_value (ucounter s) ≤ 1000)%Z.
Proof.
  intros s.
  destruct (unsafe_counter_bounds 10 100 s (unsafe_run_rtc _ _))
    as (_ & Hhigh & Hlow & _).
  split.
  - apply Hlow; [|lia]. unfold unsafe_all_finished.
    replace (uthreads s) with (replicate 10 Finished)
      by (vm_compute; reflexivity).
    by apply Forall_replicate.
  - pose proof (Zle_0_nat (sum_list_with todo (uthreads s))). lia.
Defined.

End unsafe_facts.

(** ** [run_synchronization_example] *)

Section sync_example_facts.
Import Sync SyncExample.

Lemma example_inv_init n m : example_inv n m (SyncExample.init n m).
Proof.
  split; simpl; try by rewrite length_replicate.
  - apply unsafe_inv_init.
  - apply sync_inv_init.
  - intros j Hj. lia.
  - intros j Hj. lia.
  - done.
Qed.

Lemma unsafe_finished_stable t u u' j :
  unsafe_step_thread t u = Some u' →
  uthreads u !! j = Some Finished → uthreads u' !! j = Some Finished.
Proof.
  unfold unsafe_step_thread. intros Hstep Hj.
  destruct (uthreads u !! t) as [p|] eqn:Ht; simplify_eq/=.
  destruct (unsafe_increment_worker_step (ucounter u) p) as [[c' p']|] eqn:Hp;
    simplify_eq/=.
  destruct (decide (t = j)) as [->|Hne].
  - rewrite Ht in Hj. by simplify_eq/=.
  - by rewrite list_lookup_insert_ne.
Qed.

Lemma safe_finished_stable t u u' j :
  Sync.step_thread t u = Some u' →
  threads u !! j = Some Finished → threads u' !! j = Some Finished.
Proof.
  unfold Sync.step_thread. intros Hstep Hj.
  destruct (threads u !! t) as [p|] eqn:Ht; simplify_eq/=.
  destruct (increment_worker_step (counter u) p) as [[c' p']|] eqn:Hp;
    simplify_eq/=.
  destruct (decide (t = j)) as [->|Hne].
  - rewrite Ht in Hj. by simplify_eq/=.
  - by rewrite list_lookup_insert_ne.
Qed.

Lemma unsafe_step_length t u u' :
  unsafe_step_thread t u = Some u' →
  length (uthreads u') = length (uthreads u) ∧ t < length (uthreads u).
Proof.
  unfold unsafe_step_thread. intros Hstep.
  destruct (uthreads u !! t) as [p|] eqn:Ht; simplify_eq/=.
  destruct (unsafe_increment_worker_step (ucounter u) p) as [[c' p']|] eqn:Hp;
    simplify_eq/=.
  rewrite length_insert. split; [done|]. by eapply lookup_lt_Some.
Qed.

Lemma safe_step_length t u u' :
  Sync.step_thread t u = Some u' →
  length (threads u') = length (threads u) ∧ t < length (threads u).
Proof.
  unfold Sync.step_thread. intros Hstep.
  destruct (threads u !! t) as [p|] eqn:Ht; simplify_eq/=.
  destruct (increment_worker_step (counter u) p) as [[c' p']|] eqn:Hp;
    simplify_eq/=.
  rewrite length_insert. split; [done|]. by eapply lookup_lt_Some.
Qed.

Lemma joined_all_finished (l : list pc) n :
  length l = n → (∀ j, j < n → l !! j = Some Finished) →
  Forall (λ p, p = Finished) l.
Proof.
  intros Hlen Hall. apply Forall_lookup. intros j p Hj.
  rewrite Hall in Hj; [by simplify_eq|].
  apply lookup_lt_Some in Hj. lia.
Qed.

Lemma safe_finished_value n m u :
  sync_inv n m u → all_finished u →
  value (counter u) = (Z.of_nat n * Z.of_nat m)%Z ∧ lock (counter u) = false.
Proof.
  intros [Htot Hlock _] Hfin.
  rewrite sum_list_with_zero in Htot, Hlock.
  - split; [lia|]. by destruct (lock (counter u)).
  - eapply Forall_impl; [exact Hfin|]. by intros ? ->.
  - eapply Forall_impl; [exact Hfin|]. by intros ? ->.
Qed.

Lemma example_inv_step n m s s' :
  example_inv n m s → SyncExample.step n m s s' →
  example_inv n m s' ∧ example_measure n s = S (example_measure n s').
Proof.
  intros [Hu Hs Hul Hsl Huj Hsj Hout] [[|t|t] Hstep]; simpl in Hstep.
  - unfold run_synchronization_example in Hstep. unfold example_measure.
    destruct (main s) as [| |i|i| | |i|i| | |] eqn:Hm; simpl in *.
    + simplify_eq. split; [split; simpl; try done|simpl; lia].
      by rewrite Hout.
    + simplify_eq. split; [split; simpl; try done|simpl; lia].
      by rewrite Hout.
    + simplify_eq. split.
      * split; simpl; try done. { by case_bool_decide; simpl; intros; lia. }
        { by case_bool_decide. }
        rewrite Hout. by case_bool_decide.
      * simpl. case_bool_decide; simpl; lia.
    + case_bool_decide.
      * destruct (unsafe_threads s !! i) as [[]|] eqn:Hi; simplify_eq.
        split; [split; simpl; try done|simpl; lia].
        intros j Hj. destruct (decide (j = i)) as [->|]; [done|].
        apply Huj. lia.
      * simplify_eq. split; [split; simpl; try done|simpl; lia].
        intros j Hj. apply Huj. lia.
    + simplify_eq. split; [split; simpl; try done|simpl; lia].
      by rewrite Hout.
    + simplify_eq. split; [split; simpl; try done|simpl; lia].
      by rewrite Hout.
    + simplify_eq. split.
      * split; simpl; try done. { by case_bool_decide. }
        { by case_bool_decide; simpl; intros; lia. }
        rewrite Hout. by case_bool_decide.
      * simpl. case_bool_decide; simpl; lia.
    + case_bool_decide.
      * destruct (safe_threads s !! i) as [[]|] eqn:Hi; simplify_eq.
        split; [split; simpl; try done|simpl; lia].
        intros j Hj. destruct (decide (j = i)) as [->|]; [done|].
        apply Hsj. lia.
      * simplify_eq. split; [split; simpl; try done|simpl; lia].
        intros j Hj. apply Hsj. lia.
    + destruct (safe_finished_value n m (safe_part s)) as [Hv Hl]; [done|..].
      { by apply (joined_all_finished _ n). }
      simpl in Hv, Hl. unfold get_value, acquire in Hstep.
      rewrite Hl in Hstep. simpl in Hstep. simplify_eq.
      split; [split; simpl; try done|simpl; lia].
      * destruct Hs as [Htot Hlock Hcur]. split; simpl; try done.
        simpl in Hlock. by rewrite Hl in Hlock.
      * by rewrite Hout, Hv.
    + simplify_eq. split; [split; simpl; try done|simpl; lia].
      by rewrite Hout.
    + done.
  - case_bool_decide as Hst; [|done].
    change (mkUState (unsafe_counter s) (unsafe_threads s))
      with (unsafe_part s) in Hstep.
    destruct (unsafe_step_thread t (unsafe_part s)) as [u|] eqn:Hu';
      [|done].
    simpl in Hstep. injection Hstep as <-.
    destruct (unsafe_inv_step n m _ _ Hu (ex_intro _ t Hu')) as [Hu2 Hmeas].
    destruct (unsafe_step_length _ _ _ Hu') as [Hlen Hlt].
    simpl in Hlen, Hlt, Hmeas.
    assert (unsafe_joined n (main s) = 0 ∨ unsafe_joined n (main s) ≤ t)
      as Hjoin.
    { destruct (decide (unsafe_joined n (main s) ≤ t)); [by right|].
      assert (unsafe_threads s !! t = Some Finished) as Hfin
        by (apply Huj; lia).
      unfold unsafe_step_thread in Hu'. simpl in Hu'.
      rewrite Hfin in Hu'. done. }
    split.
    + split; simpl; try done.
      * by destruct u.
      * lia.
      * intros j Hj. eapply unsafe_finished_stable; [exact Hu'|].
        by apply Huj.
      * rewrite Hout. destruct (main s) eqn:Hm; simpl in *; try done;
          exfalso; lia.
    + unfold example_measure. simpl. lia.
  - case_bool_decide as Hst; [|done].
    change (Sync.mkState (safe_counter s) (safe_threads s))
      with (safe_part s) in Hstep.
    destruct (Sync.step_thread t (safe_part s)) as [u|] eqn:Hu'; [|done].
    simpl in Hstep. injection Hstep as <-.
    pose proof (sync_inv_step n m _ _ Hs (ex_intro _ t Hu')) as Hs2.
    pose proof (sync_step_measure _ _ (ex_intro _ t Hu')) as Hmeas.
    destruct (safe_step_length _ _ _ Hu') as [Hlen Hlt].
    simpl in Hlen, Hlt, Hmeas.
    split.
    + split; simpl; try done.
      * by destruct u.
      * lia.
      * intros j Hj. eapply safe_finished_stable; [exact Hu'|].
        by apply Hsj.
    + unfold example_measure. simpl. lia.
Qed.

Lemma example_inv_reachable n m s :
  rtc (SyncExample.step n m) (SyncExample.init n m) s → example_inv n m s.
Proof.
  revert s. apply rtc_ind_r.
  - apply example_inv_init.
  - intros s1 s2 _ Hstep IH. by eapply example_inv_step.
Qed.

Lemma example_nsteps_measure n m k s :
  nsteps (SyncExample.step n m) k (SyncExample.init n m) s →
  k + example_measure n s = 4 * n + 10 + n * (2 * m + 1) + n * (4 * m + 1).
Proof.
  revert s. induction k as [|k IH]; intros s Hk.
  - inversion Hk; subst. unfold example_measure. simpl.
    rewrite !sum_list_with_replicate. simpl. lia.
  - apply nsteps_inv_r in Hk as (s1 & Hk & Hstep).
    assert (example_inv n m s1) as Hinv.
    { apply example_inv_reachable. by eapply rtc_nsteps_2. }
    apply IH in Hk. destruct (example_inv_step _ _ _ _ Hinv Hstep). lia.
Qed.

Lemma example_run_rtc n m sched s :
  rtc (SyncExample.step n m) s (SyncExample.run n m sched s).
Proof.
  revert s. induction sched as [|t sched IH]; intros s; simpl; [done|].
  destruct (SyncExample.step_thread n m t s) as [s'|] eqn:Hs; simpl; [|done].
  eapply rtc_l; [by exists t|done].
Qed.

Lemma example_progress n m s :
  example_inv n m s → main s ≠ E_finished → ∃ s', SyncExample.step n m s s'.
Proof.
  intros [Hu Hs Hul Hsl Huj Hsj Hout] Hnf.
  assert (∀ s', run_synchronization_example n m s = Some s' →
          ∃ s', SyncExample.step n m s s') as Hmain.
  { intros s' Hs'. exists s', Main. done. }
  destruct (main s) as [| |i|i| | |i|i| | |] eqn:Hm; [..|done];
    try (by eapply Hmain; unfold run_synchronization_example; rewrite Hm).
  - destruct (decide (i < n)) as [Hi|Hi].
    + destruct (lookup_lt_is_Some_2 (unsafe_threads s) i) as [p Hp]; [lia|].
      destruct (decide (p = Finished)) as [->|Hp'].
      * eapply Hmain. unfold run_synchronization_example.
        rewrite Hm, Hp. by rewrite bool_decide_eq_true_2.
      * destruct Hu as [Hfree _ _ _ _]. simpl in Hfree.
        pose proof (proj1 (Forall_lookup _ _) Hfree i p Hp) as Hlf.
        assert (is_Some (unsafe_increment_worker_step (unsafe_counter s) p))
          as [[c' p'] Hstep].
        { destruct p as [[|k]|k|current k|k|]; simpl in *; try done; eauto. }
        eexists. exists (UnsafeThread i). simpl. rewrite Hm. simpl.
        rewrite bool_decide_eq_true_2 by done.
        unfold unsafe_step_thread. simpl. rewrite Hp. simpl.
        rewrite Hstep. simpl. done.
    + eapply Hmain. unfold run_synchronization_example.
      rewrite Hm. by rewrite bool_decide_eq_false_2.
  - destruct (decide (i < n)) as [Hi|Hi].
    + destruct (lookup_lt_is_Some_2 (safe_threads s) i) as [p Hp]; [lia|].
      destruct (decide (p = Finished)) as [->|Hp'].
      * eapply Hmain. unfold run_synchronization_example.
        rewrite Hm, Hp. by rewrite bool_decide_eq_true_2.
      * destruct (sync_progress n m (safe_part s) Hs) as [u [t Ht]].
        { intros Hall. apply Hp'.
          by apply (proj1 (Forall_lookup _ _) Hall i p). }
        destruct (safe_step_length _ _ _ Ht) as [_ Hlt]. simpl in Hlt.
        eexists. exists (SafeThread t). simpl. rewrite Hm. simpl.
        rewrite bool_decide_eq_true_2 by lia.
        fold (safe_part s). rewrite Ht. simpl. done.
    + eapply Hmain. unfold run_synchronization_example.
      rewrite Hm. by rewrite bool_decide_eq_false_2.
  - destruct (safe_finished_value n m (safe_part s)) as [Hv Hl]; [done|..].
    { by apply (joined_all_finished _ n). }
    simpl in Hl. eapply Hmain. unfold run_synchronization_example.
    rewrite Hm. unfold get_value, acquire. rewrite Hl. simpl. done.
Qed.

(** X10. [run_synchronization_example]: under every interleaving of the
    main thread and the threads of the two counters, what has been
    printed is determined by where the main thread is; when the function
    has returned it has printed, after the titles, the expected total and
    a value between 0 and that total for the unsafe counter, at least 1
    if there is an increment to make, and the expected total twice for
    the locked counter.  The example never
    deadlocks and returns within a fixed number of actions. *)
Theorem synchronization_example_output (n m : nat) (s : SyncExample.state) :
  rtc (SyncExample.step n m) (SyncExample.init n m) s →
  let expected := (Z.of_nat n * Z.of_nat m)%Z in
  let got := unsafe_get_value (unsafe_counter s) in
  stdout s = printed expected got (main s)
  ∧ (main s = E_finished →
     stdout s = [Title; UnsafeTitle; ExpectedGot expected got; SafeTitle;
                 ExpectedGot expected expected; Blank]
     ∧ (0 ≤ got ≤ expected)%Z
     ∧ (0 < n * m → (1 ≤ got)%Z)
     ∧ get_value (safe_counter s) = Some (expected, safe_counter s))
  ∧ (main s ≠ E_finished → ∃ s', SyncExample.step n m s s')
  ∧ (∀ k, nsteps (SyncExample.step n m) k (SyncExample.init n m) s →
       k ≤ 4 * n + 10 + n * (2 * m + 1) + n * (4 * m + 1)
       ∧ (main s = E_finished →
          k = 4 * n + 10 + n * (2 * m + 1) + n * (4 * m + 1))).
Proof.
  intros Hreach expected got.
  pose proof (example_inv_reachable _ _ _ Hreach) as Hinv.
  split; [apply Hinv|]. split; [|split].
  - intros Hm. destruct Hinv as [Hu Hs Hul Hsl Huj Hsj Hout].
    rewrite Hm in Huj, Hsj, Hout. simpl in Huj, Hsj.
    pose proof (joined_all_finished _ n Hul Huj) as Hufin.
    pose proof (joined_all_finished _ n Hsl Hsj) as Hsfin.
    destruct (safe_finished_value n m (safe_part s) Hs Hsfin) as [Hv Hl].
    destruct Hu as [_ Hlow Hhigh Hwr _]. simpl in *.
    rewrite sum_list_with_zero in Hhigh, Hwr
      by (eapply Forall_impl; [exact Hufin|]; by intros ? ->).
    split; [done|]. split; [unfold got, unsafe_get_value; lia|].
    split; [intros Hpos; unfold got, unsafe_get_value; lia|].
    unfold get_value, acquire. rewrite Hl. simpl. rewrite Hv.
    f_equal. f_equal. destruct (safe_counter s); simpl in *. by subst.
  - by apply example_progress.
  - intros k Hk. apply example_nsteps_measure in Hk. split; [lia|].
    intros Hm. destruct Hinv as [Hu Hs Hul Hsl Huj Hsj Hout].
    rewrite Hm in Huj, Hsj. simpl in Huj, Hsj.
    pose proof (joined_all_finished _ n Hul Huj) as Hufin.
    pose proof (joined_all_finished _ n Hsl Hsj) as Hsfin.
    unfold example_measure in Hk. rewrite Hm in Hk. simpl in Hk.
    rewrite !sum_list_with_zero in Hk
      by (eapply Forall_impl; [eassumption|]; by intros ? ->).
    lia.
Qed.

(** The run of the example as written (10 threads, 100 iterations) in
    which the threads of the unsafe counter take turns action by action
    and those of the locked counter run one after the other. *)
Lemma synchronization_example_output_witness :
  let s := SyncExample.run 10 100
             (example_run_schedule 10 (lockstep_schedule 10 100)
                (sequential_schedule 10 100))
             (SyncExample.init 10 100) in
  rtc (SyncExample.step 10 100) (SyncExample.init 10 100) s
  ∧ main s = E_finished
  ∧ stdout s = [Title; UnsafeTitle; ExpectedGot 1000 100; SafeTitle;
                ExpectedGot 1000 1000; Blank].
Proof.
  intros s.
  assert (rtc (SyncExample.step 10 100) (SyncExample.init 10 100) s) as Hr
    by apply example_run_rtc.
  assert (main s = E_finished) as Hm by (vm_compute; reflexivity).
  split; [exact Hr|]. split; [exact Hm|].
  destruct (synchronization_example_output 10 100 s Hr) as (_ & Hfin & _).
  destruct (Hfin Hm) as (Hout & _).
  rewrite Hout. vm_compute. reflexivity.
Defined.

End sync_example_facts.

(** ** The value of the counters over time *)

Section monotone_facts.
Import Sync.

(** X16. With the locked [Counter], in every run of [n] threads of
    [increment_worker] with [m] iterations: the value is the number of
    increments written so far, between 0 and [n * m]; a step of a thread
    leaves it as it is or adds one, so it never goes down; and
    [get_value], whenever the lock is free, returns that number. *)
Theorem locked_counter_monotone (n m : nat) (s : state) :
  rtc step (init n m) s →
  (value (counter s) + Z.of_nat (sum_list_with todo (threads s))
   = Z.of_nat n * Z.of_nat m)%Z
  ∧ (0 ≤ value (counter s) ≤ Z.of_nat n * Z.of_nat m)%Z
  ∧ (∀ s', step s s' →
       value (counter s') = value (counter s)
       ∨ value (counter s') = (value (counter s) + 1)%Z)
  ∧ (lock (counter s) = false →
     fst <$> get_value (counter s)
     = Some (Z.of_nat n * Z.of_nat m
             - Z.of_nat (sum_list_with todo (threads s)))%Z).
Proof.
  intros Hs. pose proof (sync_inv_reachable _ _ _ Hs) as [Htot Hlock Hcur].
  assert (0 ≤ value (counter s))%Z as Hpos.
  { clear Htot Hlock Hcur. revert s Hs. apply rtc_ind_r; [done|].
    intros s s' Hs [t Hstep] IH.
    pose proof (sync_inv_reachable _ _ _ Hs) as [_ _ Hcur].
    unfold step_thread in Hstep.
    destruct (threads s !! t) as [p|] eqn:Ht; simplify_eq/=.
    destruct (increment_worker_step (counter s) p) as [[c' p']|] eqn:Hp;
      simplify_eq/=.
    destruct p as [[|k]|k|current k|k|]; simpl in Hp;
      unfold acquire in Hp; try destruct (lock (counter s));
      simplify_eq/=; try done.
    all: rewrite (Hcur _ _ _ Ht); lia. }
  split_and!; [done|done|lia| |].
  - intros s' [t Hstep]. unfold step_thread in Hstep.
    destruct (threads s !! t) as [p|] eqn:Ht; simplify_eq/=.
    destruct (increment_worker_step (counter s) p) as [[c' p']|] eqn:Hp;
      simplify_eq/=.
    destruct p as [[|k]|k|current k|k|]; simpl in Hp;
      unfold acquire in Hp; try destruct (lock (counter s));
      simplify_eq/=; auto.
    all: right; by rewrite (Hcur _ _ _ Ht).
  - intros Hfree. unfold get_value, acquire. rewrite Hfree. simpl.
    f_equal. lia.
Qed.

(** Ten threads of a hundred iterations: the first has finished and the
    second has made two increments. *)
Lemma locked_counter_monotone_witness :
  let s := run (replicate 401 0 ++ replicate 8 1) (init 10 100) in
  fst <$> get_value (counter s) = Some 102%Z.
Proof.
  intros s.
  destruct (locked_counter_monotone 10 100 s) as (_ & _ & _ & Hget);
    [apply sync_run_rtc|].
  rewrite Hget; [|vm_compute; reflexivity]. vm_compute. reflexivity.
Defined.

(** X17. With the [UnsafeCounter] and at least two threads of at least
    two iterations, the value can go down: a thread that has read 0
    writes 1 after another thread has brought the value to 2. *)
Theorem unsafe_counter_can_decrease (n m : nat) :
  1 < n → 1 < m →
  let s := unsafe_run stale_write_schedule (unsafe_init n m) in
  let s' := unsafe_run [0] s in
  rtc unsafe_step (unsafe_init n m) s
  ∧ unsafe_step s s'
  ∧ unsafe_get_value (ucounter s) = 2%Z
  ∧ unsafe_get_value (ucounter s') = 1%Z.
Proof.
  intros Hn Hm s s'.
  destruct n as [|[|n]]; [lia..|]. destruct m as [|[|m]]; [lia..|].
  split; [apply unsafe_run_rtc|]. split; [|done].
  exists 0. done.
Qed.

(** Ten threads of a hundred iterations. *)
Lemma unsafe_counter_can_decrease_witness :
  let s := unsafe_run stale_write_schedule (unsafe_init 10 100) in
  let s' := unsafe_run [0] s in
  unsafe_step s s'
  ∧ (unsafe_get_value (ucounter s') < unsafe_get_value (ucounter s))%Z.
Proof.
  intros s s'.
  destruct (unsafe_counter_can_decrease 10 100) as (_ & Hstep & Hv & Hv');
    [lia..|].
  split; [exact Hstep|]. unfold s', s. rewrite Hv, Hv'. lia.
Defined.

End monotone_facts.

(** ** Producers and the capacity *)

Section capacity_facts.
Import ProdCons.

(** X18. In every run of [run_producer_consumer_example]: a producer
    inside its loop is blocked exactly when it has an item left to put
    and the queue is bounded and full; with an unbounded queue a
    producer is never blocked. *)
Theorem producer_blocks_iff_full (cfg : config) (s : state) (i k : nat) :
  reachable cfg s → producers s !! i = Some (P_for k) →
  (step_thread cfg (Producer i) s = None
   ↔ k < num_items_per_producer cfg ∧ 0 < maxsize cfg
     ∧ Queue.qsize (work_queue (sh s)) = maxsize cfg)
  ∧ (maxsize cfg = 0 → is_Some (step_thread cfg (Producer i) s)).
Proof.
  intros Hinv%pc_inv_reachable Hp.
  pose proof (inv_maxsize _ _ Hinv) as Hmax.
  pose proof (inv_capacity _ _ Hinv) as Hcap.
  simpl. rewrite Hp. simpl. unfold Queue.put, Queue.full, Queue.qsize.
  rewrite Hmax. split.
  - case_bool_decide as Hk; simpl; [|split; [done|lia]].
    destruct (decide (0 < maxsize cfg)) as [Hpos|Hzero].
    + rewrite (bool_decide_eq_true_2 (0 < maxsize cfg)) by done. simpl.
      case_bool_decide as Hfull; simpl.
      * split; [|done]. intros _. split_and!; [done..|lia].
      * split; [done|]. intros (_ & _ & ?). lia.
    + rewrite (bool_decide_eq_false_2 (0 < maxsize cfg)) by done. simpl.
      split; [done|]. intros (_ & ? & _). lia.
  - intros Hzero. rewrite (bool_decide_eq_false_2 (0 < maxsize cfg)) by lia.
    simpl. by case_bool_decide; simpl.
Qed.

(** Capacity 2 and five items: blocked at the third. *)
Lemma producer_blocks_iff_full_witness :
  let s := run small_queue_config small_queue_schedule
             (init small_queue_config) in
  producers s !! 0 = Some (P_for 2)
  ∧ step_thread small_queue_config (Producer 0) s = None.
Proof.
  intros s.
  assert (producers s !! 0 = Some (P_for 2)) as Hp
    by (vm_compute; reflexivity).
  split; [exact Hp|].
  apply (producer_blocks_iff_full small_queue_config s 0 2);
    [apply pc_run_reachable, rtc_refl|exact Hp|].
  vm_compute. split_and!; [lia|lia|reflexivity].
Defined.

End capacity_facts.

(** ** Capacity, order and the program without consumers *)

Section prodcons_more.
Import ProdCons.

Lemma from_producer_item cfg j i k :
  from_producer cfg j (item i k) ↔ i = j ∧ k < num_items_per_producer cfg.
Proof.
  unfold from_producer. rewrite list_elem_of_fmap. split.
  - intros (k' & [-> ->]%item_inj & Hk%elem_of_seq). split; [done|lia].
  - intros [-> Hk]. exists k. split; [done|]. apply elem_of_seq. lia.
Qed.

(** X1. In every run of the program, for any configuration: a bounded
    queue never holds more than [maxsize] items; the items taken and not
    yet marked done are those the consumers are working on, one for each
    consumer between [get] and [task_done], so at most
    [num_consumers]. *)
Theorem queue_capacity_respected (cfg : config) (s : state) :
  reachable cfg s →
  Queue.valid (work_queue (sh s))
  ∧ Queue.maxsize (work_queue (sh s)) = maxsize cfg
  ∧ (0 < maxsize cfg → Queue.qsize (work_queue (sh s)) ≤ maxsize cfg)
  ∧ Queue.pending (work_queue (sh s)) = sum_list_with working (consumers s)
  ∧ Queue.pending (work_queue (sh s)) ≤ num_consumers cfg.
Proof.
  intros Hinv%pc_inv_reachable.
  pose proof (inv_capacity _ _ Hinv) as Hcap.
  pose proof (inv_unfinished _ _ Hinv) as Hunf.
  pose proof (inv_maxsize _ _ Hinv) as Hmax.
  unfold Queue.valid, Queue.pending, Queue.qsize. rewrite Hmax, Hunf.
  split_and!; try done; try lia.
  rewrite <-(inv_consumers_length _ _ Hinv).
  clear. induction (consumers s) as [|c cs IH]; simpl; [lia|].
  destruct c; simpl; lia.
Qed.

Lemma no_consumers_log cfg s :
  num_consumers cfg = 0 → reachable cfg s →
  consumers s = [] ∧ get_log (sh s) = [].
Proof.
  intros Hnc. revert s. apply rtc_ind_r.
  - simpl. by rewrite Hnc.
  - intros s s' _ [t Hstep] [Hc Hg]. destruct t as [|i|i]; simpl in Hstep.
    + unfold run_producer_consumer_example in Hstep.
      destruct (main s); simplify_eq/=;
        repeat (case_bool_decide || case_match); simplify_option_eq;
        simpl; try done; lia.
    + destruct (producers s !! i); simplify_eq/=.
      unfold producer in Hstep.
      repeat (case_bool_decide || case_match); by simplify_option_eq.
    + rewrite Hc in Hstep. by rewrite lookup_nil in Hstep.
Qed.

(** X2. Without consumers, and with at least one item to produce, the
    program never finishes: [work_queue.join()] never returns, the event
    is never set, nothing is taken from the queue, and once the main
    thread waits in [work_queue.join()] no thread can take a step. *)
Theorem no_consumers_never_finishes (cfg : config) (s : state) :
  num_consumers cfg = 0 →
  0 < num_producers cfg → 0 < num_items_per_producer cfg →
  reachable cfg s →
  join_returned (main s) = false
  ∧ stop_event (sh s) = false
  ∧ main s ≠ M_finished
  ∧ get_log (sh s) = []
  ∧ (main s = M_queue_join → stuck cfg s).
Proof.
  intros Hnc Hnp Hni Hs.
  pose proof (pc_inv_reachable _ _ Hs) as Hinv.
  destruct (no_consumers_log cfg s Hnc Hs) as [Hc Hg].
  assert (joined_producers cfg (main s) = num_producers cfg →
          0 < Queue.unfinished_tasks (work_queue (sh s))) as Hwork.
  { intros Hj.
    pose proof (pc_inv_producers_finished cfg s Hinv Hj) as Hfin.
    pose proof (inv_put_length _ _ Hinv) as Hlen.
    rewrite sum_produced_finished, (inv_producers_length _ _ Hinv) in Hlen
      by done.
    pose proof (inv_fifo _ _ Hinv) as Hfifo. rewrite Hg in Hfifo.
    simpl in Hfifo. rewrite <-Hfifo in Hlen.
    pose proof (inv_unfinished _ _ Hinv) as Hunf. rewrite Hc in Hunf.
    simpl in Hunf. nia. }
  assert (join_returned (main s) = false) as Hjr.
  { destruct (join_returned (main s)) eqn:Hj; [|done].
    pose proof (inv_drained _ _ Hinv Hj) as H0.
    assert (0 < Queue.unfinished_tasks (work_queue (sh s)));
      [apply Hwork; by destruct (main s)|lia]. }
  split_and!; try done.
  - rewrite (inv_stop _ _ Hinv). by destruct (main s).
  - intros Hm. by rewrite Hm in Hjr.
  - intros Hm [|i|i]; simpl.
    + unfold run_producer_consumer_example, Queue.join. rewrite Hm.
      rewrite bool_decide_eq_false_2; [done|].
      rewrite Hm in Hwork. specialize (Hwork eq_refl). lia.
    + destruct (producers s !! i) as [p|] eqn:Hp; [|done]. simpl.
      pose proof (pc_inv_producers_finished cfg s Hinv) as Hfin.
      rewrite Hm in Hfin. specialize (Hfin eq_refl).
      by rewrite (Forall_lookup_1 _ _ _ _ Hfin Hp).
    + by rewrite Hc, lookup_nil.
Qed.

(** Among the items put, those of producer [j] are in index order. *)
Lemma producer_order_put cfg s :
  reachable cfg s →
  ∀ j p, producers s !! j = Some p →
    filter (from_producer cfg j) (put_log (sh s))
    = item j <$> seq 0 (produced (num_items_per_producer cfg) p).
Proof.
  intros Hs. pattern s. revert s Hs. apply rtc_ind_r.
  - intros j p [-> _]%lookup_replicate. done.
  - intros s s' Hinv%pc_inv_reachable [t Hstep] IH j p Hp.
    destruct t as [|i|i]; simpl in Hstep.
    + unfold run_producer_consumer_example in Hstep.
      destruct (main s) as [i|i|i| | |i|] eqn:Hm; simplify_eq/=;
        repeat (case_bool_decide || case_match); simplify_option_eq;
        simpl in *; eauto.
      apply lookup_insert_cases in Hp as [[-> ->]|[? Hp]]; [|eauto].
      pose proof (inv_new_producers _ _ Hinv i) as Hnew.
      rewrite Hm in Hnew. simpl in Hnew.
      apply (IH i P_new). apply Hnew. lia.
    + destruct (producers s !! i) as [q|] eqn:Hq; simplify_eq/=.
      destruct (producer _ _ _ _) as [[sh' q']|] eqn:Hps; simplify_eq/=.
      destruct q as [|k|]; simplify_eq/=.
      case_bool_decide as Hk; simplify_option_eq.
      * rewrite filter_app.
        apply lookup_insert_cases in Hp as [[-> ->]|[Hne Hp]].
        -- rewrite (IH _ _ Hq). cbn [produced].
           rewrite seq_S, fmap_app. f_equal. simpl.
           rewrite filter_cons_True; [done|]. by apply from_producer_item.
        -- rewrite (IH _ _ Hp). rewrite filter_cons_False, filter_nil.
           ++ by rewrite app_nil_r.
           ++ rewrite from_producer_item. by intros [-> _].
      * apply lookup_insert_cases in Hp as [[-> ->]|[Hne Hp]]; [|eauto].
        rewrite (IH _ _ Hq). simpl. do 2 f_equal.
        pose proof (inv_for_bound _ _ Hinv _ _ Hq). lia.
    + destruct (consumers s !! i); simplify_eq/=.
      destruct (consumer _ _) as [[sh' c']|] eqn:Hcs; simplify_eq/=.
      rewrite <-(IH _ _ Hp). f_equal.
      destruct c; simplify_eq/=; try done.
      * unfold Queue.get in Hcs. by repeat case_match; simplify_eq/=.
      * by destruct (Queue.task_done _); simplify_eq/=.
Qed.

(** X3. With any numbers of producers and consumers, in every run: the
    items of producer [j], among the items put and among the items
    returned by [get], are [Item-j-0], [Item-j-1], ... in index order,
    without gaps; no more have been returned than put; when the program
    has finished all [num_items_per_producer] of them have been
    returned. *)
Theorem fifo_per_producer (cfg : config) (s : state) (j : nat) (p : ppc) :
  reachable cfg s → producers s !! j = Some p →
  filter (from_producer cfg j) (put_log (sh s))
  = item j <$> seq 0 (produced (num_items_per_producer cfg) p)
  ∧ filter (from_producer cfg j) (get_log (sh s))
    = item j <$> seq 0 (length (filter (from_producer cfg j) (get_log (sh s))))
  ∧ length (filter (from_producer cfg j) (get_log (sh s)))
    ≤ produced (num_items_per_producer cfg) p
  ∧ (main s = M_finished →
     filter (from_producer cfg j) (get_log (sh s))
     = item j <$> seq 0 (num_items_per_producer cfg)).
Proof.
  intros Hs Hp. pose proof (pc_inv_reachable _ _ Hs) as Hinv.
  pose proof (producer_order_put cfg s Hs j p Hp) as Hput.
  pose proof (inv_fifo _ _ Hinv) as Hfifo.
  set (P := from_producer cfg j) in *.
  assert (filter P (get_log (sh s))
          ++ filter P (Queue.items (work_queue (sh s)))
          = item j <$> seq 0 (produced (num_items_per_producer cfg) p))
    as Happ by (by rewrite <-filter_app, Hfifo).
  assert (length (filter P (get_log (sh s)))
          ≤ produced (num_items_per_producer cfg) p) as Hle.
  { apply (f_equal length) in Happ.
    rewrite length_app, length_fmap, length_seq in Happ. lia. }
  split_and!; [done| |done|].
  - assert (filter P (get_log (sh s))
            = take (length (filter P (get_log (sh s))))
                (filter P (get_log (sh s))
                 ++ filter P (Queue.items (work_queue (sh s))))) as Hg
      by (by rewrite take_app_length).
    rewrite Happ, <-fmap_take, take_seq in Hg. by rewrite Nat.min_l in Hg.
  - intros Hm.
    destruct (pc_inv_drained cfg s Hinv) as (_ & _ & Hall);
      [by rewrite Hm|].
    rewrite Hall, Hput.
    pose proof (pc_inv_producers_finished cfg s Hinv) as Hfin.
    rewrite Hm in Hfin. specialize (Hfin eq_refl).
    by rewrite (Forall_lookup_1 _ _ _ _ Hfin Hp).
Qed.

(** The run of the example to its end. *)
Lemma queue_capacity_respected_witness :
  let s := run example_config example_schedule_stop (init example_config) in
  Queue.valid (work_queue (sh s)).
Proof.
  intros s. apply (queue_capacity_respected example_config s).
  apply pc_run_reachable, rtc_refl.
Defined.

(** Two producers of five items each and no consumer. *)
Lemma no_consumers_never_finishes_witness :
  let s := run no_consumer_config no_consumer_schedule
             (init no_consumer_config) in
  main s = M_queue_join ∧ stuck no_consumer_config s.
Proof.
  intros s.
  assert (main s = M_queue_join) as Hm by (vm_compute; reflexivity).
  split; [exact Hm|].
  apply (no_consumers_never_finishes no_consumer_config s);
    [reflexivity|vm_compute; lia|vm_compute; lia| |exact Hm].
  apply pc_run_reachable, rtc_refl.
Defined.

(** The second producer in the run of the example. *)
Lemma fifo_per_producer_witness :
  let s := run example_config example_schedule (init example_config) in
  filter (from_producer example_config 1) (get_log (sh s))
  = ["Item-1-0"; "Item-1-1"; "Item-1-2"; "Item-1-3"; "Item-1-4"]%string.
Proof.
  intros s.
  assert (reachable example_config s) as Hs
    by apply pc_run_reachable, rtc_refl.
  assert (producers s !! 1 = Some P_finished) as Hp
    by (vm_compute; reflexivity).
  destruct (fifo_per_producer example_config s 1 P_finished Hs Hp)
    as (_ & _ & _ & Hfin).
  rewrite Hfin; [|vm_compute; reflexivity]. vm_compute. reflexivity.
Defined.

End prodcons_more.

(** ** Calls in a single thread *)

Section calls_facts.
Import ProdCons Calls.

Lemma put_room (q : Queue.t string) x n :
  has_room q (S n) →
  ∃ q', Queue.put x q = Some q'
        ∧ Queue.items q' = Queue.items q ++ [x]
        ∧ Queue.maxsize q' = Queue.maxsize q
        ∧ Queue.unfinished_tasks q' = S (Queue.unfinished_tasks q)
        ∧ has_room q' n.
Proof.
  unfold has_room, Queue.put, Queue.full, Queue.qsize. intros Hroom.
  assert (bool_decide (0 < Queue.maxsize q)
          && bool_decide (Queue.maxsize q ≤ length (Queue.items q)) = false)
    as ->.
  { apply andb_false_iff. destruct Hroom; [left|right];
      apply bool_decide_eq_false_2; lia. }
  eexists. split_and!; try done. simpl. rewrite length_app. simpl.
  destruct Hroom; [by left|right; lia].
Qed.

Lemma call_producer_from sh id n i d fuel :
  i + d = n → d < fuel → has_room (work_queue sh) d →
  ∃ sh', call_producer fuel sh id n (P_for i) = (sh', P_finished)
    ∧ Queue.items (work_queue sh')
      = Queue.items (work_queue sh) ++ (item id <$> seq i d)
    ∧ put_log sh' = put_log sh ++ (item id <$> seq i d)
    ∧ Queue.unfinished_tasks (work_queue sh')
      = Queue.unfinished_tasks (work_queue sh) + d
    ∧ Queue.maxsize (work_queue sh') = Queue.maxsize (work_queue sh)
    ∧ get_log sh' = get_log sh ∧ stop_event sh' = stop_event sh.
Proof.
  revert sh i fuel. induction d as [|d IH]; intros sh i fuel Hn Hfuel Hroom.
  - destruct fuel as [|fuel]; [lia|]. simpl.
    rewrite bool_decide_eq_false_2 by lia. simpl.
    destruct fuel; simpl; exists sh; rewrite !app_nil_r; split_and!; done || lia.
  - destruct fuel as [|fuel]; [lia|]. simpl.
    rewrite bool_decide_eq_true_2 by lia.
    destruct (put_room (work_queue sh) (item id i) d Hroom)
      as (q' & -> & Hitems & Hmax & Hunf & Hroom').
    simpl.
    edestruct (IH {| work_queue := q'; stop_event := stop_event sh;
                     put_log := put_log sh ++ [item id i];
                     get_log := get_log sh |} (S i) fuel)
      as (sh' & -> & Hi' & Hp' & Hu' & Hm' & Hg' & Hs'); [lia|lia|done|].
    simpl in *. exists sh'. split_and!; try done.
    + by rewrite Hi', Hitems, <-app_assoc.
    + by rewrite Hp', <-app_assoc.
    + lia.
    + congruence.
Qed.

Lemma gets_all {T} (l : list T) mx unf :
  gets (length l) {| Queue.items := l; Queue.maxsize := mx;
                     Queue.unfinished_tasks := unf |}
  = Some (l, {| Queue.items := []; Queue.maxsize := mx;
                Queue.unfinished_tasks := unf |}).
Proof.
  induction l as [|x l IH]; simpl; [done|].
  unfold Queue.get. simpl. by rewrite IH.
Qed.

Lemma gets_more {T} (q : Queue.t T) k :
  Queue.qsize q < k → gets k q = None.
Proof.
  revert q. induction k as [|k IH]; intros q Hk; [lia|]. simpl.
  unfold Queue.get, Queue.qsize in *.
  destruct q as [[|x l] mx unf]; simpl in *; [done|].
  rewrite IH; [done|]. simpl. lia.
Qed.

(** X4. [producer] called with no other thread running, as in
    [test_producer]: when the queue has room for [num_items] more items
    (always, when it is unbounded) the call returns, having appended
    [Item-id-0] ... [Item-id-(num_items-1)] in this order; the queue has
    grown by [num_items], and that many calls of [get] return its
    content oldest first, after which a further [get] finds it empty. *)
Theorem producer_alone_returns (sh : shared) (id n fuel : nat) :
  has_room (work_queue sh) n → n < fuel →
  ∃ sh', call_producer fuel sh id n (P_for 0) = (sh', P_finished)
    ∧ Queue.items (work_queue sh')
      = Queue.items (work_queue sh) ++ (item id <$> seq 0 n)
    ∧ Queue.qsize (work_queue sh') = Queue.qsize (work_queue sh) + n
    ∧ Queue.unfinished_tasks (work_queue sh')
      = Queue.unfinished_tasks (work_queue sh) + n
    ∧ put_log sh' = put_log sh ++ (item id <$> seq 0 n)
    ∧ (fst <$> gets (Queue.qsize (work_queue sh')) (work_queue sh'))
      = Some (Queue.items (work_queue sh) ++ (item id <$> seq 0 n))
    ∧ gets (S (Queue.qsize (work_queue sh'))) (work_queue sh') = None.
Proof.
  intros Hroom Hfuel.
  destruct (call_producer_from sh id n 0 n fuel)
    as (sh' & Hcall & Hitems & Hput & Hunf & _); [done..|].
  exists sh'. split_and!; try done.
  - unfold Queue.qsize. rewrite Hitems, length_app, length_fmap, length_seq.
    done.
  - unfold Queue.qsize. rewrite <-Hitems.
    destruct (work_queue sh') as [l mx u]. simpl. by rewrite gets_all.
  - apply gets_more. lia.
Qed.

(** The call of [test_producer]: five items on a new unbounded queue. *)
Lemma producer_alone_returns_witness :
  ∃ sh', call_producer 6 (new_shared 0) 0 5 (P_for 0) = (sh', P_finished)
    ∧ Queue.qsize (work_queue sh') = 5
    ∧ (fst <$> gets 5 (work_queue sh'))
      = Some ["Item-0-0"; "Item-0-1"; "Item-0-2"; "Item-0-3"; "Item-0-4"].
Proof.
  destruct (producer_alone_returns (new_shared 0) 0 5 6)
    as (sh' & Hcall & _ & Hsize & _ & _ & Hgets & _);
    [left; reflexivity|lia|].
  exists sh'. split; [exact Hcall|]. split; [exact Hsize|].
  rewrite Hsize in Hgets. exact Hgets.
Defined.

(** X5. [producer] called with no other thread running on a bounded
    queue that has no room for [num_items] more items: the call puts
    items until the queue is full and then blocks for ever in [put],
    never returning. *)
Theorem producer_alone_blocks (sh : shared) (id n fuel : nat) :
  0 < Queue.maxsize (work_queue sh) →
  Queue.qsize (work_queue sh) ≤ Queue.maxsize (work_queue sh) →
  Queue.maxsize (work_queue sh) < Queue.qsize (work_queue sh) + n →
  Queue.maxsize (work_queue sh) - Queue.qsize (work_queue sh) ≤ fuel →
  let r := Queue.maxsize (work_queue sh) - Queue.qsize (work_queue sh) in
  ∃ sh', call_producer fuel sh id n (P_for 0) = (sh', P_for r)
    ∧ producer sh' id n (P_for r) = None
    ∧ Queue.items (work_queue sh')
      = Queue.items (work_queue sh) ++ (item id <$> seq 0 r)
    ∧ Queue.qsize (work_queue sh') = Queue.maxsize (work_queue sh').
Proof.
  intros Hpos Hle Hlt Hfuel r.
  assert (∀ d i sh fuel,
    0 < Queue.maxsize (work_queue sh) →
    Queue.qsize (work_queue sh) + d = Queue.maxsize (work_queue sh) →
    i + d < n → d ≤ fuel →
    ∃ sh', call_producer fuel sh id n (P_for i) = (sh', P_for (i + d))
      ∧ producer sh' id n (P_for (i + d)) = None
      ∧ Queue.items (work_queue sh')
        = Queue.items (work_queue sh) ++ (item id <$> seq i d)
      ∧ Queue.qsize (work_queue sh') = Queue.maxsize (work_queue sh'))
    as Hgen.
  { clear. induction d as [|d IH]; intros i sh fuel Hpos Hroom Hi Hfuel.
    - assert (producer sh id n (P_for (i + 0)) = None) as Hblocked.
      { simpl. rewrite bool_decide_eq_true_2 by lia.
        unfold Queue.put, Queue.full.
        rewrite !bool_decide_eq_true_2 by lia. done. }
      exists sh. rewrite app_nil_r. split_and!; [|done..|lia].
      rewrite Nat.add_0_r in *. destruct fuel; simpl; [done|].
      simpl in Hblocked. by rewrite Hblocked.
    - destruct fuel as [|fuel]; [lia|]. simpl.
      rewrite bool_decide_eq_true_2 by lia.
      destruct (put_room (work_queue sh) (item id i) d)
        as (q' & -> & Hitems & Hmax & Hunf & Hroom'); [right; lia|].
      simpl.
      assert (Queue.qsize q' = S (Queue.qsize (work_queue sh))) as Hq'.
      { unfold Queue.qsize. rewrite Hitems, length_app. simpl. lia. }
      edestruct (IH (S i)
                   {| work_queue := q'; stop_event := stop_event sh;
                      put_log := put_log sh ++ [item id i];
                      get_log := get_log sh |} fuel)
        as (sh' & -> & Hb & Hi' & Hfull); simpl; [lia..|].
      simpl in *. exists sh'.
      replace (i + S d) with (S i + d) by lia.
      split_and!; try done. by rewrite Hi', Hitems, <-app_assoc. }
  destruct (Hgen r 0 sh fuel) as (sh' & ? & ? & ? & ?); [done|lia|lia|done|].
  by exists sh'.
Qed.

(** Eight items for a new queue of capacity 3: blocked at the fourth. *)
Lemma producer_alone_blocks_witness :
  ∃ sh', call_producer 100 (new_shared 3) 0 8 (P_for 0) = (sh', P_for 3)
    ∧ producer sh' 0 8 (P_for 3) = None
    ∧ Queue.items (work_queue sh') = ["Item-0-0"; "Item-0-1"; "Item-0-2"].
Proof.
  destruct (producer_alone_blocks (new_shared 3) 0 8 100)
    as (sh' & Hcall & Hblocked & Hitems & _); [vm_compute; lia..|].
  exists sh'. split; [exact Hcall|]. split; [exact Hblocked|]. exact Hitems.
Defined.

Lemma call_consumer_drains fuel :
  ∀ l mx unf puts gets0,
  length l ≤ unf → 4 * length l + 2 ≤ fuel →
  call_consumer fuel
    {| work_queue := {| Queue.items := l; Queue.maxsize := mx;
                        Queue.unfinished_tasks := unf |};
       stop_event := true; put_log := puts; get_log := gets0 |} C_while
  = ({| work_queue := {| Queue.items := []; Queue.maxsize := mx;
                         Queue.unfinished_tasks := unf - length l |};
        stop_event := true; put_log := puts; get_log := gets0 ++ l |},
     C_finished).
Proof.
  intros l. revert fuel.
  induction l as [|x l IH]; intros fuel mx unf puts gets0 Hunf Hfuel.
  - do 2 (destruct fuel as [|fuel]; [simpl in *; lia|]). simpl.
    rewrite app_nil_r, Nat.sub_0_r. by destruct fuel.
  - do 4 (destruct fuel as [|fuel]; [simpl in *; lia|]).
    destruct unf as [|unf]; [simpl in *; lia|].
    simpl call_consumer. unfold Queue.get, set_queue. simpl.
    rewrite IH by (simpl in *; lia). by rewrite <-app_assoc.
Qed.

(** X6. [consumer] run with no other thread running and the event set,
    as in [test_consumer], on a queue that counts every item it holds as
    unfinished: it returns, having taken every item of the queue in
    order and marked each one done; the queue is empty. *)
Theorem consumer_alone_drains (sh : shared) (fuel : nat) :
  stop_event sh = true →
  Queue.qsize (work_queue sh) ≤ Queue.unfinished_tasks (work_queue sh) →
  4 * Queue.qsize (work_queue sh) + 2 ≤ fuel →
  ∃ sh', call_consumer fuel sh C_while = (sh', C_finished)
    ∧ Queue.empty (work_queue sh') = true
    ∧ get_log sh' = get_log sh ++ Queue.items (work_queue sh)
    ∧ Queue.unfinished_tasks (work_queue sh')
      = Queue.unfinished_tasks (work_queue sh) - Queue.qsize (work_queue sh)
    ∧ put_log sh' = put_log sh ∧ stop_event sh' = true.
Proof.
  destruct sh as [[l mx unf] stop puts gets0]. unfold Queue.qsize. simpl.
  intros -> Hunf Hfuel. eexists. split; [by apply call_consumer_drains|].
  done.
Qed.

(** The run of [test_consumer]: five items, then [stop_event.set()]. *)
Lemma consumer_alone_drains_witness :
  let sh := set_stop (call_producer 6 (new_shared 0) 0 5 (P_for 0)).1 in
  ∃ sh', call_consumer 22 sh C_while = (sh', C_finished)
    ∧ Queue.empty (work_queue sh') = true
    ∧ get_log sh'
      = ["Item-0-0"; "Item-0-1"; "Item-0-2"; "Item-0-3"; "Item-0-4"]
    ∧ Queue.unfinished_tasks (work_queue sh') = 0.
Proof.
  intros sh.
  destruct (consumer_alone_drains sh 22)
    as (sh' & Hcall & Hempty & Hlog & Hunf & _);
    [reflexivity|vm_compute; lia|vm_compute; lia|].
  exists sh'. split; [exact Hcall|]. split; [exact Hempty|].
  split; [exact Hlog|exact Hunf].
Defined.

(** A call in its loop has an action to take; a call that has not is
    not started, has returned or has raised. *)
Lemma consumer_standing_loop sh c :
  consumer_standing sh c = In_loop ↔ is_Some (consumer sh c).
Proof.
  unfold consumer_standing.
  destruct c as [| | | |it|]; simpl; unfold Queue.task_done.
  - split; [done|]. by intros [? ?].
  - split; [eauto|done].
  - split; [eauto|done].
  - destruct (Queue.get (work_queue sh)) as [[x|] q]; split; eauto.
  - destruct (Queue.unfinished_tasks (work_queue sh)); simpl.
    + split; [done|]. by intros [? ?].
    + split; [eauto|done].
  - split; [done|]. by intros [? ?].
Qed.

(** With the event not set, the consumer takes an item in three
    actions... *)
Lemma call_consumer_takes l :
  ∀ k mx unf puts gets0,
  length l ≤ unf →
  call_consumer (3 * length l + k)
    {| work_queue := {| Queue.items := l; Queue.maxsize := mx;
                        Queue.unfinished_tasks := unf |};
       stop_event := false; put_log := puts; get_log := gets0 |} C_while
  = call_consumer k
      {| work_queue := {| Queue.items := []; Queue.maxsize := mx;
                          Queue.unfinished_tasks := unf - length l |};
         stop_event := false; put_log := puts; get_log := gets0 ++ l |}
      C_while.
Proof.
  induction l as [|x l IH]; intros k mx unf puts gets0 Hunf.
  - simpl. by rewrite app_nil_r, Nat.sub_0_r.
  - destruct unf as [|unf]; [simpl in *; lia|].
    replace (3 * length (x :: l) + k) with (S (S (S (3 * length l + k))))
      by (simpl; lia).
    simpl call_consumer. unfold Queue.get, set_queue. simpl.
    rewrite IH by (simpl in *; lia). by rewrite <-app_assoc.
Qed.

(** ... and on the empty queue goes round the loop without effect. *)
Lemma call_consumer_polls k :
  ∀ mx unf puts gets0 c,
  c = C_while ∨ c = C_get →
  let sh := {| work_queue := {| Queue.items := []; Queue.maxsize := mx;
                                Queue.unfinished_tasks := unf |};
               stop_event := false; put_log := puts; get_log := gets0 |} in
  call_consumer k sh c = (sh, C_while) ∨ call_consumer k sh c = (sh, C_get).
Proof.
  induction k as [|k IH]; intros mx unf puts gets0 c Hc sh.
  - destruct Hc as [-> | ->]; simpl; auto.
  - destruct Hc as [-> | ->]; simpl; apply IH; auto.
Qed.

(** What holds of a consumer that runs alone with the event not set. *)
Lemma call_consumer_in_loop fuel :
  ∀ sh c,
  stop_event sh = false → c ≠ C_new → c ≠ C_empty → c ≠ C_finished →
  Queue.qsize (work_queue sh) + (if c is C_work _ then 1 else 0)
  ≤ Queue.unfinished_tasks (work_queue sh) →
  let r := call_consumer fuel sh c in
  r.2 ≠ C_new ∧ r.2 ≠ C_empty ∧ r.2 ≠ C_finished
  ∧ Queue.qsize (work_queue r.1) + (if r.2 is C_work _ then 1 else 0)
    ≤ Queue.unfinished_tasks (work_queue r.1)
  ∧ stop_event r.1 = false
  ∧ put_log r.1 = put_log sh
  ∧ get_log r.1 ++ Queue.items (work_queue r.1)
    = get_log sh ++ Queue.items (work_queue sh).
Proof.
  induction fuel as [|fuel IH]; intros sh c Hstop Hn He Hf Hunf; [done|].
  simpl. destruct c as [| | | |it|]; simpl; try done.
  - rewrite Hstop. by apply IH.
  - unfold Queue.get, Queue.qsize in *.
    destruct (Queue.items (work_queue sh)) as [|x l] eqn:Hq.
    + destruct (IH (set_queue (work_queue sh) sh) C_while)
        as (? & ? & ? & ? & ? & ? & Hlog); try done.
      { simpl. unfold Queue.qsize. rewrite Hq. simpl in *. lia. }
      split_and!; try done. rewrite Hlog. simpl. by rewrite Hq.
    + match goal with |- context [call_consumer fuel ?s ?c] =>
        destruct (IH s c) as (? & ? & ? & ? & ? & ? & Hlog); try done end.
      { simpl in *. lia. }
      split_and!; try done. rewrite Hlog. simpl. by rewrite <-app_assoc.
  - unfold Queue.task_done, Queue.qsize in *.
    destruct (Queue.unfinished_tasks (work_queue sh)) eqn:Hu; [lia|]. simpl.
    match goal with |- context [call_consumer fuel ?s ?c] =>
      destruct (IH s c) as (? & ? & ? & ? & ? & ? & Hlog); try done end.
    simpl. unfold Queue.qsize. simpl. lia.
Qed.

(** X7. [consumer] run with no other thread running and the event not
    set, on a queue that counts every item it holds as unfinished: the
    call never ends, however long it runs; it neither returns nor
    raises, and always has an action to take.  It takes the items of
    the queue in order and marks each done, three actions for an item,
    and then polls the empty queue for ever, changing nothing. *)
Theorem consumer_alone_waits (sh : shared) (fuel : nat) :
  stop_event sh = false →
  Queue.qsize (work_queue sh) ≤ Queue.unfinished_tasks (work_queue sh) →
  let r := call_consumer fuel sh C_while in
  r.2 ≠ C_finished
  ∧ consumer_standing r.1 r.2 = In_loop
  ∧ is_Some (consumer r.1 r.2)
  ∧ stop_event r.1 = false
  ∧ put_log r.1 = put_log sh
  ∧ get_log r.1 ++ Queue.items (work_queue r.1)
    = get_log sh ++ Queue.items (work_queue sh)
  ∧ (3 * Queue.qsize (work_queue sh) ≤ fuel →
     get_log r.1 = get_log sh ++ Queue.items (work_queue sh)
     ∧ Queue.items (work_queue r.1) = []
     ∧ Queue.unfinished_tasks (work_queue r.1)
       = Queue.unfinished_tasks (work_queue sh) - Queue.qsize (work_queue sh)
     ∧ (r.2 = C_while ∨ r.2 = C_get)).
Proof.
  intros Hstop Hunf r.
  destruct (call_consumer_in_loop fuel sh C_while)
    as (Hn & He & Hf & Hvalid & Hstop' & Hput & Hlog); try done.
  { simpl. lia. }
  fold r in Hn, He, Hf, Hvalid, Hstop', Hput, Hlog.
  assert (consumer_standing r.1 r.2 = In_loop) as Hloop.
  { unfold consumer_standing. destruct (r.2); try done.
    rewrite bool_decide_eq_false_2; [done|]. lia. }
  split_and!; try done.
  - by apply consumer_standing_loop.
  - intros Hfuel. subst r.
    destruct sh as [[l mx unf] stop puts gets0]. unfold Queue.qsize in *.
    simpl in *. subst stop.
    replace fuel with (3 * length l + (fuel - 3 * length l)) by lia.
    rewrite call_consumer_takes by done.
    destruct (call_consumer_polls (fuel - 3 * length l) mx (unf - length l)
                puts (gets0 ++ l) C_while) as [-> | ->]; auto.
Qed.

(** Five items and no [stop_event.set()]: still in the loop after a
    thousand actions, the five items taken and marked done. *)
Lemma consumer_alone_waits_witness :
  let sh := (call_producer 6 (new_shared 0) 0 5 (P_for 0)).1 in
  let r := call_consumer 1000 sh C_while in
  consumer_standing r.1 r.2 = In_loop
  ∧ get_log r.1
    = ["Item-0-0"; "Item-0-1"; "Item-0-2"; "Item-0-3"; "Item-0-4"]
  ∧ Queue.unfinished_tasks (work_queue r.1) = 0.
Proof.
  intros sh r.
  destruct (consumer_alone_waits sh 1000) as (_ & Hloop & _ & _ & _ & _ & Hall);
    [reflexivity|vm_compute; lia|].
  destruct Hall as (Hlog & _ & Hunf & _); [vm_compute; lia|].
  split; [exact Hloop|]. split.
  - unfold r. rewrite Hlog. vm_compute. reflexivity.
  - unfold r. rewrite Hunf. vm_compute. reflexivity.
Defined.

End calls_facts.

(** ** Every call runs once *)

Section executor_once_facts.
Import Executor.
Context {W A R : Type} (fn : A → W → R * W).
Implicit Types e : Executor.t W A R.

Lemma exec_once_create max_workers (w : W) :
  exec_once (create (A:=A) (R:=R) max_workers w).
Proof. intros h Hh. simpl in Hh. lia. Qed.

Lemma waits_zero h (l : list nat) :
  (∀ x, x ∈ l → x ≠ h) → sum_list_with (waits h) l = 0.
Proof.
  intros Hl. apply sum_list_with_zero, Forall_forall. intros x Hx.
  unfold waits. rewrite decide_False; [done|]. by apply Hl.
Qed.

Lemma runs_zero h (ws : list wpc) :
  (∀ w, ws !! w ≠ Some (Running h)) → sum_list_with (runs h) ws = 0.
Proof.
  intros Hws. apply sum_list_with_zero, Forall_lookup. intros w p Hw.
  destruct p as [|h']; simpl; [done|].
  rewrite decide_False; [done|]. intros ->. by apply (Hws w).
Qed.

Lemma completed_all (fs : list (option R)) :
  (∀ h, h < length fs → is_Some (mjoin (fs !! h))) →
  sum_list_with completed fs = length fs.
Proof.
  induction fs as [|o fs IH]; intros Hall; simpl; [done|].
  rewrite IH.
  - destruct (Hall 0) as [r Hr]; [simpl; lia|]. simpl in Hr. by subst.
  - intros h Hh. apply (Hall (S h)). simpl. lia.
Qed.

Lemma completed_insert (fs : list (option R)) h r :
  fs !! h = Some None →
  sum_list_with completed (<[h:=Some r]> fs)
  = S (sum_list_with completed fs).
Proof.
  intros Hh.
  pose proof (sum_list_with_insert completed _ _ _ (Some r) Hh) as Hsum.
  simpl in Hsum. lia.
Qed.

Lemma exec_once_submit max_workers a e :
  exec_inv fn max_workers e → exec_once e → exec_once (submit a e).2.
Proof.
  intros Hinv Honce h Hh. simpl in Hh. rewrite length_app in Hh.
  simpl in Hh. unfold places. simpl. rewrite sum_list_with_app. simpl.
  destruct (decide (h < length (futures e))) as [Hlt|Hge].
  - specialize (Honce h Hlt). unfold places in Honce.
    rewrite lookup_app_l by done. unfold waits at 2.
    rewrite decide_False by lia. lia.
  - assert (h = length (futures e)) as -> by lia.
    rewrite waits_zero, runs_zero.
    + unfold waits. rewrite decide_True by done.
      rewrite lookup_app_r by lia. by rewrite Nat.sub_diag.
    + intros w Hw. apply (einv_running _ _ _ Hinv) in Hw. lia.
    + intros x Hx ->. apply (einv_queue _ _ _ Hinv) in Hx. lia.
Qed.

Lemma exec_once_step w e e' :
  (∀ w h, workers e !! w = Some (Running h) → h < length (futures e)) →
  exec_once e →
  worker_step fn w e = Some e' →
  exec_once e'
  ∧ ((Executor.world e' = Executor.world e ∧ futures e' = futures e)
     ∨ (∃ h a, args e !! h = Some a ∧ futures e !! h = Some None
          ∧ futures e' = <[h:=Some (fn a (Executor.world e)).1]> (futures e)
          ∧ Executor.world e' = (fn a (Executor.world e)).2)).
Proof.
  intros Hrunning Honce Hstep. unfold worker_step in Hstep.
  destruct (workers e !! w) as [p|] eqn:Hw; simplify_eq/=.
  destruct p as [|h0].
  - destruct (work_queue e) as [|h0 rest] eqn:Hq; simplify_eq/=.
    split; [|by left]. intros h Hh. simpl in Hh.
    specialize (Honce h Hh). unfold places in *. simpl. rewrite Hq in Honce.
    simpl in Honce.
    pose proof (sum_list_with_insert (runs h) _ _ _ (Running h0) Hw) as Hsum.
    simpl in Hsum. unfold waits in Honce at 1. lia.
  - destruct (args e !! h0) as [a|] eqn:Ha; simplify_eq/=.
    destruct (fn a (Executor.world e)) as [r wd] eqn:Hfn; simplify_eq/=.
    assert (h0 < length (futures e)) as Hh0 by (by eapply Hrunning).
    pose proof (Honce h0 Hh0) as Hp0. unfold places in Hp0.
    pose proof (sum_list_with_lookup (runs h0) _ _ _ Hw) as Hrun.
    simpl in Hrun. rewrite decide_True in Hrun by done.
    destruct (lookup_lt_is_Some_2 _ _ Hh0) as [o Ho].
    rewrite Ho in Hp0. simpl in Hp0.
    assert (o = None) as -> by (destruct o; [simpl in Hp0; lia|done]).
    split.
    + intros h Hh. simpl in Hh. rewrite length_insert in Hh.
      specialize (Honce h Hh). unfold places in *. simpl.
      pose proof (sum_list_with_insert (runs h) _ _ _ Idle Hw) as Hsum.
      simpl in Hsum.
      destruct (decide (h0 = h)) as [->|Hne].
      * rewrite list_lookup_insert_eq by done. rewrite Ho in Honce.
        simpl in *. lia.
      * rewrite list_lookup_insert_ne by done. lia.
    + right. exists h0, a. rewrite Hfn. done.
Qed.

Lemma exec_once_worker_step max_workers w e e' :
  exec_inv fn max_workers e → exec_once e →
  worker_step fn w e = Some e' →
  exec_once e'
  ∧ ((Executor.world e' = Executor.world e ∧ futures e' = futures e)
     ∨ (∃ h a, args e !! h = Some a ∧ futures e !! h = Some None
          ∧ futures e' = <[h:=Some (fn a (Executor.world e)).1]> (futures e)
          ∧ Executor.world e' = (fn a (Executor.world e)).2)).
Proof. intros Hinv. apply exec_once_step, (einv_running _ _ _ Hinv). Qed.

(** A handle that a worker runs is at no other worker and is not
    done. *)
Lemma exec_once_running e h w :
  exec_once e → h < length (futures e) →
  workers e !! w = Some (Running h) →
  result h e = None
  ∧ (h ∉ work_queue e)
  ∧ ∀ w', workers e !! w' = Some (Running h) → w' = w.
Proof.
  intros Honce Hh Hw. specialize (Honce h Hh). unfold places in Honce.
  pose proof (sum_list_with_lookup (runs h) _ _ _ Hw) as Hrun.
  simpl in Hrun. rewrite decide_True in Hrun by done.
  split_and!.
  - unfold result. destruct (futures e !! h) as [[r|]|]; simpl in *;
      [lia|done|done].
  - intros Hin.
    assert (0 < sum_list_with (waits h) (work_queue e)); [|lia].
    apply list_elem_of_lookup_1 in Hin as [i Hi].
    pose proof (sum_list_with_lookup (waits h) _ _ _ Hi) as Hwait.
    unfold waits in Hwait at 1. rewrite decide_True in Hwait by done. lia.
  - intros w' Hw'. destruct (decide (w' = w)) as [|Hne]; [done|].
    pose proof (sum_list_with_two (runs h) _ _ _ _ _ Hne Hw' Hw) as Htwo.
    simpl in Htwo. rewrite decide_True in Htwo by done. lia.
Qed.

End executor_once_facts.

(** ** [sorted(results)] *)

Section sorted_facts.
Import Executor ThreadPool PoolOutput.

#[local] Instance tuple_le_trans : Transitive tuple_le.
Proof. intros [? ?] [? ?] [? ?]. unfold tuple_le. simpl. lia. Qed.

#[local] Instance tuple_le_total : Total tuple_le.
Proof. intros [? ?] [? ?]. unfold tuple_le. simpl. lia. Qed.

#[local] Instance tuple_le_antisymm : AntiSymm (=) tuple_le.
Proof.
  intros [a b] [c d]. unfold tuple_le. simpl. intros H1 H2.
  assert (a = c ∧ b = d) as [-> ->] by lia. done.
Qed.

(** [sorted] gives the one ascending arrangement of the list. *)
Lemma sorted_unique (l k : list (Z * Z)) :
  l ≡ₚ k → StronglySorted tuple_le k → sorted l = k.
Proof.
  intros Hperm Hk. apply (StronglySorted_unique tuple_le); [|done|].
  - apply (StronglySorted_merge_sort tuple_le).
  - unfold sorted. by rewrite merge_sort_Permutation.
Qed.

Lemma task_entries_sorted (start n : nat) :
  StronglySorted tuple_le (task_entry <$> seq start n).
Proof.
  revert start. induction n as [|n IH]; intros start; simpl;
    constructor; [apply IH|].
  apply Forall_fmap, Forall_seq. intros j Hj. left. simpl. lia.
Qed.

(** X12. [run_thread_pool_example]: whatever the order in which the
    tasks completed and were retrieved, [sorted(results)], the list the
    function prints last, is [(0, 0), (1, 1), (2, 4), ...], the pair
    [(i, i * i)] of every task in the order of the task numbers; before
    that, it is the ascending list of the results retrieved so far. *)
Theorem pool_sorted_results {duration : Type} (num_tasks max_workers : nat)
    (w0 : world duration) (s : dstate duration) :
  rtc (drain_step num_tasks) (drain_init max_workers w0) s →
  results_line s ≡ₚ task_entry <$> yielded s
  ∧ StronglySorted tuple_le (results_line s)
  ∧ (dmain s = D_exit ∨ dmain s = D_finished →
     results_line s = task_entry <$> seq 0 num_tasks).
Proof.
  intros Hs.
  pose proof (drain_inv_reachable num_tasks max_workers w0 s Hs)
    as [Hexec Hfs Hargs Hlen Hnd Hsub Hres Hmain].
  unfold results_line. split_and!.
  - unfold sorted. by rewrite merge_sort_Permutation, Hres.
  - apply (StronglySorted_merge_sort tuple_le).
  - intros Hm.
    assert (length (dfutures s) = num_tasks ∧ dfutures s ⊆ yielded s)
      as [Hn Hall] by (by destruct Hm as [Hm|Hm]; rewrite Hm in Hmain).
    apply sorted_unique; [|apply task_entries_sorted].
    rewrite Hres. apply fmap_Permutation.
    rewrite <-Hn, Hfs, length_seq, <-Hfs.
    apply NoDup_Permutation; [done|rewrite Hfs; apply NoDup_seq|].
    intros x. split; auto.
Qed.

End sorted_facts.

Section pool_output_runs.
Import Executor ThreadPool PoolOutput.

(** The run of the example in which the workers complete the calls
    three at a time in the reverse order. *)
Lemma pool_sorted_results_witness :
  let s := drain_run 10 drain_example_schedule (drain_init 3 example_world) in
  results s
  = [(2, 4); (1, 1); (0, 0); (5, 25); (4, 16); (3, 9); (8, 64); (7, 49);
     (6, 36); (9, 81)]%Z
  ∧ results_line s
    = [(0, 0); (1, 1); (2, 4); (3, 9); (4, 16); (5, 25); (6, 36); (7, 49);
       (8, 64); (9, 81)]%Z.
Proof.
  intros s. split; [vm_compute; reflexivity|].
  destruct (pool_sorted_results 10 3 example_world s) as (_ & _ & Hfin).
  - apply drain_run_rtc.
  - rewrite Hfin; [reflexivity|]. right. vm_compute. reflexivity.
Defined.

End pool_output_runs.

(** ** Submitting calls and taking their results in order *)

Section submit_facts.
Import Executor ThreadPool.
Context {duration A R : Type}.
Context (fn : A → world duration → R * world duration) (Q : A → R → Prop).
Context (numbers : list A) (max_workers : nat).
Implicit Types s : xstate duration A R.

Hypothesis fn_related : ∀ a w, Q a (fn a w).1.

Lemma submit_inv_init w0 :
  submit_inv fn Q numbers max_workers (map_init max_workers w0).
Proof.
  split; simpl; try done.
  - apply exec_inv_create.
  - apply exec_once_create.
  - lia.
  - intros h Hh. lia.
Qed.

Lemma worker_step_result w (e e' : Executor.t (world duration) A R) h :
  exec_inv fn max_workers e → exec_once e →
  worker_step fn w e = Some e' →
  is_Some (result h e) → is_Some (result h e').
Proof.
  intros Hexec Honce Hw Hr.
  destruct (exec_once_worker_step _ _ _ _ _ Hexec Honce Hw)
    as [_ [[_ Hf]|(h0 & a & Ha & Hnone & Hf & _)]]; unfold result in *.
  - by rewrite Hf.
  - rewrite Hf. destruct (decide (h0 = h)) as [->|Hne].
    + rewrite Hnone in Hr. simpl in Hr. by destruct Hr.
    + by rewrite list_lookup_insert_ne.
Qed.

Lemma submit_inv_step s s' :
  submit_inv fn Q numbers max_workers s → map_step fn numbers s s' →
  submit_inv fn Q numbers max_workers s'
  ∧ S (map_measure numbers s') = map_measure numbers s.
Proof.
  intros [Hexec Honce Hfs Hargs Hlen Hres Hdone Hmain] [[w|choice] Hstep];
    simpl in Hstep.
  - (* a worker *)
    destruct (worker_step fn w (xexecutor s)) as [e'|] eqn:Hw; simplify_eq/=.
    destruct (exec_inv_worker_step fn _ _ _ _ Hexec Hw)
      as (Hexec' & Hm & Hargs' & Hlen').
    destruct (exec_once_worker_step _ _ _ _ _ Hexec Honce Hw)
      as [Honce' _].
    split; [|unfold map_measure; simpl; lia].
    split; simpl; try done; try congruence.
    intros h Hh.
    apply (worker_step_result w (xexecutor s) e'); [done..|by apply Hdone].
  - (* the main thread *)
    unfold map_example in Hstep. unfold map_measure.
    destruct (xmain s) as [i|i| |] eqn:Hm; simplify_eq/=.
    + destruct Hmain as [-> Hres0].
      destruct (numbers !! length (fs s)) as [a|] eqn:Ha; simplify_eq/=.
      * pose proof (lookup_lt_Some _ _ _ Ha) as Hlt.
        split; [|unfold workers_measure; simpl; rewrite length_app; simpl;
                 lia].
        split; simpl.
        -- by apply exec_inv_submit.
        -- by eapply exec_once_submit.
        -- rewrite length_app. simpl. rewrite Nat.add_1_r, seq_S. simpl.
           by rewrite Hfs at 1.
        -- rewrite length_app. simpl. rewrite Nat.add_1_r.
           by rewrite (take_S_r _ _ a), Hargs.
        -- rewrite length_app. simpl. lia.
        -- done.
        -- rewrite Hres0. simpl. intros h Hh. lia.
        -- rewrite length_app. simpl. split; [lia|done].
      * apply lookup_ge_None_1 in Ha.
        split; [|simpl; lia].
        split; simpl; try done. rewrite Hres0. simpl. split_and!; lia.
    + destruct Hmain as (Hn & -> & Hi).
      destruct (fs s !! length (xresults s)) as [h|] eqn:Hh; simplify_eq/=.
      * destruct (result h (xexecutor s)) as [r|] eqn:Hr; simplify_eq/=.
        pose proof (lookup_lt_Some _ _ _ Hh) as Hlt.
        rewrite Hfs in Hh. apply lookup_seq in Hh as [-> _]. simpl in Hr.
        destruct (einv_result _ _ _ Hexec _ _ Hr) as (a & w & Ha & ->).
        rewrite Hargs, Hn, take_ge in Ha by done.
        split; [|simpl; lia].
        split; simpl; try done.
        -- rewrite length_app. simpl. rewrite Nat.add_1_r.
           rewrite (take_S_r _ _ a) by done.
           apply Forall2_app; [done|]. by repeat constructor.
        -- intros h. rewrite length_app. simpl. intros Hh.
           destruct (decide (h = length (xresults s))) as [->|Hne].
           ++ rewrite Hr. by eexists.
           ++ apply Hdone. lia.
        -- rewrite length_app. simpl. split_and!; [done|lia|lia].
      * apply lookup_ge_None_1 in Hh.
        split; [|simpl; lia].
        split; simpl; try done. split; [done|lia].
    + destruct (shutdown (xexecutor s)) as [e'|] eqn:He; simplify_eq/=.
      apply shutdown_Some in He as ->.
      split; [|simpl; lia]. by split.
Qed.

Lemma submit_inv_reachable w0 s :
  rtc (map_step fn numbers) (map_init max_workers w0) s →
  submit_inv fn Q numbers max_workers s.
Proof.
  revert s. apply rtc_ind_r.
  - apply submit_inv_init.
  - intros s1 s2 _ Hstep IH. by eapply submit_inv_step.
Qed.

Lemma submit_progress s :
  submit_inv fn Q numbers max_workers s →
  0 < max_workers → xmain s ≠ X_finished →
  ∃ s', map_step fn numbers s s'.
Proof.
  intros [Hexec Honce Hfs Hargs Hlen Hres Hdone Hmain] Hpos Hnf.
  assert (work_queue (xexecutor s) ≠ []
          ∨ 0 < sum_list_with running (workers (xexecutor s)) →
          ∃ s', map_step fn numbers s s') as Hworker.
  { intros Hwork.
    destruct (exec_progress fn _ _ Hexec Hpos Hwork) as (w & e' & Hw).
    eexists. exists (Worker w). simpl. by rewrite Hw. }
  assert (∀ s', map_example numbers s = Some s' →
                ∃ s', map_step fn numbers s s') as Hmain_step.
  { intros s' Hs'. exists s'. by exists (Main 0). }
  unfold map_example in Hmain_step.
  destruct (xmain s) as [i|i| |] eqn:Hm; [| | |done].
  - destruct (numbers !! i); eauto.
  - destruct (fs s !! i) as [h|] eqn:Hh; [|eauto].
    destruct (result h (xexecutor s)) as [r|] eqn:Hr; [simpl in *; eauto|].
    apply Hworker. eapply exec_pending_work; [done| |done].
    rewrite Hfs in Hh. by apply lookup_seq in Hh as [-> ?].
  - destruct (shutdown (xexecutor s)) as [e'|] eqn:He; [simpl in *; eauto|].
    apply Hworker. by apply shutdown_None.
Qed.

End submit_facts.

(** ** The body of [task], action by action *)

Section zip_facts.
Context {A B : Type} (f : A → B → nat).

Lemma sum_zip_insert (l : list A) (k : list B) (i : nat) x y x' y' :
  l !! i = Some x → k !! i = Some y →
  sum_list (zip_with f (<[i:=x']> l) (<[i:=y']> k)) + f x y
  = sum_list (zip_with f l k) + f x' y'.
Proof.
  intros Hl Hk. rewrite <-insert_zip_with.
  apply (sum_list_with_insert id). rewrite lookup_zip_with, Hl. simpl.
  by rewrite Hk.
Qed.

Lemma sum_zip_insert_l (l : list A) (k : list B) (i : nat) x y x' :
  l !! i = Some x → k !! i = Some y →
  sum_list (zip_with f (<[i:=x']> l) k) + f x y
  = sum_list (zip_with f l k) + f x' y.
Proof.
  intros Hl Hk. rewrite <-(list_insert_id k i y) at 1 by done.
  by apply sum_zip_insert.
Qed.

Lemma sum_zip_insert_r (l : list A) (k : list B) (i : nat) x y y' :
  l !! i = Some x → k !! i = Some y →
  sum_list (zip_with f l (<[i:=y']> k)) + f x y
  = sum_list (zip_with f l k) + f x y'.
Proof.
  intros Hl Hk. rewrite <-(list_insert_id l i x) at 1 by done.
  by apply sum_zip_insert.
Qed.

Lemma sum_zip_le (g : A → nat) (l : list A) (k : list B) :
  (∀ x y, f x y ≤ g x) →
  sum_list (zip_with f l k) ≤ sum_list_with g l.
Proof.
  intros Hle. revert k. induction l as [|x l IH]; intros [|y k]; simpl;
    try lia.
  specialize (IH k). specialize (Hle x y). lia.
Qed.

End zip_facts.

Section steps_facts.
Import Executor ThreadPool PoolOutput PoolSteps.
Context {duration : Type}.
Implicit Types e : Executor.t (world duration) Z (Z * Z * duration).
Implicit Types b : list (kpc duration).
Implicit Types out : list (event duration).

(** The four actions of the body are [task]. *)
Lemma call_task_task (task_id : Z) (w : world duration) :
  call_task 4 task_id K_draw w = Some (task task_id w).
Proof.
  simpl. unfold task, random_uniform, print. simpl. done.
Qed.

Lemma at_worker_insert (ws : list wpc) b w p k p' k' h P :
  ws !! w = Some p → b !! w = Some k →
  (p = Running h ∧ P k = true ↔ p' = Running h ∧ P k' = true) →
  at_worker (<[w:=p']> ws) (<[w:=k']> b) h P ↔ at_worker ws b h P.
Proof.
  intros Hw Hb Hsame.
  pose proof (lookup_lt_Some _ _ _ Hw). pose proof (lookup_lt_Some _ _ _ Hb).
  split; intros (w' & k'' & Hw' & Hb' & HP).
  - destruct (decide (w' = w)) as [->|Hne].
    + rewrite list_lookup_insert_eq in Hw' by done.
      rewrite list_lookup_insert_eq in Hb' by done. simplify_eq.
      destruct Hsame as [_ [-> HP']]; [done|]. by exists w, k.
    + rewrite list_lookup_insert_ne in Hw' by done.
      rewrite list_lookup_insert_ne in Hb' by done.
      by exists w', k''.
  - destruct (decide (w' = w)) as [->|Hne].
    + simplify_eq. destruct Hsame as [[-> HP'] _]; [done|].
      exists w, k'. by rewrite !list_lookup_insert_eq by done.
    + exists w', k''. by rewrite !list_lookup_insert_ne by done.
Qed.

Lemma at_worker_insert_l (ws : list wpc) b w p k p' h P :
  ws !! w = Some p → b !! w = Some k →
  (p = Running h ∧ P k = true ↔ p' = Running h ∧ P k = true) →
  at_worker (<[w:=p']> ws) b h P ↔ at_worker ws b h P.
Proof.
  intros Hw Hb Hsame. rewrite <-(list_insert_id b w k) at 1 by done.
  by eapply at_worker_insert.
Qed.

Lemma at_worker_insert_r (ws : list wpc) b w p k k' h P :
  ws !! w = Some p → b !! w = Some k →
  (p = Running h ∧ P k = true ↔ p = Running h ∧ P k' = true) →
  at_worker ws (<[w:=k']> b) h P ↔ at_worker ws b h P.
Proof.
  intros Hw Hb Hsame. rewrite <-(list_insert_id ws w p) at 1 by done.
  by eapply at_worker_insert.
Qed.

Lemma starting_id_lookup out (z : Z) :
  z ∈ omap starting_id out ↔ ∃ j d, out !! j = Some (Starting z d).
Proof.
  rewrite list_elem_of_omap. split.
  - intros (ev & He & Hz). destruct ev; simplify_eq/=.
    apply list_elem_of_lookup_1 in He as [j Hj]. eauto.
  - intros (j & d & Hj). exists (Starting z d). split; [|done].
    by eapply list_elem_of_lookup_2.
Qed.

Lemma completed_id_lookup out (z : Z) :
  z ∈ omap completed_id out ↔ ∃ j, out !! j = Some (Completed z).
Proof.
  rewrite list_elem_of_omap. split.
  - intros (ev & He & Hz). destruct ev; simplify_eq/=.
    by apply list_elem_of_lookup_1 in He.
  - intros [j Hj]. exists (Completed z). split; [|done].
    by eapply list_elem_of_lookup_2.
Qed.

Lemma lookup_snoc_cases {T} (l k : list T) (i : nat) (x : T) :
  (l ++ k) !! i = Some x →
  (i < length l ∧ l !! i = Some x)
  ∨ (length l ≤ i ∧ k !! (i - length l) = Some x).
Proof.
  intros Hi. destruct (decide (i < length l)).
  - left. by rewrite lookup_app_l in Hi.
  - right. rewrite lookup_app_r in Hi by lia. split; [lia|done].
Qed.

(** Every line is of one of the three kinds. *)
Lemma length_lines out :
  length out
  = length (omap starting_id out) + length (omap completed_id out)
    + length (omap retrieved_entry out).
Proof.
  induction out as [|[] out IH]; csimpl; [done|..]; rewrite IH; lia.
Qed.

(** The actions of a worker. *)
Lemma worker_step_cases w e b e' b' :
  PoolSteps.worker_step w e b = Some (e', b') →
  (∃ h rest,
     workers e !! w = Some Idle ∧ work_queue e = h :: rest
     ∧ Executor.worker_step task w e = Some e'
     ∧ e' = {| args := args e; work_queue := rest;
               workers := <[w:=Running h]> (workers e);
               futures := futures e; Executor.world := Executor.world e |}
     ∧ b' = <[w:=K_draw]> b)
  ∨ (∃ h a k,
       workers e !! w = Some (Running h) ∧ args e !! h = Some a
       ∧ b !! w = Some k
       ∧ ((∃ k' wd,
             task_step a k (Executor.world e) = (inl k', wd)
             ∧ e' = set_world wd e ∧ b' = <[w:=k']> b)
          ∨ (∃ d,
               k = K_return d
               ∧ e' = {| args := args e; work_queue := work_queue e;
                         workers := <[w:=Idle]> (workers e);
                         futures := <[h:=Some (a, (a * a)%Z, d)]> (futures e);
                         Executor.world := Executor.world e |}
               ∧ b' = b))).
Proof.
  unfold PoolSteps.worker_step. intros Hstep.
  destruct (workers e !! w) as [[|h]|] eqn:Hw; simplify_eq/=.
  - left.
    destruct (Executor.worker_step task w e) as [e1|] eqn:He1; simplify_eq/=.
    unfold Executor.worker_step in He1. rewrite Hw in He1. simpl in He1.
    destruct (work_queue e) as [|h rest] eqn:Hq; simplify_eq/=.
    by exists h, rest.
  - right.
    destruct (args e !! h) as [a|] eqn:Ha; simplify_eq/=.
    destruct (b !! w) as [k|] eqn:Hk; simplify_eq/=.
    exists h, a, k. split_and!; try done.
    destruct (task_step a k (Executor.world e)) as [[k'|r] wd] eqn:Hts;
      simplify_eq/=.
    + left. by exists k', wd.
    + right. destruct k as [|d|d|d]; simplify_eq/=.
      exists d. unfold Executor.worker_step in Hstep. simpl in Hstep.
      rewrite Hw in Hstep. simpl in Hstep. rewrite Ha in Hstep.
      simpl in Hstep. by simplify_eq.
Qed.

Lemma exec_inv_return max_workers e w h a d wd :
  exec_inv task max_workers e →
  workers e !! w = Some (Running h) → args e !! h = Some a →
  exec_inv task max_workers
    {| args := args e; work_queue := work_queue e;
       workers := <[w:=Idle]> (workers e);
       futures := <[h:=Some (a, (a * a)%Z, d)]> (futures e);
       Executor.world := wd |}.
Proof.
  intros Hexec Hw Ha.
  set (w1 := {| uniform := λ _, d; draws := 0; stdout := [] |}
         : world duration).
  pose proof (exec_inv_set_world task max_workers e w1 Hexec) as Hexec1.
  match type of Hexec1 with exec_inv _ _ ?e1 =>
    assert (Executor.worker_step task w e1
            = Some {| args := args e; work_queue := work_queue e;
                      workers := <[w:=Idle]> (workers e);
                      futures := <[h:=Some (a, (a * a)%Z, d)]> (futures e);
                      Executor.world := (task a w1).2 |}) as Hstep
  end.
  { unfold Executor.worker_step. simpl. rewrite Hw. simpl. rewrite Ha.
    simpl. done. }
  destruct (exec_inv_worker_step _ _ _ _ _ Hexec1 Hstep) as [Hexec2 _].
  by apply (exec_inv_set_world task max_workers _ wd) in Hexec2.
Qed.

(** A step of a worker keeps the invariants; [l] is what it prints. *)
Lemma task_inv_worker_step max_workers (w0 : world duration) w e b out e' b' :
  exec_inv task max_workers e → args_are_handles e → task_inv w0 e b out →
  PoolSteps.worker_step w e b = Some (e', b') →
  exec_inv task max_workers e'
  ∧ args e' = args e
  ∧ length (futures e') = length (futures e)
  ∧ S (steps_measure e' b') = steps_measure e b
  ∧ (∀ h r, result h e = Some r → result h e' = Some r)
  ∧ ∃ l, task_inv w0 e' b' (out ++ l) ∧ omap retrieved_entry l = [].
Proof.
  intros Hexec Hargs [Honce Hb Hcnt Hu Hd Hstd Hst Hco Hsnd Hcnd Hh Hsta]
    Hstep.
  pose proof (einv_running _ _ _ Hexec) as Hrunning.
  destruct (worker_step_cases _ _ _ _ _ Hstep)
    as [(h & rest & Hw & Hq & Hes & -> & ->)
       |(h & a & k & Hw & Ha & Hk
         & [(k' & wd & Hts & -> & ->)|(d & -> & -> & ->)])].
  - (* a handle is taken *)
    destruct (exec_inv_worker_step _ _ _ _ _ Hexec Hes)
      as (Hexec' & _ & _ & _).
    destruct (exec_once_step _ _ _ _ Hrunning Honce Hes) as [Honce' _].
    destruct (lookup_lt_is_Some_2 b w) as [k Hk].
    { rewrite Hb. by eapply lookup_lt_Some. }
    pose proof (sum_zip_insert body_left _ _ _ _ _ (Running h) K_draw Hw Hk)
      as Hleft.
    pose proof (sum_zip_insert drawn _ _ _ _ _ (Running h) K_draw Hw Hk)
      as Hdrawn.
    pose proof (sum_list_with_insert running _ _ _ (Running h) Hw) as Hrun.
    simpl in Hleft, Hdrawn, Hrun.
    split_and!; try done.
    { unfold steps_measure. simpl. rewrite Hq. simpl. lia. }
    exists []. rewrite app_nil_r. split; [|done].
    split; simpl; try done.
    + by rewrite !length_insert.
    + rewrite Hq in Hcnt. simpl in Hcnt. lia.
    + lia.
    + intros h' Hh'. rewrite (Hst h' Hh').
      rewrite (at_worker_insert _ _ _ _ _ _ _ _ _ Hw Hk); [done|].
      split; intros [? ?]; done.
    + intros h' Hh'. rewrite (Hco h' Hh').
      rewrite (at_worker_insert _ _ _ _ _ _ _ _ _ Hw Hk); [done|].
      split; intros [? ?]; done.
  - (* an action inside the body *)
    assert (a = Z.of_nat h) as -> by (by apply Hargs).
    assert (h < length (futures e)) as Hlt by (by eapply Hrunning).
    destruct (exec_once_running _ _ _ Honce Hlt Hw) as (Hnone & _ & Huniq).
    pose proof (exec_inv_set_world task max_workers e wd Hexec) as Hexec'.
    pose proof (λ k', sum_zip_insert_r body_left _ _ _ _ _ k' Hw Hk) as Hleft.
    pose proof (λ k', sum_zip_insert_r drawn _ _ _ _ _ k' Hw Hk) as Hdrawn.
    assert (∀ P, P k = false →
            ¬ at_worker (workers e) b h P) as Hnot.
    { intros P HP (w' & k'' & Hw' & Hk' & HP').
      rewrite (Huniq _ Hw') in Hk'. congruence. }
    assert (∀ P h', P k' = P k →
            at_worker (workers e) (<[w:=k']> b) h' P
            ↔ at_worker (workers e) b h' P) as Hsame.
    { intros P h' HP. apply (at_worker_insert_r _ _ _ _ _ _ _ _ Hw Hk).
      by rewrite HP. }
    assert (∀ P h', h' ≠ h →
            at_worker (workers e) (<[w:=k']> b) h' P
            ↔ at_worker (workers e) b h' P) as Hother.
    { intros P h' Hne. apply (at_worker_insert_r _ _ _ _ _ _ _ _ Hw Hk).
      split; intros [? ?]; simplify_eq. }
    assert (∀ P, P k' = true → at_worker (workers e) (<[w:=k']> b) h P)
      as Hnow.
    { intros P HP. exists w, k'. split_and!; [done| |done].
      apply list_lookup_insert_eq. by eapply lookup_lt_Some. }
    destruct k as [|d|d|d]; simpl in Hts; simplify_eq.
    + (* the draw *)
      specialize (Hleft (K_starting (uniform (Executor.world e)
                                       (draws (Executor.world e))))).
      specialize (Hdrawn (K_starting (uniform (Executor.world e)
                                        (draws (Executor.world e))))).
      simpl in Hleft, Hdrawn.
      split_and!; try done.
      { unfold steps_measure. simpl. lia. }
      exists []. rewrite app_nil_r. split; [|done].
      split; simpl; try done.
      * by rewrite length_insert.
      * lia.
      * intros h' Hh'. by rewrite (Hst h' Hh'), Hsame.
      * intros h' Hh'. by rewrite (Hco h' Hh'), Hsame.
    + (* the first line *)
      specialize (Hleft (K_sleep d)). specialize (Hdrawn (K_sleep d)).
      simpl in Hleft, Hdrawn.
      split_and!; try done.
      { unfold steps_measure. simpl. lia. }
      exists [Starting (Z.of_nat h) d]. split; [|done].
      split; simpl; try done.
      * by rewrite length_insert.
      * lia.
      * by rewrite Hstd, <-app_assoc.
      * intros h' Hh'. rewrite omap_app, elem_of_app. simpl.
        rewrite list_elem_of_singleton.
        destruct (decide (h' = h)) as [->|Hne].
        -- split; [intros _; left; by apply Hnow|by right].
        -- rewrite Hother, (Hst h' Hh') by done.
           split; [intros [?|?]; [done|lia]|by left].
      * intros h' Hh'. rewrite omap_app. simpl. rewrite app_nil_r.
        by rewrite (Hco h' Hh'), Hsame.
      * rewrite omap_app. simpl. apply NoDup_app. split_and!; [done| |].
        -- intros x Hx ->%list_elem_of_singleton.
           apply (Hst h Hlt) in Hx as [Hx|[r Hr]].
           ++ by apply (Hnot said_starting).
           ++ unfold result in *. congruence.
        -- apply NoDup_singleton.
      * rewrite omap_app. simpl. by rewrite app_nil_r.
      * intros z. rewrite !omap_app, !elem_of_app. simpl.
        rewrite list_elem_of_singleton.
        intros [[Hz| ->]|[Hz|Hz]]; eauto.
        by apply elem_of_nil in Hz.
      * intros j z [[Hj Hz]|[Hj Hz]]%lookup_snoc_cases.
        -- destruct (Hsta j z Hz) as (i & d' & Hi & Hz').
           exists i, d'. split; [done|].
           rewrite lookup_app_l; [done|]. by eapply lookup_lt_Some.
        -- by destruct (j - length out) as [|n]; simplify_eq/=.
    + (* the second line *)
      specialize (Hleft (K_return d)). specialize (Hdrawn (K_return d)).
      simpl in Hleft, Hdrawn.
      split_and!; try done.
      { unfold steps_measure. simpl. lia. }
      exists [Completed (Z.of_nat h)]. split; [|done].
      split; simpl; try done.
      * by rewrite length_insert.
      * lia.
      * by rewrite Hstd, <-app_assoc.
      * intros h' Hh'. rewrite omap_app. simpl. rewrite app_nil_r.
        by rewrite (Hst h' Hh'), Hsame.
      * intros h' Hh'. rewrite omap_app, elem_of_app. simpl.
        rewrite list_elem_of_singleton.
        destruct (decide (h' = h)) as [->|Hne].
        -- split; [intros _; left; by apply Hnow|by right].
        -- rewrite Hother, (Hco h' Hh') by done.
           split; [intros [?|?]; [done|lia]|by left].
      * rewrite omap_app. simpl. by rewrite app_nil_r.
      * rewrite omap_app. simpl. apply NoDup_app. split_and!; [done| |].
        -- intros x Hx ->%list_elem_of_singleton.
           apply (Hco h Hlt) in Hx as [Hx|[r Hr]].
           ++ by apply (Hnot said_completed).
           ++ unfold result in *. congruence.
        -- apply NoDup_singleton.
      * intros z. rewrite !omap_app, !elem_of_app. simpl.
        rewrite list_elem_of_singleton.
        intros [[Hz|Hz]|[Hz| ->]]; eauto.
        by apply elem_of_nil in Hz.
      * intros j z [[Hj Hz]|[Hj Hz]]%lookup_snoc_cases.
        -- destruct (Hsta j z Hz) as (i & d' & Hi & Hz').
           exists i, d'. split; [done|].
           rewrite lookup_app_l; [done|]. by eapply lookup_lt_Some.
        -- destruct (j - length out) as [|n] eqn:Hn; simplify_eq/=.
           assert (Z.of_nat h ∈ omap starting_id out) as Hin.
           { apply (Hst h Hlt). left. exists w, (K_sleep d). done. }
           apply starting_id_lookup in Hin as (i & d' & Hi).
           exists i, d'. pose proof (lookup_lt_Some _ _ _ Hi).
           split; [lia|]. by rewrite lookup_app_l.
  - (* the return *)
    assert (a = Z.of_nat h) as -> by (by apply Hargs).
    assert (h < length (futures e)) as Hlt by (by eapply Hrunning).
    destruct (exec_once_running _ _ _ Honce Hlt Hw) as (Hnone & _ & Huniq).
    assert (futures e !! h = Some None) as Hslot.
    { unfold result in Hnone.
      destruct (lookup_lt_is_Some_2 _ _ Hlt) as [[r|] Hr];
        rewrite Hr in Hnone; [done|]. done. }
    set (r := (Z.of_nat h, (Z.of_nat h * Z.of_nat h)%Z, d)).
    assert (Executor.worker_step (λ _ wd, (r, wd)) w e
            = Some {| args := args e; work_queue := work_queue e;
                      workers := <[w:=Idle]> (workers e);
                      futures := <[h:=Some r]> (futures e);
                      Executor.world := Executor.world e |}) as Hes.
    { unfold Executor.worker_step. rewrite Hw. simpl. rewrite Ha. done. }
    destruct (exec_once_step _ _ _ _ Hrunning Honce Hes) as [Honce' _].
    pose proof (exec_inv_return max_workers e w h _ d (Executor.world e)
                  Hexec Hw Ha) as Hexec'.
    pose proof (sum_zip_insert_l body_left _ _ _ _ _ Idle Hw Hk) as Hleft.
    pose proof (sum_zip_insert_l drawn _ _ _ _ _ Idle Hw Hk) as Hdrawn.
    pose proof (sum_list_with_insert running _ _ _ Idle Hw) as Hrun.
    pose proof (completed_insert _ _ r Hslot) as Hdone.
    simpl in Hleft, Hdrawn, Hrun.
    assert (∀ P h', h' ≠ h →
            at_worker (<[w:=Idle]> (workers e)) b h' P
            ↔ at_worker (workers e) b h' P) as Hother.
    { intros P h' Hne. apply (at_worker_insert_l _ _ _ _ _ _ _ _ Hw Hk).
      split; intros [? ?]; simplify_eq. }
    split_and!; try done.
    { simpl. by rewrite length_insert. }
    { unfold steps_measure. simpl. lia. }
    { intros h' r' Hr'. unfold result in *. simpl.
      rewrite list_lookup_insert_ne; [done|]. intros ->. congruence. }
    exists []. rewrite app_nil_r. split; [|done].
    split; simpl; try done.
    + by rewrite length_insert.
    + rewrite length_insert. fold r. lia.
    + fold r. lia.
    + intros h' Hh'. rewrite length_insert in Hh'. unfold result. simpl.
      destruct (decide (h' = h)) as [->|Hne].
      * rewrite list_lookup_insert_eq by done. simpl.
        split; [intros _; by right|intros _].
        apply (Hst h Hlt). left. by exists w, (K_return d).
      * rewrite list_lookup_insert_ne, Hother by done. by apply Hst.
    + intros h' Hh'. rewrite length_insert in Hh'. unfold result. simpl.
      destruct (decide (h' = h)) as [->|Hne].
      * rewrite list_lookup_insert_eq by done. simpl.
        split; [intros _; by right|intros _].
        apply (Hco h Hlt). left. by exists w, (K_return d).
      * rewrite list_lookup_insert_ne, Hother by done. by apply Hco.
    + intros z Hz. rewrite length_insert. by apply Hh.
Qed.

Lemma task_inv_init max_workers (w0 : world duration) :
  task_inv w0 (create max_workers w0) (replicate max_workers K_draw) [].
Proof.
  split; simpl; try done.
  - apply exec_once_create.
  - by rewrite !length_replicate.
  - rewrite sum_list_with_replicate. simpl. lia.
  - rewrite zip_with_replicate, sum_list_with_replicate. simpl. lia.
  - by rewrite app_nil_r.
  - intros h Hh. lia.
  - intros h Hh. lia.
  - constructor.
  - constructor.
  - intros z [Hz|Hz]; by apply elem_of_nil in Hz.
Qed.

Lemma task_inv_submit max_workers (w0 : world duration) a e b out :
  exec_inv task max_workers e → task_inv w0 e b out →
  task_inv w0 (submit a e).2 b out.
Proof.
  intros Hexec [Honce Hb Hcnt Hu Hd Hstd Hst Hco Hsnd Hcnd Hh Hsta].
  assert (∀ P, ¬ at_worker (workers e) b (length (futures e)) P) as Hnew.
  { intros P (w & k & Hw & _). apply (einv_running _ _ _ Hexec) in Hw. lia. }
  assert (∀ z, z ∈ omap starting_id out ∨ z ∈ omap completed_id out →
          z ≠ Z.of_nat (length (futures e))) as Hfresh.
  { intros z (h & Hlt & ->)%Hh. lia. }
  split; simpl; try done.
  - by eapply exec_once_submit.
  - rewrite !length_app, sum_list_with_app. simpl. lia.
  - rewrite sum_list_with_app. simpl. lia.
  - intros h Hh'. rewrite length_app in Hh'. simpl in Hh'.
    unfold result. simpl. rewrite mjoin_lookup_snoc_None.
    destruct (decide (h < length (futures e))) as [Hlt|Hge]; [by apply Hst|].
    assert (h = length (futures e)) as -> by lia.
    rewrite lookup_ge_None_2 by lia. simpl. split.
    + intros Hin. exfalso. eapply Hfresh; [by left|done].
    + intros [Hat|[? ?]]; [by apply Hnew in Hat|done].
  - intros h Hh'. rewrite length_app in Hh'. simpl in Hh'.
    unfold result. simpl. rewrite mjoin_lookup_snoc_None.
    destruct (decide (h < length (futures e))) as [Hlt|Hge]; [by apply Hco|].
    assert (h = length (futures e)) as -> by lia.
    rewrite lookup_ge_None_2 by lia. simpl. split.
    + intros Hin. exfalso. eapply Hfresh; [by right|done].
    + intros [Hat|[? ?]]; [by apply Hnew in Hat|done].
  - intros z (h & Hlt & ->)%Hh. exists h. rewrite length_app. simpl.
    split; [lia|done].
Qed.

Lemma task_inv_print (w0 : world duration) e b out ev :
  starting_id ev = None → completed_id ev = None → task_inv w0 e b out →
  task_inv w0
    {| args := args e; work_queue := work_queue e; workers := workers e;
       futures := futures e; Executor.world := print ev (Executor.world e) |}
    b (out ++ [ev]).
Proof.
  intros Hs Hc [Honce Hb Hcnt Hu Hd Hstd Hst Hco Hsnd Hcnd Hh Hsta].
  assert (omap starting_id (out ++ [ev]) = omap starting_id out) as Hs'.
  { rewrite omap_app. simpl. rewrite Hs. by rewrite app_nil_r. }
  assert (omap completed_id (out ++ [ev]) = omap completed_id out) as Hc'.
  { rewrite omap_app. simpl. rewrite Hc. by rewrite app_nil_r. }
  split; simpl; rewrite ?Hs', ?Hc'; try done.
  - by rewrite Hstd, <-app_assoc.
  - intros j z [[Hj Hz]|[Hj Hz]]%lookup_snoc_cases.
    + destruct (Hsta j z Hz) as (i & d' & Hi & Hz').
      exists i, d'. split; [done|].
      rewrite lookup_app_l; [done|]. by eapply lookup_lt_Some.
    + destruct (j - length out) as [|n]; simplify_eq/=.
Qed.

(** A worker that can complete a call in one step can take an action. *)
Lemma worker_step_enabled w e b :
  length b = length (workers e) →
  is_Some (Executor.worker_step task w e) →
  is_Some (PoolSteps.worker_step w e b).
Proof.
  intros Hb [e1 He1]. unfold PoolSteps.worker_step.
  unfold Executor.worker_step in He1.
  destruct (workers e !! w) as [[|h]|] eqn:Hw; simplify_eq/=.
  - unfold Executor.worker_step. rewrite Hw. simpl.
    destruct (work_queue e); simplify_eq/=. eauto.
  - destruct (args e !! h) as [a|] eqn:Ha; simplify_eq/=.
    destruct (lookup_lt_is_Some_2 b w) as [k Hk].
    { rewrite Hb. by eapply lookup_lt_Some. }
    rewrite Hk. simpl.
    destruct k; simpl; eauto.
    unfold Executor.worker_step. simpl. rewrite Hw. simpl. rewrite Ha.
    simpl. eauto.
Qed.

(** When every call is done the workers are idle, every call has made
    its draw and printed its two lines. *)
Lemma task_inv_all_done (w0 : world duration) e b out :
  task_inv w0 e b out →
  (∀ h, h < length (futures e) → is_Some (result h e)) →
  draws (Executor.world e) = draws w0 + length (futures e)
  ∧ omap starting_id out ≡ₚ Z.of_nat <$> seq 0 (length (futures e))
  ∧ omap completed_id out ≡ₚ Z.of_nat <$> seq 0 (length (futures e)).
Proof.
  intros [Honce Hb Hcnt Hu Hd Hstd Hst Hco Hsnd Hcnd Hh Hsta] Hall.
  rewrite completed_all in Hcnt, Hd by done.
  pose proof (sum_zip_le drawn running (workers e) b) as Hle.
  assert (sum_list (zip_with drawn (workers e) b)
          ≤ sum_list_with running (workers e)) as Hle'.
  { apply Hle. by intros [|h] [| | |]; simpl; lia. }
  split_and!; [lia| |].
  - apply NoDup_Permutation; [done| |].
    + apply NoDup_fmap; [apply _|apply NoDup_seq].
    + intros z. rewrite list_elem_of_fmap. split.
      * intros Hz. destruct (Hh z) as (h & Hlt & ->); [by left|].
        exists h. split; [done|]. apply elem_of_seq. lia.
      * intros (h & -> & Hlt%elem_of_seq). apply Hst; [lia|].
        right. apply Hall. lia.
  - apply NoDup_Permutation; [done| |].
    + apply NoDup_fmap; [apply _|apply NoDup_seq].
    + intros z. rewrite list_elem_of_fmap. split.
      * intros Hz. destruct (Hh z) as (h & Hlt & ->); [by right|].
        exists h. split; [done|]. apply elem_of_seq. lia.
      * intros (h & -> & Hlt%elem_of_seq). apply Hco; [lia|].
        right. apply Hall. lia.
Qed.

(** No more draws than calls submitted. *)
Lemma task_inv_draws (w0 : world duration) e b out :
  task_inv w0 e b out →
  draws (Executor.world e) ≤ draws w0 + length (futures e).
Proof.
  intros [Honce Hb Hcnt Hu Hd Hstd Hst Hco Hsnd Hcnd Hh Hsta].
  assert (sum_list (zip_with drawn (workers e) b)
          ≤ sum_list_with running (workers e)) as Hle.
  { apply sum_zip_le. by intros [|h] [| | |]; simpl; lia. }
  lia.
Qed.

End steps_facts.

(** ** [run_thread_pool_example], action by action *)

Section pool_steps_facts.
Import Executor ThreadPool PoolOutput PoolSteps.
Context {duration : Type}.
Context (num_tasks max_workers : nat).
Implicit Types s : pstate duration.
Implicit Types out : list (event duration).

Lemma drain_args_are_handles (d : dstate duration) :
  drain_inv num_tasks max_workers d → args_are_handles (dexecutor d).
Proof.
  intros Hinv h a Ha. rewrite (dinv_args _ _ _ Hinv) in Ha.
  apply list_lookup_fmap_Some in Ha as (i & -> & Hi).
  by apply lookup_seq in Hi as [-> _].
Qed.

Lemma pool_inv_init (w0 : world duration) :
  pool_inv num_tasks max_workers w0 (pool_init max_workers w0) [].
Proof.
  split; simpl; try done.
  - apply drain_inv_init.
  - apply task_inv_init.
  - intros h Hh. by apply elem_of_nil in Hh.
Qed.

Lemma retrieved_entry_none (l : list (event duration)) j z r :
  omap retrieved_entry l = [] → l !! j ≠ Some (Retrieved z r).
Proof.
  intros Hl Hj.
  assert ((z, r) ∈ omap retrieved_entry l) as Hin; [|by rewrite Hl in Hin;
    apply elem_of_nil in Hin].
  apply list_elem_of_omap. exists (Retrieved z r). split; [|done].
  by eapply list_elem_of_lookup_2.
Qed.

Lemma pool_inv_step (w0 : world duration) s s' out :
  pool_inv num_tasks max_workers w0 s out → pool_step num_tasks s s' →
  (∃ out', pool_inv num_tasks max_workers w0 s' out')
  ∧ pool_measure num_tasks s' < pool_measure num_tasks s.
Proof.
  intros [Hinv Htask Hy Hret Hbef] [[w|choice] Hstep]; simpl in Hstep.
  - (* a worker *)
    destruct (PoolSteps.worker_step w (dexecutor (pool s)) (bodies s))
      as [[e b]|] eqn:Hw; [|done].
    simpl in Hstep. injection Hstep as <-.
    pose proof Hinv as [Hexec Hfs Hargs Hlen Hnd Hsub Hres Hmain].
    destruct (task_inv_worker_step max_workers w0 _ _ _ _ _ _ Hexec
                (drain_args_are_handles _ Hinv) Htask Hw)
      as (Hexec' & Hargs' & Hlen' & Hm & Hstable & l & Htask' & Hl).
    split; [|unfold pool_measure; simpl; lia].
    exists (out ++ l). split; simpl; try done.
    + split; simpl; try done; congruence.
    + intros h [r Hr]%Hy. rewrite (Hstable _ _ Hr). by eexists.
    + rewrite omap_app, Hl. by rewrite app_nil_r.
    + intros i z r [[Hi Hz]|[Hi Hz]]%lookup_snoc_cases.
      * destruct (Hbef i z r Hz) as (j & Hj & Hz').
        exists j. split; [done|].
        rewrite lookup_app_l; [done|]. by eapply lookup_lt_Some.
      * by apply retrieved_entry_none in Hz.
  - (* the main thread *)
    destruct (run_thread_pool_example num_tasks choice (pool s))
      as [d|] eqn:Hd; [|done].
    simpl in Hstep. injection Hstep as <-.
    assert (drain_inv num_tasks max_workers d) as Hinv'.
    { eapply drain_inv_step; [exact Hinv|]. by exists (Main choice). }
    pose proof Hinv as [Hexec Hfs Hargs Hlen Hnd Hsub Hres Hmain].
    unfold run_thread_pool_example in Hd. unfold pool_measure.
    destruct (dmain (pool s)) as [i| | |] eqn:Hm; simpl in *.
    + case_bool_decide as Hi.
      * injection Hd as <-. simpl in *. split.
        -- exists out. split; simpl; try done.
           ++ by eapply task_inv_submit.
           ++ intros h Hh. destruct Hmain as [_ Hnil]. rewrite Hnil in Hh.
              by apply elem_of_nil in Hh.
        -- unfold steps_measure. simpl. rewrite length_app. simpl. lia.
      * injection Hd as <-. simpl. split; [by exists out|]. lia.
    + case_bool_decide as Hall.
      * injection Hd as <-. simpl. split; [by exists out|]. lia.
      * case_bool_decide as Hch; [|done]. destruct Hch as [Hin Hnin].
        destruct (result choice (dexecutor (pool s)))
          as [[[task_id r] dur]|] eqn:Hr; [|done].
        simpl in Hd. injection Hd as <-.
        pose proof (task_result_handle _ _ _ _ _ _ _ Hinv Hr) as Hentry.
        unfold task_entry in Hentry. injection Hentry as -> ->.
        assert (choice < length (futures (dexecutor (pool s)))) as Hlt.
        { rewrite Hfs in Hin. apply elem_of_seq in Hin. lia. }
        pose proof (dinv_nodup _ _ _ Hinv') as Hnd'.
        pose proof (dinv_yielded _ _ _ Hinv') as Hsub'.
        pose proof (NoDup_subseteq_length _ _ Hnd' Hsub') as Hle.
        simpl in Hle. rewrite length_app in Hle. simpl in Hle.
        split.
        -- exists (out ++ [Retrieved (Z.of_nat choice)
                             (Z.of_nat choice * Z.of_nat choice)]).
           split; simpl; try done.
           ++ by apply task_inv_print.
           ++ intros h [Hh| ->%list_elem_of_singleton]%elem_of_app.
              ** by apply Hy.
              ** unfold result in *. simpl. rewrite Hr. by eexists.
           ++ rewrite omap_app. simpl. by rewrite Hret.
           ++ intros i z r' [[Hi Hz]|[Hi Hz]]%lookup_snoc_cases.
              ** destruct (Hbef i z r' Hz) as (j & Hj & Hz').
                 exists j. split; [done|].
                 rewrite lookup_app_l; [done|]. by eapply lookup_lt_Some.
              ** destruct (i - length out) as [|n] eqn:Hn; simplify_eq/=.
                 assert (Z.of_nat choice ∈ omap completed_id out) as Hdone.
                 { apply (tinv_completed _ _ _ _ Htask); [done|].
                   right. rewrite Hr. by eexists. }
                 apply completed_id_lookup in Hdone as [j Hj].
                 exists j. pose proof (lookup_lt_Some _ _ _ Hj).
                 split; [lia|]. by rewrite lookup_app_l.
        -- simpl. rewrite length_app. unfold steps_measure. simpl. lia.
    + destruct (shutdown (dexecutor (pool s))) as [e'|] eqn:He; [|done].
      simpl in Hd. injection Hd as <-. apply shutdown_Some in He as ->.
      simpl. split; [|lia]. exists out. split; simpl; try done.
    + done.
Qed.

Lemma pool_inv_reachable (w0 : world duration) s :
  rtc (pool_step num_tasks) (pool_init max_workers w0) s →
  ∃ out, pool_inv num_tasks max_workers w0 s out.
Proof.
  intros Hs. pattern s. revert s Hs. apply rtc_ind_r.
  - exists []. apply pool_inv_init.
  - intros s1 s2 _ Hstep [out IH].
    by destruct (pool_inv_step _ _ _ _ IH Hstep).
Qed.

Lemma pool_nsteps_measure (w0 : world duration) k s :
  nsteps (pool_step num_tasks) k (pool_init max_workers w0) s →
  k + pool_measure num_tasks s ≤ 7 * num_tasks + 3.
Proof.
  revert s. induction k as [|k IH]; intros s Hk.
  - inversion Hk; subst. unfold pool_measure, steps_measure. simpl.
    rewrite zip_with_replicate, sum_list_with_replicate. simpl. lia.
  - apply nsteps_inv_r in Hk as (s1 & Hk & Hstep).
    destruct (pool_inv_reachable w0 s1) as [out Hinv];
      [by eapply rtc_nsteps_2|].
    apply IH in Hk. destruct (pool_inv_step _ _ _ _ Hinv Hstep). lia.
Qed.

Lemma pool_run_rtc sched s :
  rtc (pool_step num_tasks) s (pool_run num_tasks sched s).
Proof.
  revert s. induction sched as [|t sched IH]; intros s; simpl; [done|].
  destruct (pool_step_thread num_tasks t s) as [s'|] eqn:Hs; simpl; [|done].
  eapply rtc_l; [by exists t|done].
Qed.

Lemma pool_progress (w0 : world duration) s out :
  pool_inv num_tasks max_workers w0 s out →
  0 < max_workers → dmain (pool s) ≠ D_finished →
  ∃ s', pool_step num_tasks s s'.
Proof.
  intros [Hinv Htask _ _ _] Hpos Hnf.
  destruct (drain_progress num_tasks max_workers _ Hinv Hpos Hnf)
    as (d & [w|choice] & Hd); simpl in Hd.
  - destruct (Executor.worker_step task w (dexecutor (pool s)))
      as [e1|] eqn:He1; [|done].
    destruct (worker_step_enabled w (dexecutor (pool s)) (bodies s))
      as [[e b] Hw]; [apply (tinv_bodies _ _ _ _ Htask)|by eexists|].
    eexists. exists (Worker w). simpl. rewrite Hw. simpl. done.
  - eexists. exists (Main choice). simpl. rewrite Hd. simpl. done.
Qed.

(** X11. In every run of [run_thread_pool_example] with [num_tasks]
    tasks, the workers going through the body of [task] action by
    action so that the bodies of concurrent calls overlap, for the
    lines printed since the start: the [Retrieved result] lines are the
    results collected, in the same order; no task prints [completed]
    twice, nor [starting]; the [completed] line of a task comes after
    its [starting] line, and its [Retrieved result] line after its
    [completed] line; at most [num_tasks] draws have been made.  Once
    the loop over [as_completed] has ended, every task has run exactly
    once: [num_tasks] draws have been made and [3 * num_tasks] lines
    printed, one [starting] and one [completed] line for each task, and
    the results are a permutation of the pairs [(i, i * i)].  The run
    has at most [7 * num_tasks + 3] steps and, with at least one worker,
    it can always take a step until it has finished. *)
Theorem pool_example_output (w0 : world duration) s :
  rtc (pool_step num_tasks) (pool_init max_workers w0) s →
  (∃ out,
    stdout (Executor.world (dexecutor (pool s))) = stdout w0 ++ out
    ∧ omap retrieved_entry out = results (pool s)
    ∧ NoDup (omap completed_id out)
    ∧ NoDup (omap starting_id out)
    ∧ (∀ j z, out !! j = Some (Completed z) →
         ∃ i d, i < j ∧ out !! i = Some (Starting z d))
    ∧ (∀ i z r, out !! i = Some (Retrieved z r) →
         ∃ j, j < i ∧ out !! j = Some (Completed z))
    ∧ (dmain (pool s) = D_exit ∨ dmain (pool s) = D_finished →
       length out = 3 * num_tasks
       ∧ omap completed_id out ≡ₚ Z.of_nat <$> seq 0 num_tasks
       ∧ omap starting_id out ≡ₚ Z.of_nat <$> seq 0 num_tasks))
  ∧ results (pool s) = task_entry <$> yielded (pool s)
  ∧ NoDup (yielded (pool s))
  ∧ draws (Executor.world (dexecutor (pool s))) ≤ draws w0 + num_tasks
  ∧ (dmain (pool s) = D_exit ∨ dmain (pool s) = D_finished →
     draws (Executor.world (dexecutor (pool s))) = draws w0 + num_tasks
     ∧ results (pool s) ≡ₚ task_entry <$> seq 0 num_tasks)
  ∧ (∀ k, nsteps (pool_step num_tasks) k (pool_init max_workers w0) s →
          k ≤ 7 * num_tasks + 3)
  ∧ (0 < max_workers → dmain (pool s) ≠ D_finished →
     ∃ s', pool_step num_tasks s s').
Proof.
  intros Hs. destruct (pool_inv_reachable w0 s Hs) as [out Hpool].
  pose proof Hpool as [Hinv Htask Hy Hret Hbef].
  pose proof Hinv as [Hexec Hfs Hargs Hlen Hnd Hsub Hres Hmain].
  assert (length (futures (dexecutor (pool s))) ≤ num_tasks) as Hfut.
  { by rewrite Hfs, length_seq in Hlen. }
  assert (dmain (pool s) = D_exit ∨ dmain (pool s) = D_finished →
          length (futures (dexecutor (pool s))) = num_tasks
          ∧ yielded (pool s) ≡ₚ seq 0 num_tasks
          ∧ ∀ h, h < length (futures (dexecutor (pool s))) →
                 is_Some (result h (dexecutor (pool s)))) as Hend.
  { intros Hm.
    assert (length (dfutures (pool s)) = num_tasks
            ∧ dfutures (pool s) ⊆ yielded (pool s))
      as [Hn Hall] by (by destruct Hm as [Hm|Hm]; rewrite Hm in Hmain).
    assert (length (futures (dexecutor (pool s))) = num_tasks) as Hn'.
    { by rewrite Hfs, length_seq in Hn. }
    split_and!; [done| |].
    - rewrite <-Hn', <-Hfs.
      apply NoDup_Permutation; [done|rewrite Hfs; apply NoDup_seq|].
      intros x. split; auto.
    - intros h Hh. apply Hy, Hall. rewrite Hfs. apply elem_of_seq. lia. }
  split_and!.
  - exists out. split_and!; try apply Htask; try done.
    intros Hm. destruct (Hend Hm) as (Hn & Hperm & Hall).
    destruct (task_inv_all_done _ _ _ _ Htask Hall) as (_ & Hsp & Hcp).
    rewrite Hn in Hsp, Hcp. split_and!; [|done..].
    rewrite length_lines, Hsp, Hcp, Hret, Hres, !length_fmap, Hperm.
    rewrite !length_seq. lia.
  - done.
  - done.
  - pose proof (task_inv_draws _ _ _ _ Htask). lia.
  - intros Hm. destruct (Hend Hm) as (Hn & Hperm & Hall).
    destruct (task_inv_all_done _ _ _ _ Htask Hall) as (Hdraws & _).
    split; [lia|]. by rewrite Hres, Hperm.
  - intros k Hk%pool_nsteps_measure. lia.
  - by apply (pool_progress w0 s out).
Qed.

End pool_steps_facts.

Section pool_steps_runs.
Import Executor ThreadPool PoolOutput PoolSteps.

(** The run of the example in which the calls overlap three at a time:
    the first lines of the tasks 0, 1 and 2 come before their second
    lines. *)
Lemma pool_example_output_witness :
  let s := pool_run 10 pool_overlap_schedule (pool_init 3 example_world) in
  dmain (pool s) = D_finished
  ∧ take 9 (stdout (Executor.world (dexecutor (pool s))))
    = [Starting 0 500; Starting 1 637; Starting 2 774;
       Completed 2; Completed 1; Completed 0;
       Retrieved 2 4; Retrieved 1 1; Retrieved 0 0]%Z
  ∧ draws (Executor.world (dexecutor (pool s))) = 10
  ∧ length (stdout (Executor.world (dexecutor (pool s)))) = 30.
Proof.
  intros s.
  assert (dmain (pool s) = D_finished) as Hm by (vm_compute; reflexivity).
  destruct (pool_example_output 10 3 example_world s)
    as ((out & Hstd & _ & _ & _ & _ & _ & Hout) & _ & _ & _ & Hfin & _);
    [apply pool_run_rtc|].
  destruct (Hout (or_intror Hm)) as (Hlen & _).
  destruct (Hfin (or_intror Hm)) as (Hdraws & _).
  split_and!; [exact Hm|vm_compute; reflexivity|exact Hdraws|].
  rewrite Hstd, length_app, Hlen. reflexivity.
Defined.

End pool_steps_runs.

(** ** [test_concurrent_tasks], action by action *)

Section test_steps_facts.
Import Executor ThreadPool PoolOutput PoolSteps.
Context {duration : Type}.
Context (n max_workers : nat).
Implicit Types s : tstate duration.
Implicit Types out : list (event duration).

Lemma task_is_related a (w : world duration) : task_related a (task a w).1.
Proof. done. Qed.

Lemma length_task_numbers : length (task_numbers n) = n.
Proof. unfold task_numbers. by rewrite length_fmap, length_seq. Qed.

Lemma submit_args_are_handles (x : xstate duration Z (Z * Z * duration)) :
  submit_inv task task_related (task_numbers n) max_workers x →
  args_are_handles (xexecutor x).
Proof.
  intros Hinv h a Ha. rewrite (sinv_args _ _ _ _ _ Hinv) in Ha.
  apply lookup_take_Some in Ha as [Ha _]. unfold task_numbers in Ha.
  apply list_lookup_fmap_Some in Ha as (i & -> & Hi).
  by apply lookup_seq in Hi as [-> _].
Qed.

Lemma test_inv_init (w0 : world duration) :
  test_inv n max_workers w0 (test_init max_workers w0) [].
Proof.
  split; simpl.
  - apply submit_inv_init.
  - apply task_inv_init.
  - done.
Qed.

Lemma test_inv_step (w0 : world duration) s s' out :
  test_inv n max_workers w0 s out → test_step n s s' →
  (∃ out', test_inv n max_workers w0 s' out')
  ∧ test_measure n s' < test_measure n s.
Proof.
  intros [Hinv Htask Hlines] [[w|choice] Hstep]; simpl in Hstep.
  - (* a worker *)
    destruct (PoolSteps.worker_step w (xexecutor (test s)) (tbodies s))
      as [[e b]|] eqn:Hw; [|done].
    simpl in Hstep. injection Hstep as <-.
    pose proof Hinv as [Hexec Honce Hfs Hargs Hlen Hres Hdone Hmain].
    destruct (task_inv_worker_step max_workers w0 _ _ _ _ _ _ Hexec
                (submit_args_are_handles _ Hinv) Htask Hw)
      as (Hexec' & Hargs' & Hlen' & Hm & Hstable & l & Htask' & Hl).
    split; [|unfold test_measure; simpl; lia].
    exists (out ++ l). split; simpl; [|done|by rewrite omap_app, Hl, Hlines].
    split; simpl; try done; try congruence.
    + apply (tinv_once _ _ _ _ Htask').
    + intros h [r Hr]%Hdone. rewrite (Hstable _ _ Hr). by eexists.
  - (* the main thread *)
    unfold test_concurrent_tasks in Hstep.
    destruct (map_example (task_numbers n) (test s)) as [x|] eqn:Hx; [|done].
    simpl in Hstep. injection Hstep as <-.
    assert (submit_inv task task_related (task_numbers n) max_workers x)
      as Hinv'.
    { eapply submit_inv_step; [apply task_is_related|exact Hinv|].
      by exists (Main choice). }
    pose proof Hinv as [Hexec Honce Hfs Hargs Hlen Hres Hdone Hmain].
    rewrite length_task_numbers in Hlen, Hmain.
    unfold map_example in Hx. unfold test_measure.
    destruct (xmain (test s)) as [i|i| |] eqn:Hm; simpl in *.
    + destruct Hmain as [-> Hnil].
      destruct (task_numbers n !! length (fs (test s))) as [a|] eqn:Ha.
      * simpl in Hx. injection Hx as <-.
        apply lookup_lt_Some in Ha. rewrite length_task_numbers in Ha.
        split.
        -- exists out. split; simpl; [done| |done]. by eapply task_inv_submit.
        -- unfold steps_measure. simpl. rewrite length_app. simpl. lia.
      * simpl in Hx. injection Hx as <-. simpl.
        split; [by exists out|]. lia.
    + destruct Hmain as (Hn & -> & Hi).
      destruct (fs (test s) !! length (xresults (test s))) as [h|] eqn:Hh.
      * simpl in Hx.
        destruct (result h (xexecutor (test s))) as [r|] eqn:Hr; [|done].
        simpl in Hx. injection Hx as <-. simpl.
        apply lookup_lt_Some in Hh.
        split; [by exists out|]. lia.
      * simpl in Hx. injection Hx as <-. simpl.
        split; [by exists out|]. lia.
    + destruct (shutdown (xexecutor (test s))) as [e'|] eqn:He; [|done].
      simpl in Hx. injection Hx as <-. apply shutdown_Some in He as ->.
      simpl. split; [by exists out|]. lia.
    + done.
Qed.

Lemma test_inv_reachable (w0 : world duration) s :
  rtc (test_step n) (test_init max_workers w0) s →
  ∃ out, test_inv n max_workers w0 s out.
Proof.
  intros Hs. pattern s. revert s Hs. apply rtc_ind_r.
  - exists []. apply test_inv_init.
  - intros s1 s2 _ Hstep [out IH].
    by destruct (test_inv_step _ _ _ _ IH Hstep).
Qed.

Lemma test_nsteps_measure (w0 : world duration) k s :
  nsteps (test_step n) k (test_init max_workers w0) s →
  k + test_measure n s ≤ 7 * n + 3.
Proof.
  revert s. induction k as [|k IH]; intros s Hk.
  - inversion Hk; subst. unfold test_measure, steps_measure. simpl.
    rewrite zip_with_replicate, sum_list_with_replicate. simpl. lia.
  - apply nsteps_inv_r in Hk as (s1 & Hk & Hstep).
    destruct (test_inv_reachable w0 s1) as [out Hinv];
      [by eapply rtc_nsteps_2|].
    apply IH in Hk. destruct (test_inv_step _ _ _ _ Hinv Hstep). lia.
Qed.

Lemma test_run_rtc sched s :
  rtc (test_step n) s (test_run n sched s).
Proof.
  revert s. induction sched as [|t sched IH]; intros s; simpl; [done|].
  destruct (test_step_thread n t s) as [s'|] eqn:Hs; simpl; [|done].
  eapply rtc_l; [by exists t|done].
Qed.

Lemma test_progress (w0 : world duration) s out :
  test_inv n max_workers w0 s out →
  0 < max_workers → xmain (test s) ≠ X_finished →
  ∃ s', test_step n s s'.
Proof.
  intros [Hinv Htask _] Hpos Hnf.
  destruct (submit_progress task task_related (task_numbers n) max_workers
              _ Hinv Hpos Hnf) as (x & [w|choice] & Hx); simpl in Hx.
  - destruct (Executor.worker_step task w (xexecutor (test s)))
      as [e1|] eqn:He1; [|done].
    destruct (worker_step_enabled w (xexecutor (test s)) (tbodies s))
      as [[e b] Hw]; [apply (tinv_bodies _ _ _ _ Htask)|by eexists|].
    eexists. exists (Worker w). simpl. rewrite Hw. simpl. done.
  - eexists. exists (Main choice). simpl.
    unfold test_concurrent_tasks. rewrite Hx. simpl. done.
Qed.

(** X13. [test_concurrent_tasks], for any number [n] of tasks and of
    workers: [task(i)] is submitted for each [i] in [range(n)] and the
    results are taken in the order of submission, the workers going
    through the body of [task] action by action so that the bodies of
    concurrent calls overlap.  In every run, the [i]-th result taken is
    [(i, i * i, d)] for some duration [d], whatever the order in which
    the workers start and complete the calls; as many draws have been
    made as calls have been started, a call being started once it has
    made its draw; no task has printed a line twice; when the [with]
    block has been left there are [n] results and every task has run
    exactly once, [n] draws having been made and each task having
    printed its two lines; the run has at most [7 * n + 3] steps and,
    with at least one worker, it can always take a step until it has
    finished. *)
Theorem concurrent_tasks_results (w0 : world duration) s :
  rtc (test_step n) (test_init max_workers w0) s →
  (∀ i r, xresults (test s) !! i = Some r → r.1 = task_entry i)
  ∧ length (xresults (test s)) ≤ n
  ∧ draws (Executor.world (xexecutor (test s)))
    = draws w0
      + sum_list (zip_with drawn (workers (xexecutor (test s))) (tbodies s))
      + sum_list_with completed (futures (xexecutor (test s)))
  ∧ draws (Executor.world (xexecutor (test s))) ≤ draws w0 + n
  ∧ (∃ out,
      stdout (Executor.world (xexecutor (test s))) = stdout w0 ++ out
      ∧ NoDup (omap starting_id out)
      ∧ NoDup (omap completed_id out)
      ∧ (∀ j z, out !! j = Some (Completed z) →
           ∃ i d, i < j ∧ out !! i = Some (Starting z d))
      ∧ (xmain (test s) = X_finished →
         length out = 2 * n
         ∧ omap starting_id out ≡ₚ Z.of_nat <$> seq 0 n
         ∧ omap completed_id out ≡ₚ Z.of_nat <$> seq 0 n))
  ∧ (xmain (test s) = X_finished →
     length (xresults (test s)) = n
     ∧ draws (Executor.world (xexecutor (test s))) = draws w0 + n)
  ∧ (∀ k, nsteps (test_step n) k (test_init max_workers w0) s →
          k ≤ 7 * n + 3)
  ∧ (0 < max_workers → xmain (test s) ≠ X_finished →
     ∃ s', test_step n s s').
Proof.
  intros Hs. destruct (test_inv_reachable w0 s Hs) as [out Htest].
  pose proof Htest as [Hinv Htask Hnone].
  pose proof Hinv as [Hexec Honce Hfs Hargs Hlen Hres Hdone Hmain].
  rewrite length_task_numbers in Hlen.
  assert (length (futures (xexecutor (test s))) ≤ n) as Hfut.
  { by rewrite Hfs, length_seq in Hlen. }
  assert (length (xresults (test s)) ≤ n) as Hle.
  { apply Forall2_length in Hres.
    rewrite length_take, length_task_numbers in Hres. lia. }
  assert (xmain (test s) = X_finished →
          length (xresults (test s)) = n
          ∧ length (futures (xexecutor (test s))) = n
          ∧ ∀ h, h < length (futures (xexecutor (test s))) →
                 is_Some (result h (xexecutor (test s)))) as Hend.
  { intros Hm. rewrite Hm, length_task_numbers in Hmain.
    destruct Hmain as [Hfsn Hrn].
    rewrite Hfs, length_seq in Hfsn.
    split_and!; [done..|]. intros h Hh. apply Hdone. lia. }
  split_and!.
  - intros i r Hi.
    destruct (Forall2_lookup_r _ _ _ _ _ Hres Hi) as (a & Ha & Hr).
    apply lookup_take_Some in Ha as [Ha _]. unfold task_numbers in Ha.
    apply list_lookup_fmap_Some in Ha as (j & -> & Hj).
    apply lookup_seq in Hj as [-> _]. exact Hr.
  - done.
  - apply Htask.
  - pose proof (task_inv_draws _ _ _ _ Htask). lia.
  - exists out. split_and!; try apply Htask.
    intros Hm. destruct (Hend Hm) as (_ & Hn & Hall).
    destruct (task_inv_all_done _ _ _ _ Htask Hall) as (_ & Hsp & Hcp).
    rewrite Hn in Hsp, Hcp. split_and!; [|done..].
    rewrite length_lines, Hsp, Hcp, Hnone, !length_fmap, !length_seq.
    simpl. lia.
  - intros Hm. destruct (Hend Hm) as (Hrn & Hn & Hall).
    destruct (task_inv_all_done _ _ _ _ Htask Hall) as (Hdraws & _).
    split; [done|lia].
  - intros k Hk%test_nsteps_measure. lia.
  - by apply (test_progress w0 s out).
Qed.

End test_steps_facts.

Section test_steps_runs.
Import Executor ThreadPool PoolOutput PoolSteps.

(** The run of the test with its constants, three tasks and three
    workers: after thirteen steps the three calls have drawn and printed
    their first lines and none is done; they complete in the reverse
    order, and the results come in the order of submission. *)
Lemma concurrent_tasks_results_witness :
  let m := test_run 3 (take 13 test_overlap_schedule)
             (test_init 3 example_world) in
  let s := test_run 3 test_overlap_schedule (test_init 3 example_world) in
  (draws (Executor.world (xexecutor (test m))) = 3
   ∧ futures (xexecutor (test m)) = [None; None; None]
   ∧ stdout (Executor.world (xexecutor (test m)))
     = [Starting 0 500; Starting 1 637; Starting 2 774]%Z)
  ∧ xmain (test s) = X_finished
  ∧ length (xresults (test s)) = 3
  ∧ fst <$> xresults (test s) = [(0, 0); (1, 1); (2, 4)]%Z
  ∧ draws (Executor.world (xexecutor (test s))) = 3
  ∧ stdout (Executor.world (xexecutor (test s)))
    = [Starting 0 500; Starting 1 637; Starting 2 774;
       Completed 2; Completed 1; Completed 0]%Z.
Proof.
  intros m s.
  assert (xmain (test s) = X_finished) as Hm by (vm_compute; reflexivity).
  destruct (concurrent_tasks_results 3 3 example_world s)
    as (_ & _ & _ & _ & _ & Hfin & _); [apply test_run_rtc|].
  destruct (Hfin Hm) as [Hlen Hdraws].
  split_and!; [vm_compute; reflexivity..|exact Hm|exact Hlen|
               vm_compute; reflexivity|exact Hdraws|vm_compute; reflexivity].
Defined.

End test_steps_runs.

(** ** [run_basic_example] *)

Section basic_facts.
Import Basic.
Context {float : Type} (times_half : nat → float).
Implicit Types s : state float.

Lemma basic_inv_init n : basic_inv times_half n (init n) [].
Proof.
  split; simpl; try done.
  - by rewrite length_replicate.
  - intros e He. by apply elem_of_nil in He.
  - by intros i p [-> _]%lookup_replicate.
  - by intros i p [-> _]%lookup_replicate.
  - intros i Hi. lia.
  - rewrite sum_list_with_replicate. simpl. lia.
Qed.

Lemma basic_inv_step n s s' mid :
  basic_inv times_half n s mid → step times_half n s s' →
  (∃ mid', basic_inv times_half n s' mid')
  ∧ basic_measure n s = S (basic_measure n s').
Proof.
  intros [Hlen Hout Hw Hlines Hnew Hj Hcnt] [[|i] Hstep]; simpl in Hstep.
  - unfold run_basic_example in Hstep. unfold basic_measure.
    destruct (main s) as [|i|i| |] eqn:Hm; simpl in *.
    + injection Hstep as <-. simpl. split; [|lia]. exists mid.
      assert (mid = []) as ->.
      { destruct mid as [|e mid]; [done|].
        destruct (Hw e) as (i & Hi & He); [by left|].
        destruct (lookup_lt_is_Some_2 (threads s) i) as [p Hp]; [lia|].
        assert (p = W_start) as -> by (apply (Hnew i p Hp); lia).
        pose proof (Hlines i W_start Hp) as Hf. simpl in Hf.
        rewrite filter_cons_True in Hf by done. done. }
      split; simpl; try done. by rewrite Hout.
    + injection Hstep as <-. simpl. split.
      * exists mid. split; simpl; try done.
        -- rewrite Hout. by case_bool_decide.
        -- intros j p Hp Hge. apply (Hnew j p Hp).
           pose proof (lookup_lt_Some _ _ _ Hp).
           case_bool_decide; simpl in *; lia.
        -- case_bool_decide; simpl; intros; lia.
      * case_bool_decide; simpl; lia.
    + case_bool_decide as Hi.
      * destruct (threads s !! i) as [[]|] eqn:Hp; try done.
        injection Hstep as <-.
        simpl. split; [|lia]. exists mid. split; simpl; try done.
        intros j Hlt. destruct (decide (j = i)) as [->|]; [done|].
        apply Hj. lia.
      * injection Hstep as <-. simpl. split; [|lia].
        exists mid. split; simpl; try done.
        intros j Hlt. apply Hj. lia.
    + injection Hstep as <-. simpl. split; [|lia].
      exists mid. split; simpl; try done.
      rewrite Hout. simpl. by rewrite app_nil_r.
    + done.
  - case_bool_decide as Hst; [|done].
    destruct (threads s !! i) as [p|] eqn:Hp; [|done]. simpl in Hstep.
    destruct (worker i (times_half i) p (stdout s)) as [[p' out]|] eqn:Hwk;
      [|done].
    simpl in Hstep. injection Hstep as <-.
    pose proof (lookup_lt_Some _ _ _ Hp) as Hi.
    pose proof (sum_list_with_insert worker_left _ _ _ p' Hp) as Hsum.
    assert (basic_joined n (main s) ≤ i) as Hnj.
    { destruct (decide (basic_joined n (main s) ≤ i)); [done|].
      rewrite Hj in Hp by lia. by destruct p. }
    assert (@basic_footer float (main s) = []
            ∧ @basic_header float (main s) = [Title]) as [Hfoot Hhead].
    { destruct (main s); simpl in *; try done; lia. }
    assert (∃ e, out = stdout s ++ [e] ∧ worker_of e = Some i
                 ∧ worker_lines times_half i p' = worker_lines times_half i p ++ [e]
                 ∧ worker_left p = S (worker_left p'))
      as (e & -> & He & Hl & Hleft).
    { destruct p; simplify_eq/=; eexists; split_and!; done. }
    split; [|unfold basic_measure; simpl; lia].
    exists (mid ++ [e]). split; simpl.
    + by rewrite length_insert.
    + rewrite Hout, Hfoot, !app_nil_r. by rewrite app_assoc.
    + intros e' [He'| ->%list_elem_of_singleton]%elem_of_app;
        [by apply Hw|]. exists i. split; [lia|done].
    + intros j q Hq. rewrite filter_app.
      apply lookup_insert_cases in Hq as [[-> ->]|[Hne Hq]].
      * rewrite (Hlines _ _ Hp), Hl. f_equal.
        by rewrite filter_cons_True, filter_nil.
      * rewrite (Hlines _ _ Hq), filter_cons_False, filter_nil.
        -- by rewrite app_nil_r.
        -- rewrite He. congruence.
    + intros j q Hq Hge.
      apply lookup_insert_cases in Hq as [[-> ->]|[Hne Hq]]; [lia|].
      by apply (Hnew j q).
    + intros j Hlt. rewrite list_lookup_insert_ne by lia. by apply Hj.
    + rewrite length_app. simpl. lia.
Qed.

Lemma basic_inv_reachable n s :
  rtc (step times_half n) (init n) s → ∃ mid, basic_inv times_half n s mid.
Proof.
  intros Hs. pattern s. revert s Hs. apply rtc_ind_r.
  - exists []. apply basic_inv_init.
  - intros s1 s2 _ Hstep [mid IH].
    by destruct (basic_inv_step _ _ _ _ IH Hstep).
Qed.

Lemma basic_nsteps_measure n k s :
  nsteps (step times_half n) k (init n) s →
  k + basic_measure n s = 4 * n + 4.
Proof.
  revert s. induction k as [|k IH]; intros s Hk.
  - inversion Hk; subst. unfold basic_measure. simpl.
    rewrite sum_list_with_replicate. simpl. lia.
  - apply nsteps_inv_r in Hk as (s1 & Hk & Hstep).
    destruct (basic_inv_reachable n s1) as [mid Hinv];
      [by eapply rtc_nsteps_2|].
    apply IH in Hk. destruct (basic_inv_step _ _ _ _ Hinv Hstep). lia.
Qed.

Lemma basic_run_rtc n sched s :
  rtc (step times_half n) s (run times_half n sched s).
Proof.
  revert s. induction sched as [|t sched IH]; intros s; simpl; [done|].
  destruct (step_thread times_half n t s) as [s'|] eqn:Hs; simpl; [|done].
  eapply rtc_l; [by exists t|done].
Qed.

Lemma basic_progress n s mid :
  basic_inv times_half n s mid → main s ≠ B_finished →
  ∃ s', step times_half n s s'.
Proof.
  intros [Hlen Hout Hw Hlines Hnew Hj Hcnt] Hnf.
  assert (∀ s', run_basic_example n s = Some s' →
          ∃ s', step times_half n s s') as Hmain.
  { intros s' Hs'. exists s', Main. done. }
  unfold run_basic_example in Hmain.
  destruct (main s) as [|i|i| |] eqn:Hm; [eauto..| |eauto|done].
  destruct (decide (i < n)) as [Hi|Hi].
  - destruct (lookup_lt_is_Some_2 (threads s) i) as [p Hp]; [lia|].
    destruct (decide (p = W_finished)) as [->|Hp'].
    + eapply Hmain. rewrite bool_decide_eq_true_2 by done. by rewrite Hp.
    + assert (is_Some (worker i (times_half i) p (stdout s)))
        as [[p' out] Hwk] by (by destruct p; simpl; eauto).
      eexists. exists (Thread i). simpl. rewrite Hm. simpl.
      rewrite bool_decide_eq_true_2 by done. rewrite Hp. simpl.
      rewrite Hwk. simpl. done.
  - eapply Hmain. by rewrite bool_decide_eq_false_2.
Qed.

(** X14. [run_basic_example] with any number of threads, under every
    interleaving: the banner is the first line printed and nothing is
    printed before it; every other line but the last is a line of a
    worker; each worker prints its two lines once, [starting] before
    [finished after] with the duration it was given, started workers
    only; [All threads completed!] is printed last, after both lines of
    every worker; the program never deadlocks and returns after exactly
    [4 * num_threads + 4] actions. *)
Theorem basic_example_output (n : nat) s :
  rtc (step times_half n) (init n) s →
  (∃ mid,
     stdout s = basic_header (main s) ++ mid ++ basic_footer (main s)
     ∧ (∀ e, e ∈ mid → ∃ i, i < n ∧ worker_of e = Some i)
     ∧ (∀ i p, threads s !! i = Some p →
          filter (λ e, worker_of e = Some i) mid = worker_lines times_half i p
          ∧ (started n (main s) ≤ i → p = W_start))
     ∧ (main s = B_completed ∨ main s = B_finished →
        length mid = 2 * n
        ∧ ∀ i, i < n →
            filter (λ e, worker_of e = Some i) mid
            = [WorkerStarting i; WorkerFinished i (times_half i)]))
  ∧ (main s ≠ B_finished → ∃ s', step times_half n s s')
  ∧ (∀ k, nsteps (step times_half n) k (init n) s →
       k ≤ 4 * n + 4 ∧ (main s = B_finished → k = 4 * n + 4)).
Proof.
  intros Hs. destruct (basic_inv_reachable n s Hs) as [mid Hinv].
  pose proof Hinv as [Hlen Hout Hw Hlines Hnew Hj Hcnt].
  assert (main s = B_completed ∨ main s = B_finished →
          Forall (λ p, p = W_finished) (threads s)) as Hfin.
  { intros Hm. apply Forall_lookup. intros i p Hp.
    pose proof (lookup_lt_Some _ _ _ Hp).
    rewrite Hj in Hp; [by simplify_eq|].
    destruct Hm as [-> | ->]; simpl; lia. }
  split_and!.
  - exists mid. split_and!; [done..|eauto|].
    intros Hm. specialize (Hfin Hm). split.
    + rewrite sum_list_with_zero in Hcnt; [lia|].
      eapply Forall_impl; [exact Hfin|]. by intros ? ->.
    + intros i Hi.
      destruct (lookup_lt_is_Some_2 (threads s) i) as [p Hp]; [lia|].
      rewrite (Hlines i p Hp).
      by rewrite (Forall_lookup_1 _ _ _ _ Hfin Hp).
  - by apply (basic_progress n s mid).
  - intros k Hk%basic_nsteps_measure. split; [lia|].
    intros Hm. unfold basic_measure in Hk. rewrite Hm in Hk. simpl in Hk.
    rewrite sum_list_with_zero in Hk; [lia|].
    eapply Forall_impl; [apply Hfin; by right|]. by intros ? ->.
Qed.

End basic_facts.

Section basic_runs.
Import Basic.

(** The example as written, five workers: all print their first line,
    then the last worker is the first to finish. *)
Lemma basic_example_output_witness :
  let s := run tenths 5 (basic_schedule_reverse 5) (init 5) in
  main s = B_finished
  ∧ stdout s
    = [Title; WorkerStarting 0; WorkerStarting 1; WorkerStarting 2;
       WorkerStarting 3; WorkerStarting 4; WorkerFinished 4 20%Z;
       WorkerFinished 3 15%Z; WorkerFinished 2 10%Z; WorkerFinished 1 5%Z;
       WorkerFinished 0 0%Z; AllCompleted]
  ∧ ∃ mid, stdout s = [Title] ++ mid ++ [AllCompleted] ∧ length mid = 10.
Proof.
  intros s.
  assert (main s = B_finished) as Hm by (vm_compute; reflexivity).
  split; [exact Hm|]. split; [vm_compute; reflexivity|].
  destruct (basic_example_output tenths 5 s) as [(mid & Hout & _ & _ & Hfin) _];
    [apply basic_run_rtc|].
  exists mid. rewrite Hm in Hout. split; [exact Hout|].
  apply Hfin. by right.
Defined.

End basic_runs.

(** ** [main] *)

Section main_facts.
Import Main.
Context {W : Type}.
Implicit Types examples : list (string * (W → outcome * W)).

Lemma for_examples_spec examples w log :
  ∃ k, k ≤ length examples
    ∧ all_return (take k examples) w
    ∧ match for_examples examples w log with
      | (None, w', log') =>
          k = length examples
          ∧ w' = after_calls examples w
          ∧ log' = log ++ (Called <$> (fst <$> examples))
      | (Some x, w', log') =>
          ∃ name func catchable e,
            examples !! k = Some (name, func)
            ∧ func (after_calls (take k examples) w) = (Raises catchable e, w')
            ∧ log' = log ++ (Called <$> (fst <$> take (S k) examples))
                     ++ (if catchable then [Printed (error_line name e)]
                         else [])
            ∧ x = (if catchable then SystemExit 1 else Uncaught e)
      end.
Proof.
  revert w log. induction examples as [|[name func] examples IH];
    intros w log; simpl.
  - exists 0. rewrite app_nil_r. done.
  - destruct (func w) as [[|[|] e] w'] eqn:Hf.
    + destruct (IH w' (log ++ [Called name])) as (k & Hk & Hall & Hres).
      exists (S k). split; [lia|]. split.
      { simpl. unfold returns. simpl. by rewrite Hf. }
      destruct (for_examples examples w' (log ++ [Called name]))
        as [[[x|] w''] log'].
      * destruct Hres as (name' & func' & c & e' & Hlook & Hcall & -> & ->).
        exists name', func', c, e'. simpl. unfold after_calls in *. simpl.
        rewrite Hf. simpl. split_and!; try done.
        by rewrite <-!app_assoc.
      * destruct Hres as (-> & -> & ->). unfold after_calls. simpl.
        split_and!; try done. by rewrite <-app_assoc.
    + exists 0. split; [lia|]. split; [done|].
      exists name, func, true, e. simpl. done.
    + exists 0. split; [lia|]. split; [done|].
      exists name, func, false, e. simpl. done.
Qed.

(** X15. [main()], for any list of examples.  The banner is printed
    first.  The examples are called in order, each in the world the
    previous one left, up to and including the first that raises: when
    all return, [main] returns after the closing banner; when one
    raises an [Exception], [Error running <name>: <e>] is printed with
    the name of that example and [sys.exit(1)] ends the program; an
    exception that is not an [Exception] leaves [main] without a line
    printed.  After an example has raised, no further example is called
    and the closing banner is not printed. *)
Theorem main_stops_at_first_error examples (w : W) :
  ∃ k, k ≤ length examples
    ∧ all_return (take k examples) w
    ∧ match main examples w with
      | (Return, w', log) =>
          k = length examples
          ∧ w' = after_calls examples w
          ∧ log = header ++ (Called <$> (fst <$> examples)) ++ footer
      | (SystemExit code, w', log) =>
          code = 1%Z
          ∧ ∃ name func e,
              examples !! k = Some (name, func)
              ∧ func (after_calls (take k examples) w) = (Raises true e, w')
              ∧ log = header ++ (Called <$> (fst <$> take (S k) examples))
                      ++ [Printed (error_line name e)]
      | (Uncaught e, w', log) =>
          ∃ name func,
            examples !! k = Some (name, func)
            ∧ func (after_calls (take k examples) w) = (Raises false e, w')
            ∧ log = header ++ (Called <$> (fst <$> take (S k) examples))
      end.
Proof.
  destruct (for_examples_spec examples w header) as (k & Hk & Hall & Hres).
  exists k. split; [done|]. split; [done|]. unfold main.
  destruct (for_examples examples w header) as [[[x|] w'] log].
  - destruct Hres as (name & func & [|] & e & Hlook & Hcall & -> & ->).
    + split; [done|]. by exists name, func, e.
    + exists name, func. by rewrite app_nil_r.
  - destruct Hres as (-> & -> & ->). by rewrite <-app_assoc.
Qed.

End main_facts.

Section main_runs.
Import Main.

(** The second of three examples raises: the third is not called. *)
Example main_second_example_fails :
  main failing_examples 0
  = (SystemExit 1, 2,
     header
     ++ [Called "Basic Threading"; Called "Thread Synchronization";
         Printed "Error running Thread Synchronization: boom"]).
Proof. reflexivity. Qed.

End main_runs.
